(** * NIP-17 direct messages of nostr-polls: gift-wrap protocol, inbox relay
    resolver, publish/retry tracker and conversation reconciliation engine.

    Shallow embedding of [src/nostr/nip17.ts], the DM context provider
    ([DMProvider]) and the chat view ([ChatView]).  The cryptographic and JSON
    primitives of nostr-tools / noble are external to the repository and enter
    as an interface ([Primitives]) together with the laws the code relies on
    ([PrimitiveLaws]); a small executable instance ([Mock]) lets every
    function of the model run on concrete inputs. *)

From stdpp Require Import gmap strings list fin_maps sorting.
From Stdlib Require Import ZArith Ascii.

Local Open Scope string_scope.
Local Open Scope list_scope.

(** ** JavaScript built-ins used by the sources *)
Module Js.

(** [Set.prototype.add] on the insertion-ordered element list. *)
Definition set_add (acc : list string) (x : string) : list string :=
  if decide (x ∈ acc) then acc else acc ++ [x].

(** [Array.from(new Set(xs))]: first occurrences, in insertion order. *)
Definition array_from_set (xs : list string) : list string :=
  foldl set_add [] xs.

(** [t[i]] on a string tuple.  An absent element ([undefined]) is
    represented by the empty string: both are falsy and [join] prints both as
    the empty string, so a tag without a value and a tag with an empty value
    are not told apart.  They differ in one place: [sort] puts [undefined]
    last and the empty string first, so a statement about the id string of a
    conversation is made for tags that carry their value. *)
Definition at_ (t : list string) (i : nat) : string := default "" (t !! i).

(** Truthiness of a string value. *)
Definition truthy (s : string) : bool := negb (String.eqb s "").

(** [Array.prototype.join]. *)
Definition join (sep : string) (l : list string) : string := String.concat sep l.

(** [String.prototype.split] with a one-character separator. *)
Fixpoint split_go (sep : ascii) (cur : string) (s : string) : list string :=
  match s with
  | EmptyString => [String.rev cur]
  | String c s' =>
      if Ascii.eqb c sep then String.rev cur :: split_go sep EmptyString s'
      else split_go sep (String c cur) s'
  end.
Definition split (sep : ascii) (s : string) : list string :=
  split_go sep EmptyString s.

(** [Array.prototype.sort(cmp)] is stable; [le a b] stands for
    [cmp(a, b) <= 0].  Insertion from the right keeps equal elements in
    their original order. *)
Section Sort.
Context {A : Type} (le : A → A → bool).
Fixpoint insert_sorted (x : A) (l : list A) : list A :=
  match l with
  | [] => [x]
  | y :: l' => if le x y then x :: y :: l' else y :: insert_sorted x l'
  end.
Fixpoint sort (l : list A) : list A :=
  match l with
  | [] => []
  | x :: l' => insert_sorted x (sort l')
  end.
End Sort.

(** [a.sort()] on strings: code-unit order. *)
Definition sort_strings : list string → list string := sort String.leb.

(** The member names of [Object.prototype].  An object literal and what
    [JSON.parse] returns have this prototype, so indexing one of them by such
    a name reads the inherited member when the object has no own property of
    that name. *)
Definition objectPrototypeMembers : list string :=
  [ "constructor"; "__defineGetter__"; "__defineSetter__"; "hasOwnProperty";
    "__lookupGetter__"; "__lookupSetter__"; "isPrototypeOf";
    "propertyIsEnumerable"; "toString"; "valueOf"; "__proto__"; "toLocaleString" ].

(** [o[key]] on a plain object with own properties [o]: the own value, else
    the inherited member of [Object.prototype] (a function, or the prototype
    itself for ["__proto__"]: truthy, and not an array), else [undefined]. *)
Inductive Property (A : Type) : Type :=
  | Own (a : A)
  | Inherited
  | Undefined.
Arguments Own {A} a.
Arguments Inherited {A}.
Arguments Undefined {A}.

Definition get {A : Type} (o : gmap string A) (key : string) : Property A :=
  match o !! key with
  | Some a => Own a
  | None => if decide (key ∈ objectPrototypeMembers) then Inherited else Undefined
  end.

End Js.

(** ** Nostr event shapes ([nostr-tools] types and [Rumor]) *)

Definition Tag : Type := list string.

Module EventTemplate.
Record t := mk { kind : Z; created_at : Z; tags : list Tag; content : string }.
End EventTemplate.

Module UnsignedEvent.
Record t := mk { kind : Z; created_at : Z; tags : list Tag; content : string;
                 pubkey : string }.
End UnsignedEvent.

(** [type Rumor = UnsignedEvent & { id: string }] *)
Module Rumor.
Record t := mk { kind : Z; created_at : Z; tags : list Tag; content : string;
                 pubkey : string; id : string }.
End Rumor.

Module Event.
Record t := mk { kind : Z; created_at : Z; tags : list Tag; content : string;
                 pubkey : string; id : string; sig : string }.
End Event.

(** ** Exceptions *)

Inductive Error :=
  | CapabilityError (msg : string)   (* [new Error("... does not support NIP-44 ...")] *)
  | InvalidKey                       (* hexToBytes / getConversationKey *)
  | DecryptFailure                   (* nip44.decrypt: bad MAC, padding, base64 *)
  | JsonSyntaxError                  (* JSON.parse *)
  | SignerFailure                    (* rejected promise of the signer *)
  | NotLoggedIn (msg : string).

Inductive Result (A : Type) :=
  | Ok (a : A)
  | Throw (e : Error).
Arguments Ok {A} a.
Arguments Throw {A} e.

#[global] Instance Result_ret : MRet Result := @Ok.
#[global] Instance Result_bind : MBind Result := λ A B f m,
  match m with Ok a => f a | Throw e => Throw e end.

Definition orThrow {A} (e : Error) (o : option A) : Result A :=
  match o with Some a => Ok a | None => Throw e end.

(** [try { body } catch { handler }] *)
Definition try_catch {A} (body : Result A) (handler : Error → Result A) : Result A :=
  match body with Ok a => Ok a | Throw e => handler e end.

(** ** External primitives: nostr-tools, noble hashes, JSON *)

Class Primitives := {
  SecretKey : Type;
  ConversationKey : Type;
  (** [hexToBytes]; throws on malformed hex. *)
  hexToBytes : string → option SecretKey;
  getPublicKey : SecretKey → string;
  (** [nip44.getConversationKey]; throws on a malformed public key. *)
  getConversationKey : SecretKey → string → option ConversationKey;
  (** [nip44.encrypt]; the third argument is the nonce the library draws. *)
  nip44_encrypt : string → ConversationKey → string → string;
  nip44_decrypt : string → ConversationKey → option string;
  (** [bytesToHex(sha256(new TextEncoder().encode(s)))] *)
  sha256_hex : string → string;
  (** Schnorr signature over an event id. *)
  schnorr_sign : SecretKey → string → string;
  (** [JSON.stringify([0, pubkey, created_at, kind, tags, content])] *)
  stringify_preimage : UnsignedEvent.t → string;
  stringify_rumor : Rumor.t → string;
  parse_rumor : string → option Rumor.t;
  stringify_event : Event.t → string;
  parse_event : string → option Event.t;
}.

(** What the code relies on: NIP-44 decryption inverts encryption under the
    same conversation key, the conversation key is the same from both ends
    (ECDH), and [JSON.parse] inverts [JSON.stringify] on event objects. *)
Class PrimitiveLaws (P : Primitives) : Prop := {
  decrypt_encrypt : ∀ txt ck nonce,
    nip44_decrypt (nip44_encrypt txt ck nonce) ck = Some txt;
  conversation_key_sym : ∀ a b,
    getConversationKey a (getPublicKey b) = getConversationKey b (getPublicKey a);
  conversation_key_defined : ∀ a b,
    is_Some (getConversationKey a (getPublicKey b));
  parse_stringify_rumor : ∀ r, parse_rumor (stringify_rumor r) = Some r;
  parse_stringify_event : ∀ e, parse_event (stringify_event e) = Some e;
}.

(** Randomness and clock readings drawn while building one gift wrap:
    [generateSecretKey()], the two [randomTimestamp()] calls (clock reading and
    drawn offset) and the nonces of the two encryptions. *)
Record Draws `{Primitives} := {
  ephemeralKey : SecretKey;
  seal_now : Z; seal_offset : Z;
  wrap_now : Z; wrap_offset : Z;
  seal_nonce : string; wrap_nonce : string;
}.

(** Modelled from the spec: the delegated signer ([signerManager.getSigner()],
    not under src/): it exposes [getPublicKey()], [signEvent(template)] and
    optionally [nip44Encrypt(pubkey, text)] / [nip44Decrypt(pubkey, ciphertext)];
    each call may reject. *)
Record Signer := {
  signer_getPublicKey : Result string;
  signEvent : EventTemplate.t → Result Event.t;
  nip44Encrypt : option (string → string → Result string);
  nip44Decrypt : option (string → string → Result string);
}.

(** ** The gift-wrap protocol ([src/nostr/nip17.ts]) *)

Section GiftWrap.
Context `{P : Primitives}.

(** [randomTimestamp]: [now] is [Math.floor(Date.now() / 1000)], [offset] is
    [Math.floor(Math.random() * twoDays)]. *)
Definition randomTimestamp (now offset : Z) : Z := (now - offset)%Z.

Definition computeRumorId (rumor : UnsignedEvent.t) : string :=
  sha256_hex (stringify_preimage rumor).

(** [if (x)] on an optional string argument. *)
Definition given (x : option string) : option string :=
  match x with
  | Some s => if Js.truthy s then Some s else None
  | None => None
  end.

Definition createRumor (now : Z) (senderPubkey recipientPubkey content : string)
    (replyToId : option string) (kind : Z) (extraTags : list Tag) : Rumor.t :=
  let tags := [["p"; recipientPubkey]] in
  let tags := match given replyToId with
              | Some r => tags ++ [["e"; r; ""; "reply"]]
              | None => tags
              end in
  let tags := tags ++ extraTags in
  let unsigned := UnsignedEvent.mk kind now tags content senderPubkey in
  Rumor.mk kind now tags content senderPubkey (computeRumorId unsigned).

(** [finalizeEvent] of nostr-tools: fills in the public key of the signing
    key, the event hash and the signature. *)
Definition finalizeEvent (t : UnsignedEvent.t) (sk : SecretKey) : Event.t :=
  let pk := getPublicKey sk in
  let id := sha256_hex (stringify_preimage
              (UnsignedEvent.mk (UnsignedEvent.kind t) (UnsignedEvent.created_at t)
                 (UnsignedEvent.tags t) (UnsignedEvent.content t) pk)) in
  Event.mk (UnsignedEvent.kind t) (UnsignedEvent.created_at t) (UnsignedEvent.tags t)
    (UnsignedEvent.content t) pk id (schnorr_sign sk id).

(** Step 2 of both wrapping paths: the kind-1059 event around a signed seal,
    encrypted and signed with the ephemeral key. *)
Definition wrapSeal (seal : Event.t) (recipientPubkey : string) (d : Draws)
    : Result Event.t :=
  let ephemeralPubkey := getPublicKey (ephemeralKey d) in
  let sealJson := stringify_event seal in
  wrapConvKey ← orThrow InvalidKey (getConversationKey (ephemeralKey d) recipientPubkey);
  let encryptedSeal := nip44_encrypt sealJson wrapConvKey (wrap_nonce d) in
  let wrapEvent :=
    UnsignedEvent.mk 1059 (randomTimestamp (wrap_now d) (wrap_offset d))
      [["p"; recipientPubkey]] encryptedSeal ephemeralPubkey in
  Ok (finalizeEvent wrapEvent (ephemeralKey d)).

Definition createGiftWrapLocal (senderPrivkey : SecretKey) (rumor : Rumor.t)
    (recipientPubkey : string) (d : Draws) : Result Event.t :=
  let rumorJson := stringify_rumor rumor in
  sealConvKey ← orThrow InvalidKey (getConversationKey senderPrivkey recipientPubkey);
  let encryptedRumor := nip44_encrypt rumorJson sealConvKey (seal_nonce d) in
  let sealEvent :=
    UnsignedEvent.mk 13 (randomTimestamp (seal_now d) (seal_offset d)) []
      encryptedRumor (getPublicKey senderPrivkey) in
  let seal := finalizeEvent sealEvent senderPrivkey in
  wrapSeal seal recipientPubkey d.

Definition createGiftWrapForSigner (signer : Signer) (rumor : Rumor.t)
    (recipientPubkey : string) (d : Draws) : Result Event.t :=
  match nip44Encrypt signer with
  | None => Throw (CapabilityError "Signer does not support NIP-44 encryption")
  | Some encrypt =>
      let rumorJson := stringify_rumor rumor in
      encryptedRumor ← encrypt recipientPubkey rumorJson;
      let sealTemplate :=
        EventTemplate.mk 13 (randomTimestamp (seal_now d) (seal_offset d)) []
          encryptedRumor in
      seal ← signEvent signer sealTemplate;
      wrapSeal seal recipientPubkey d
  end.

Definition unwrapGiftWrapLocal (wrap : Event.t) (recipientPrivkey : SecretKey)
    : Result Rumor.t :=
  wrapConvKey ← orThrow InvalidKey
    (getConversationKey recipientPrivkey (Event.pubkey wrap));
  sealJson ← orThrow DecryptFailure (nip44_decrypt (Event.content wrap) wrapConvKey);
  seal ← orThrow JsonSyntaxError (parse_event sealJson);
  sealConvKey ← orThrow InvalidKey
    (getConversationKey recipientPrivkey (Event.pubkey seal));
  rumorJson ← orThrow DecryptFailure (nip44_decrypt (Event.content seal) sealConvKey);
  rumor ← orThrow JsonSyntaxError (parse_rumor rumorJson);
  Ok rumor.

(** The body of the [try] block of [unwrapGiftWrap].  [getSigner] is the
    outcome of [signerManager.getSigner()]. *)
Definition unwrapGiftWrap_try (getSigner : Result Signer) (wrap : Event.t)
    (privateKey : option string) : Result (option Rumor.t) :=
  match given privateKey with
  | Some privateKey =>
      privkeyBytes ← orThrow InvalidKey (hexToBytes privateKey);
      rumor ← unwrapGiftWrapLocal wrap privkeyBytes;
      Ok (Some rumor)
  | None =>
      signer ← getSigner;
      match nip44Decrypt signer with
      | None => Throw (CapabilityError "Signer does not support NIP-44 decryption")
      | Some decrypt =>
          sealJson ← decrypt (Event.pubkey wrap) (Event.content wrap);
          seal ← orThrow JsonSyntaxError (parse_event sealJson);
          rumorJson ← decrypt (Event.pubkey seal) (Event.content seal);
          rumor ← orThrow JsonSyntaxError (parse_rumor rumorJson);
          if decide (Event.pubkey seal ≠ Rumor.pubkey rumor) then Ok None
          else Ok (Some rumor)
      end
  end.

Definition unwrapGiftWrap (getSigner : Result Signer) (wrap : Event.t)
    (privateKey : option string) : Result (option Rumor.t) :=
  try_catch (unwrapGiftWrap_try getSigner wrap privateKey) (λ _, Ok None).

Definition getConversationId (myPubkey : string) (pTags : list string) : string :=
  let participants := Js.array_from_set (myPubkey :: pTags) in
  Js.join "+" (Js.sort_strings participants).

End GiftWrap.

(** ** Inbox relay resolver ([src/nostr/nip17.ts]) *)

Module CachedRelays.
Record t := mk { relays : list string; created_at : Z }.
End CachedRelays.

(** [inboxRelayCache] (session memory) and the [inbox_relays_] namespace of
    localStorage.  A stored value that does not parse reads as absent
    ([readRelayStore] returns [null]); writes are taken to succeed. *)
Record RelayCaches := {
  inboxRelayCache : gmap string (list string);
  relayStore : gmap string CachedRelays.t;
}.

Definition cache_set (pubkey : string) (rs : list string) (c : RelayCaches) : RelayCaches :=
  {| inboxRelayCache := <[pubkey := rs]> (inboxRelayCache c);
     relayStore := relayStore c |}.

Definition readRelayStore (pubkey : string) (c : RelayCaches) : option CachedRelays.t :=
  relayStore c !! pubkey.

Definition writeRelayStore (pubkey : string) (data : CachedRelays.t) (c : RelayCaches)
    : RelayCaches :=
  {| inboxRelayCache := inboxRelayCache c;
     relayStore := <[pubkey := data]> (relayStore c) |}.

(** Outcome of [nostrRuntime.fetchOne(defaultRelays, {kinds: [10050],
    authors: [pubkey]})]. *)
Inductive FetchOutcome :=
  | FetchThrows
  | FetchNull
  | FetchEvent (e : Event.t).

Definition fallbackRelays : list string := ["wss://relay.damus.io/"].

Definition relayTags (e : Event.t) : list string :=
  (λ t, Js.at_ t 1) <$> filter (λ t, Js.at_ t 0 = "relay") (Event.tags e).

Definition fetchRelaysFromNetwork (net : string → FetchOutcome) (pubkey : string)
    (knownAt : Z) (persist : bool) (c : RelayCaches) : list string * RelayCaches :=
  let newer :=
    match net pubkey with
    | FetchEvent event =>
        let relays := relayTags event in
        if bool_decide (0 < length relays) && bool_decide (knownAt < Event.created_at event)%Z
        then Some (relays, Event.created_at event) else None
    | FetchNull | FetchThrows => None
    end in
  match newer with
  | Some (relays, created_at) =>
      let c := cache_set pubkey relays c in
      let c := if persist then writeRelayStore pubkey (CachedRelays.mk relays created_at) c
               else c in
      (relays, c)
  | None =>
      match inboxRelayCache c !! pubkey with
      | Some cached => (cached, c)
      | None =>
          let c := cache_set pubkey fallbackRelays c in
          let c := if persist then writeRelayStore pubkey (CachedRelays.mk fallbackRelays 0) c
                   else c in
          (fallbackRelays, c)
      end
  end.

(** The background revalidation of tier 2 is not awaited; its effect on the
    caches is applied before the next operation runs.  In the program it may
    land after later operations: a statement about a later lookup is made
    for the cache contents that lookup meets. *)
Definition fetchInboxRelays (net : string → FetchOutcome) (pubkey : string)
    (persist : bool) (c : RelayCaches) : list string * RelayCaches :=
  match inboxRelayCache c !! pubkey with
  | Some cached => (cached, c)
  | None =>
      match (if persist then readRelayStore pubkey c else None) with
      | Some stored =>
          let c := cache_set pubkey (CachedRelays.relays stored) c in
          (CachedRelays.relays stored,
           (fetchRelaysFromNetwork net pubkey (CachedRelays.created_at stored) persist c).2)
      | None => fetchRelaysFromNetwork net pubkey 0 persist c
      end
  end.

(** ** Sending ([wrapAndSendDM], [wrapAndSendReaction]) *)

(** One [pool.publish] to one relay; the promise the pool returns for it is
    identified with the operation. *)
Definition PublishOp : Type := string * Event.t.

Module RelayPublish.
Record t := mk { relay : string; promise : PublishOp }.
End RelayPublish.

Definition Wrap : Type := Event.t * list string.

Module SendResult.
Record t := mk {
  rumor : Rumor.t;
  publishes : list RelayPublish.t;
  retryWraps : list Wrap;
}.
End SendResult.

(** What the module can change outside itself: the relay caches and the
    publish operations handed to the pool. *)
Record World := { caches : RelayCaches; published : list PublishOp }.

(** [pool.publish(relays, event)] *)
Definition pool_publish (relays : list string) (event : Event.t) : list PublishOp :=
  (λ r, (r, event)) <$> relays.

Definition relayMap_add (event : Event.t) (relayMap : list RelayPublish.t) (r : string)
    : list RelayPublish.t :=
  if decide (r ∈ RelayPublish.relay <$> relayMap) then relayMap
  else relayMap ++ [RelayPublish.mk r (r, event)].

(** The loop over [wraps]: every wrap goes to all of its relays, the map keeps
    the first promise seen for a relay. *)
Definition publishWraps (wraps : list Wrap) : list PublishOp * list RelayPublish.t :=
  foldl (λ acc w, (acc.1 ++ pool_publish w.2 w.1, foldl (relayMap_add w.1) acc.2 w.2))
        ([], []) wraps.

Section Send.
Context `{P : Primitives}.

Definition dmCapabilityMessage : string :=
  "Your signer does not support NIP-44 encryption, which is required for DMs.".
Definition reactionCapabilityMessage : string :=
  "Your signer does not support NIP-44 encryption, which is required for DM reactions.".

(** Everything up to the rumor, shared by both senders.  The two relay
    lookups of [Promise.all] are taken in argument order. *)
Definition prepare (getSigner : Result Signer) (net : string → FetchOutcome)
    (recipientPubkey : string) (w : World)
    : Result (Signer * string * list string * list string) * World :=
  match getSigner with
  | Throw e => (Throw e, w)
  | Ok signer =>
      match signer_getPublicKey signer with
      | Throw e => (Throw e, w)
      | Ok senderPubkey =>
          let '(recipientInbox, c) := fetchInboxRelays net recipientPubkey false (caches w) in
          let '(senderInbox, c) := fetchInboxRelays net senderPubkey true c in
          (Ok (signer, senderPubkey, recipientInbox, senderInbox),
           {| caches := c; published := published w |})
      end
  end.

Definition wrapAndSendDM (getSigner : Result Signer) (net : string → FetchOutcome)
    (defaultRelays : list string) (now : Z) (dr ds : Draws)
    (recipientPubkey content : string) (privateKey replyToId : option string)
    (w : World) : Result SendResult.t * World :=
  match prepare getSigner net recipientPubkey w with
  | (Throw e, w) => (Throw e, w)
  | (Ok (signer, senderPubkey, recipientInbox, senderInbox), w) =>
      let rumor := createRumor now senderPubkey recipientPubkey content replyToId 14 [] in
      let recipientRelays := Js.array_from_set (recipientInbox ++ defaultRelays) in
      let senderRelays := Js.array_from_set (senderInbox ++ defaultRelays) in
      let wraps : Result (list Wrap) :=
        match given privateKey with
        | Some privateKey =>
            privkeyBytes ← orThrow InvalidKey (hexToBytes privateKey);
            wrapForRecipient ← createGiftWrapLocal privkeyBytes rumor recipientPubkey dr;
            wrapForSender ← createGiftWrapLocal privkeyBytes rumor senderPubkey ds;
            Ok [(wrapForRecipient, recipientRelays); (wrapForSender, senderRelays)]
        | None =>
            match nip44Encrypt signer with
            | None => Throw (CapabilityError dmCapabilityMessage)
            | Some _ =>
                recipientWrap ← createGiftWrapForSigner signer rumor recipientPubkey dr;
                senderWrap ← createGiftWrapForSigner signer rumor senderPubkey ds;
                Ok [(recipientWrap, recipientRelays); (senderWrap, senderRelays)]
            end
        end in
      match wraps with
      | Throw e => (Throw e, w)
      | Ok wraps =>
          let '(ops, relayMap) := publishWraps wraps in
          (Ok (SendResult.mk rumor relayMap wraps),
           {| caches := caches w; published := published w ++ ops |})
      end
  end.

(** In the delegated branch the recipient wrap is published before the sender
    wrap is built, so a failure of the second wrap leaves the first one
    published. *)
Definition wrapAndSendReaction (getSigner : Result Signer) (net : string → FetchOutcome)
    (defaultRelays : list string) (now : Z) (dr ds : Draws)
    (recipientPubkey emoji targetMessageId : string) (privateKey : option string)
    (w : World) : Result Rumor.t * World :=
  match prepare getSigner net recipientPubkey w with
  | (Throw e, w) => (Throw e, w)
  | (Ok (signer, senderPubkey, recipientInbox, senderInbox), w) =>
      let rumor := createRumor now senderPubkey recipientPubkey emoji None 7
                     [["e"; targetMessageId]] in
      let recipientRelays := Js.array_from_set (recipientInbox ++ defaultRelays) in
      let senderRelays := Js.array_from_set (senderInbox ++ defaultRelays) in
      match given privateKey with
      | Some privateKey =>
          match (privkeyBytes ← orThrow InvalidKey (hexToBytes privateKey);
                 wrapForRecipient ← createGiftWrapLocal privkeyBytes rumor recipientPubkey dr;
                 wrapForSender ← createGiftWrapLocal privkeyBytes rumor senderPubkey ds;
                 Ok (wrapForRecipient, wrapForSender)) with
          | Throw e => (Throw e, w)
          | Ok (wrapForRecipient, wrapForSender) =>
              (Ok rumor,
               {| caches := caches w;
                  published := published w ++ pool_publish recipientRelays wrapForRecipient
                                           ++ pool_publish senderRelays wrapForSender |})
          end
      | None =>
          match nip44Encrypt signer with
          | None => (Throw (CapabilityError reactionCapabilityMessage), w)
          | Some _ =>
              match createGiftWrapForSigner signer rumor recipientPubkey dr with
              | Throw e => (Throw e, w)
              | Ok recipientWrap =>
                  let w := {| caches := caches w;
                              published := published w
                                           ++ pool_publish recipientRelays recipientWrap |} in
                  match createGiftWrapForSigner signer rumor senderPubkey ds with
                  | Throw e => (Throw e, w)
                  | Ok senderWrap =>
                      (Ok rumor,
                       {| caches := caches w;
                          published := published w
                                       ++ pool_publish senderRelays senderWrap |})
                  end
              end
          end
      end
  end.

End Send.

(** ** Conversation reconciliation engine ([DMProvider]) *)

Module DMMessage.
Record t := mk { id : string; wrapId : string; pubkey : string; content : string;
                 created_at : Z; tags : list Tag }.
End DMMessage.

Module DMReaction.
Record t := mk { emoji : string; pubkey : string; tags : list Tag }.
End DMReaction.

Module Conversation.
Record t := mk {
  id : string;
  participants : list string;
  messages : list DMMessage.t;
  lastMessageAt : Z;
  unreadCount : Z;
  reactions : gmap string (list DMReaction.t);
}.
End Conversation.

(** React state ([conversations]), the [seenRumorIds] ref and the three
    localStorage namespaces of the provider ([dm_cache_], [dm_lastseen_],
    [dm_reactions_]).  Stored values are kept parsed: an entry that does not
    parse reads as absent, and writes are taken to succeed. *)
Record DMState := {
  conversations : gmap string Conversation.t;
  seenRumorIds : gset string;
  dm_cache : gmap string DMMessage.t;
  dm_lastseen : gmap string Z;
  dm_reactions : gmap string (gmap string (list DMReaction.t));
}.

Definition getCachedRumor (wrapId : string) (st : DMState) : option DMMessage.t :=
  dm_cache st !! wrapId.

Definition setCachedRumor (wrapId : string) (msg : DMMessage.t) (st : DMState) : DMState :=
  {| conversations := conversations st; seenRumorIds := seenRumorIds st;
     dm_cache := <[wrapId := msg]> (dm_cache st);
     dm_lastseen := dm_lastseen st; dm_reactions := dm_reactions st |}.

Definition getLastSeen (conversationId : string) (st : DMState) : Z :=
  default 0%Z (dm_lastseen st !! conversationId).

Definition setLastSeen (conversationId : string) (timestamp : Z) (st : DMState) : DMState :=
  {| conversations := conversations st; seenRumorIds := seenRumorIds st;
     dm_cache := dm_cache st;
     dm_lastseen := <[conversationId := timestamp]> (dm_lastseen st);
     dm_reactions := dm_reactions st |}.

Definition setConversations (f : gmap string Conversation.t → gmap string Conversation.t)
    (st : DMState) : DMState :=
  {| conversations := f (conversations st); seenRumorIds := seenRumorIds st;
     dm_cache := dm_cache st; dm_lastseen := dm_lastseen st;
     dm_reactions := dm_reactions st |}.

(** [rumor.tags.filter((t) => t[0] === name)] *)
Definition tagsNamed (name : string) (tags : list Tag) : list Tag :=
  filter (λ t, Js.at_ t 0 = name) tags.

Definition conversationIdOf (rumor : Rumor.t) : string :=
  let pTags := (λ t, Js.at_ t 1) <$> tagsNamed "p" (Rumor.tags rumor) in
  getConversationId (Rumor.pubkey rumor) pTags.

(** [rumor.tags.find((t) => t[0] === "e")?.[1]] *)
Definition targetMessageIdOf (rumor : Rumor.t) : string :=
  match tagsNamed "e" (Rumor.tags rumor) with
  | t :: _ => Js.at_ t 1
  | [] => ""
  end.

(** [(r) => r.pubkey === reaction.pubkey && r.emoji === reaction.emoji] *)
Definition sameReaction (reaction r : DMReaction.t) : bool :=
  bool_decide (DMReaction.pubkey r = DMReaction.pubkey reaction)
  && bool_decide (DMReaction.emoji r = DMReaction.emoji reaction).

(** [{ ...existing, reactions }] and [{ ...conv, unreadCount: 0 }] *)
Definition withReactions (existing : Conversation.t)
    (reactions : gmap string (list DMReaction.t)) : Conversation.t :=
  Conversation.mk (Conversation.id existing) (Conversation.participants existing)
    (Conversation.messages existing) (Conversation.lastMessageAt existing)
    (Conversation.unreadCount existing) reactions.
Definition withNoUnread (conv : Conversation.t) : Conversation.t :=
  Conversation.mk (Conversation.id conv) (Conversation.participants conv)
    (Conversation.messages conv) (Conversation.lastMessageAt conv) 0
    (Conversation.reactions conv).

(** The [reaction] object built from a kind-7 rumor. *)
Definition reactionOf (rumor : Rumor.t) : DMReaction.t :=
  DMReaction.mk (Rumor.content rumor) (Rumor.pubkey rumor)
    (tagsNamed "emoji" (Rumor.tags rumor)).

Definition addReactionToConversation (rumor : Rumor.t) (myPubkey : string)
    (st : DMState) : DMState :=
  let conversationId := conversationIdOf rumor in
  let targetMessageId := targetMessageIdOf rumor in
  if negb (Js.truthy targetMessageId) then st else
  let reaction := reactionOf rumor in
  (* Cache reaction: the body of the [try]; [reactions] is a plain object *)
  let reactions := default ∅ (dm_reactions st !! conversationId) in
  let push (forTarget : list DMReaction.t) : DMState :=
    if existsb (sameReaction reaction) forTarget then st
    else
      {| conversations := conversations st; seenRumorIds := seenRumorIds st;
         dm_cache := dm_cache st; dm_lastseen := dm_lastseen st;
         dm_reactions :=
           <[conversationId := <[targetMessageId := forTarget ++ [reaction]]> reactions]>
             (dm_reactions st) |} in
  let st :=
    match Js.get reactions targetMessageId with
    | Js.Own forTarget => push forTarget
    | Js.Undefined => push []
    | Js.Inherited =>
        (* [reactions[targetMessageId]] is truthy and has no [some]: the call
           throws a TypeError, the [catch] swallows it, nothing is stored *)
        st
    end in
  setConversations (λ prev,
    match prev !! conversationId with
    | None => prev
    | Some existing =>
        let reactionsMap := Conversation.reactions existing in
        let existing_reactions := default [] (reactionsMap !! targetMessageId) in
        if existsb (sameReaction reaction) existing_reactions then prev
        else
          <[conversationId :=
              withReactions existing
                (<[targetMessageId := existing_reactions ++ [reaction]]> reactionsMap)]> prev
    end) st.

(** [(a, b) => a.created_at - b.created_at] *)
Definition byCreatedAt (a b : DMMessage.t) : bool :=
  bool_decide (DMMessage.created_at a - DMMessage.created_at b ≤ 0)%Z.

(** The [msg] object [addMessage] builds. *)
Definition messageOf (rumor : Rumor.t) (wrapId : string) : DMMessage.t :=
  DMMessage.mk (Rumor.id rumor) wrapId (Rumor.pubkey rumor) (Rumor.content rumor)
    (Rumor.created_at rumor) (Rumor.tags rumor).

(** [rumor.pubkey !== myPubkey && rumor.created_at > lastSeen] *)
Definition isUnread (rumor : Rumor.t) (myPubkey : string) (lastSeen : Z) : bool :=
  bool_decide (Rumor.pubkey rumor ≠ myPubkey)
  && bool_decide (lastSeen < Rumor.created_at rumor)%Z.

(** [(m) => m.id === rumor.id] *)
Definition hasId (id : string) (m : DMMessage.t) : bool := bool_decide (DMMessage.id m = id).

Definition addMessage (rumor : Rumor.t) (wrapId myPubkey : string) (st : DMState)
    : DMState :=
  (* Dedup by rumor.id *)
  if decide (Rumor.id rumor ∈ seenRumorIds st) then st else
  let st :=
    {| conversations := conversations st;
       seenRumorIds := {[Rumor.id rumor]} ∪ seenRumorIds st;
       dm_cache := dm_cache st; dm_lastseen := dm_lastseen st;
       dm_reactions := dm_reactions st |} in
  if decide (Rumor.kind rumor = 7%Z) then addReactionToConversation rumor myPubkey st else
  let conversationId := conversationIdOf rumor in
  let participants := Js.split "+" conversationId in
  let msg := messageOf rumor wrapId in
  let st := setCachedRumor wrapId msg st in
  let cachedReactions := default ∅ (dm_reactions st !! conversationId) in
  let lastSeen := getLastSeen conversationId st in
  let isUnread := isUnread rumor myPubkey lastSeen in
  setConversations (λ prev,
    match prev !! conversationId with
    | Some existing =>
        if existsb (hasId (Rumor.id rumor)) (Conversation.messages existing)
        then prev
        else
          let updatedMessages :=
            Js.sort byCreatedAt (Conversation.messages existing ++ [msg]) in
          <[conversationId :=
              Conversation.mk (Conversation.id existing) (Conversation.participants existing)
                updatedMessages
                (Z.max (Conversation.lastMessageAt existing) (Rumor.created_at rumor))
                (Conversation.unreadCount existing + (if isUnread then 1 else 0))%Z
                (Conversation.reactions existing)]> prev
    | None =>
        <[conversationId :=
            Conversation.mk conversationId participants [msg] (Rumor.created_at rumor)
              (if isUnread then 1 else 0)%Z cachedReactions]> prev
    end) st.

(** The [onEvent] handler of the kind-1059 subscription.  A cached
    [DMMessage] carries no [kind], so [cached.kind || 14] is 14. *)
Definition onEvent `{Primitives} (getSigner : Result Signer) (privateKey : option string)
    (myPubkey : string) (event : Event.t) (st : DMState) : DMState :=
  match getCachedRumor (Event.id event) st with
  | Some cached =>
      let fakeRumor :=
        Rumor.mk 14 (DMMessage.created_at cached) (DMMessage.tags cached)
          (DMMessage.content cached) (DMMessage.pubkey cached) (DMMessage.id cached) in
      addMessage fakeRumor (Event.id event) myPubkey st
  | None =>
      match unwrapGiftWrap getSigner event privateKey with
      | Ok (Some rumor) => addMessage rumor (Event.id event) myPubkey st
      | _ => st
      end
  end.

Definition markAsRead (now : Z) (conversationId : string) (st : DMState) : DMState :=
  let st := setLastSeen conversationId now st in
  setConversations (λ prev,
    match prev !! conversationId with
    | Some conv =>
        if bool_decide (0 < Conversation.unreadCount conv)%Z
        then <[conversationId := withNoUnread conv]> prev
        else prev
    | None => prev
    end) st.

Definition hasUnread (conv : Conversation.t) : Prop := (0 < Conversation.unreadCount conv)%Z.

Definition markAllAsRead (now : Z) (st : DMState) : DMState :=
  {| conversations :=
       (λ conv, if bool_decide (hasUnread conv) then withNoUnread conv else conv)
         <$> conversations st;
     seenRumorIds := seenRumorIds st;
     dm_cache := dm_cache st;
     dm_lastseen :=
       ((λ _, now) <$> filter (λ kv, hasUnread kv.2) (conversations st)) ∪ dm_lastseen st;
     dm_reactions := dm_reactions st |}.

(** The logged-in user of [useUserContext]. *)
Record User := { user_pubkey : string; user_privateKey : option string }.

Module SendTracking.
Record t := mk {
  rumorId : string;
  publishes : list RelayPublish.t;
  retryWraps : list Wrap;
}.
End SendTracking.

Definition sendMessage `{Primitives} (user : option User) (getSigner : Result Signer)
    (net : string → FetchOutcome) (defaultRelays : list string) (now : Z) (dr ds : Draws)
    (recipientPubkey content : string) (replyToId : option string)
    (w : World) (st : DMState) : Result SendTracking.t * World * DMState :=
  match user with
  | None => (Throw (NotLoggedIn "Must be logged in to send DMs"), w, st)
  | Some user =>
      match wrapAndSendDM getSigner net defaultRelays now dr ds recipientPubkey content
              (user_privateKey user) replyToId w with
      | (Throw e, w) => (Throw e, w, st)
      | (Ok res, w) =>
          let rumor := SendResult.rumor res in
          let st := addMessage rumor ("local_" +:+ Rumor.id rumor) (user_pubkey user) st in
          (Ok (SendTracking.mk (Rumor.id rumor) (SendResult.publishes res)
                 (SendResult.retryWraps res)), w, st)
      end
  end.

Definition sendReaction `{Primitives} (user : option User) (getSigner : Result Signer)
    (net : string → FetchOutcome) (defaultRelays : list string) (now : Z) (dr ds : Draws)
    (recipientPubkey emoji messageId : string)
    (w : World) (st : DMState) : Result unit * World * DMState :=
  match user with
  | None => (Throw (NotLoggedIn "Must be logged in to react to DMs"), w, st)
  | Some user =>
      match wrapAndSendReaction getSigner net defaultRelays now dr ds recipientPubkey emoji
              messageId (user_privateKey user) w with
      | (Throw e, w) => (Throw e, w, st)
      | (Ok rumor, w) =>
          (Ok tt, w,
           addMessage rumor ("local_reaction_" +:+ Rumor.id rumor) (user_pubkey user) st)
      end
  end.

(** ** Publish/retry tracker ([ChatView]) *)

Module RelayStatus.
Inductive t := pending | sent | failed | timeout.
#[global] Instance eq_dec : EqDecision t.
Proof. solve_decision. Defined.
End RelayStatus.

Module MsgSendStatus.
Record t := mk {
  relays : gmap string RelayStatus.t;
  retryWraps : list Wrap;
}.
End MsgSendStatus.

(** A running [Promise.race([promise, timeout])] whose handlers report the
    outcome for [relay] of message [rumorId]. *)
Record Race := { race_rumorId : string; race_relay : string; race_promise : PublishOp }.

(** [sendStatuses] of the chat view and the races still in flight. *)
Record ChatState := {
  sendStatuses : gmap string MsgSendStatus.t;
  races : list Race;
}.

Definition updateRelayStatus (rumorId relay : string) (status : RelayStatus.t)
    (st : ChatState) : ChatState :=
  {| sendStatuses :=
       match sendStatuses st !! rumorId with
       | Some s =>
           <[rumorId := MsgSendStatus.mk (<[relay := status]> (MsgSendStatus.relays s))
                          (MsgSendStatus.retryWraps s)]> (sendStatuses st)
       | None => sendStatuses st
       end;
     races := races st |}.

(** How a race ends: the publish promise resolves, it rejects, or the
    [SEND_TIMEOUT_MS] timer rejects first with [TIMEOUT_MARKER]. *)
Inductive Settlement := Resolved | Rejected | TimerFirst.

Definition settledStatus (s : Settlement) : RelayStatus.t :=
  match s with
  | Resolved => RelayStatus.sent
  | Rejected => RelayStatus.failed
  | TimerFirst => RelayStatus.timeout
  end.

Definition settle (r : Race) (s : Settlement) (st : ChatState) : ChatState :=
  updateRelayStatus (race_rumorId r) (race_relay r) (settledStatus s) st.

Definition trackRelays (tracking : SendTracking.t) (st : ChatState) : ChatState :=
  let rumorId := SendTracking.rumorId tracking in
  let publishes := SendTracking.publishes tracking in
  let initialRelays : gmap string RelayStatus.t :=
    foldl (λ acc p, <[RelayPublish.relay p := RelayStatus.pending]> acc) ∅ publishes in
  {| sendStatuses :=
       <[rumorId := MsgSendStatus.mk initialRelays (SendTracking.retryWraps tracking)]>
         (sendStatuses st);
     races :=
       races st ++ ((λ p, {| race_rumorId := rumorId; race_relay := RelayPublish.relay p;
                             race_promise := RelayPublish.promise p |}) <$> publishes) |}.

(** The races one stored wrap starts on retry: one per relay of the wrap that
    is a key of the status record. *)
Definition retryRaces (rumorId : string) (trackedRelays : gset string) (wrap : Wrap)
    : list Race :=
  (λ relay, {| race_rumorId := rumorId; race_relay := relay;
               race_promise := (relay, wrap.1) |})
    <$> filter (λ relay, relay ∈ trackedRelays) wrap.2.

Definition handleRetry (rumorId : string) (st : ChatState) (w : World)
    : ChatState * World :=
  match sendStatuses st !! rumorId with
  | None => (st, w)
  | Some status =>
      let resetRelays : gmap string RelayStatus.t :=
        (λ _, RelayStatus.pending) <$> MsgSendStatus.relays status in
      let trackedRelays : gset string := dom (MsgSendStatus.relays status) in
      ({| sendStatuses :=
            <[rumorId := MsgSendStatus.mk resetRelays (MsgSendStatus.retryWraps status)]>
              (sendStatuses st);
          races := races st
                   ++ mbind (retryRaces rumorId trackedRelays) (MsgSendStatus.retryWraps status) |},
       {| caches := caches w;
          published := published w
                       ++ mbind (λ wrap : Wrap, pool_publish wrap.2 wrap.1)
                            (MsgSendStatus.retryWraps status) |})
  end.

(** Modelled from the spec: a delegated signer that answers with the secret
    key [sk] it holds (the signer implementations are not under src/); the two
    NIP-44 capabilities are present or absent as the flags say. *)
Definition keySigner `{Primitives} (sk : SecretKey) (canEncrypt canDecrypt : bool)
    (nonce : string) : Signer :=
  {| signer_getPublicKey := Ok (getPublicKey sk);
     signEvent := λ t,
       Ok (finalizeEvent
             (UnsignedEvent.mk (EventTemplate.kind t) (EventTemplate.created_at t)
                (EventTemplate.tags t) (EventTemplate.content t) (getPublicKey sk)) sk);
     nip44Encrypt :=
       if canEncrypt
       then Some (λ pk txt, ck ← orThrow InvalidKey (getConversationKey sk pk);
                            Ok (nip44_encrypt txt ck nonce))
       else None;
     nip44Decrypt :=
       if canDecrypt
       then Some (λ pk c, ck ← orThrow InvalidKey (getConversationKey sk pk);
                          orThrow DecryptFailure (nip44_decrypt c ck))
       else None |}.

(** The signing backend of a call: [if (privateKey) ... else ...]. *)
Inductive Backend :=
  | RawKey (privateKey : string)
  | Delegated (signer : Signer).

Section Backends.
Context `{P : Primitives}.

(** The wrap a sender builds for [recipientPubkey], as the two branches of
    [wrapAndSendDM] and [wrapAndSendReaction] do. *)
Definition wrapFor (b : Backend) (rumor : Rumor.t) (recipientPubkey : string) (d : Draws)
    : Result Event.t :=
  match b with
  | RawKey privateKey =>
      privkeyBytes ← orThrow InvalidKey (hexToBytes privateKey);
      createGiftWrapLocal privkeyBytes rumor recipientPubkey d
  | Delegated signer => createGiftWrapForSigner signer rumor recipientPubkey d
  end.

(** [unwrapGiftWrap(wrap, privateKey)] as the subscription calls it. *)
Definition unwrapAs (b : Backend) (wrap : Event.t) : Result (option Rumor.t) :=
  match b with
  | RawKey privateKey => unwrapGiftWrap (Throw SignerFailure) wrap (Some privateKey)
  | Delegated signer => unwrapGiftWrap (Ok signer) wrap None
  end.

(** The backend can wrap, respectively unwrap, for the secret key [sk]: it is
    the hex form of [sk], or a signer for [sk] with the capability needed. *)
Definition sendsAs (b : Backend) (sk : SecretKey) : Prop :=
  match b with
  | RawKey privateKey => Js.truthy privateKey = true ∧ hexToBytes privateKey = Some sk
  | Delegated signer => ∃ canDecrypt nonce, signer = keySigner sk true canDecrypt nonce
  end.
Definition receivesAs (b : Backend) (sk : SecretKey) : Prop :=
  match b with
  | RawKey privateKey => Js.truthy privateKey = true ∧ hexToBytes privateKey = Some sk
  | Delegated signer => ∃ canEncrypt nonce, signer = keySigner sk canEncrypt true nonce
  end.

(** Decryption of one layer with a raw key: conversation key, then NIP-44. *)
Definition localDecrypt (sk : SecretKey) (pubkey ciphertext : string) : Result string :=
  ck ← orThrow InvalidKey (getConversationKey sk pubkey);
  orThrow DecryptFailure (nip44_decrypt ciphertext ck).

(** The layer decryption [unwrapGiftWrap] ends up using, or the exception
    raised before any layer is opened. *)
Definition decryptorOf (getSigner : Result Signer) (privateKey : option string)
    : Result (string → string → Result string) :=
  match given privateKey with
  | Some privateKey =>
      privkeyBytes ← orThrow InvalidKey (hexToBytes privateKey);
      Ok (localDecrypt privkeyBytes)
  | None =>
      signer ← getSigner;
      match nip44Decrypt signer with
      | None => Throw (CapabilityError "Signer does not support NIP-44 decryption")
      | Some decrypt => Ok decrypt
      end
  end.

(** The ways opening a gift wrap goes wrong: a layer does not decrypt (wrong
    key, malformed ciphertext) or its plaintext is not JSON of the expected
    shape. *)
Inductive FailureMode (decrypt : string → string → Result string) (wrap : Event.t) : Prop :=
  | WrapDoesNotDecrypt e :
      decrypt (Event.pubkey wrap) (Event.content wrap) = Throw e →
      FailureMode decrypt wrap
  | SealIsNotJson sealJson :
      decrypt (Event.pubkey wrap) (Event.content wrap) = Ok sealJson →
      parse_event sealJson = None →
      FailureMode decrypt wrap
  | SealDoesNotDecrypt sealJson seal e :
      decrypt (Event.pubkey wrap) (Event.content wrap) = Ok sealJson →
      parse_event sealJson = Some seal →
      decrypt (Event.pubkey seal) (Event.content seal) = Throw e →
      FailureMode decrypt wrap
  | RumorIsNotJson sealJson seal rumorJson :
      decrypt (Event.pubkey wrap) (Event.content wrap) = Ok sealJson →
      parse_event sealJson = Some seal →
      decrypt (Event.pubkey seal) (Event.content seal) = Ok rumorJson →
      parse_rumor rumorJson = None →
      FailureMode decrypt wrap.

(** The seal and the rumor inside a wrap, as [decrypt] opens them. *)
Definition opens (decrypt : string → string → Result string) (wrap seal : Event.t)
    (rumor : Rumor.t) : Prop :=
  ∃ sealJson rumorJson,
    decrypt (Event.pubkey wrap) (Event.content wrap) = Ok sealJson ∧
    parse_event sealJson = Some seal ∧
    decrypt (Event.pubkey seal) (Event.content seal) = Ok rumorJson ∧
    parse_rumor rumorJson = Some rumor.

End Backends.

(** ** An executable stand-in for the external primitives

    Keys are hex strings, the public key of [sk] is ["02" +:+ sk], the
    conversation key of two parties is the ordered pair of their secrets, a
    ciphertext is the plaintext behind its conversation key, and objects are
    serialised field by field with length prefixes.  None of this is
    secure; it satisfies [PrimitiveLaws] and computes. *)
Module Mock.

Fixpoint put_positive (p : positive) (rest : string) : string :=
  match p with
  | xH => String "." rest
  | xO p => String "0" (put_positive p rest)
  | xI p => String "1" (put_positive p rest)
  end.

Fixpoint get_positive (s : string) : option (positive * string) :=
  match s with
  | String c s' =>
      if Ascii.eqb c "." then Some (xH, s')
      else if Ascii.eqb c "0"
           then match get_positive s' with Some (p, r) => Some (xO p, r) | None => None end
      else if Ascii.eqb c "1"
           then match get_positive s' with Some (p, r) => Some (xI p, r) | None => None end
      else None
  | EmptyString => None
  end.

Definition put_Z (z : Z) (rest : string) : string :=
  match z with
  | Z0 => String "z" rest
  | Zpos p => String "+" (put_positive p rest)
  | Zneg p => String "-" (put_positive p rest)
  end.

Definition get_Z (s : string) : option (Z * string) :=
  match s with
  | String c s' =>
      if Ascii.eqb c "z" then Some (Z0, s')
      else if Ascii.eqb c "+"
           then match get_positive s' with Some (p, r) => Some (Zpos p, r) | None => None end
      else if Ascii.eqb c "-"
           then match get_positive s' with Some (p, r) => Some (Zneg p, r) | None => None end
      else None
  | EmptyString => None
  end.

Definition put_nat (n : nat) (rest : string) : string := put_Z (Z.of_nat n) rest.
Definition get_nat (s : string) : option (nat * string) :=
  match get_Z s with Some (z, r) => Some (Z.to_nat z, r) | None => None end.

Fixpoint take (n : nat) (s : string) : option (string * string) :=
  match n with
  | O => Some (EmptyString, s)
  | S n =>
      match s with
      | String c s' =>
          match take n s' with Some (a, r) => Some (String c a, r) | None => None end
      | EmptyString => None
      end
  end.

Definition put_string (a rest : string) : string := put_nat (String.length a) (a +:+ rest).
Definition get_string (s : string) : option (string * string) :=
  match get_nat s with Some (n, r) => take n r | None => None end.

Section Lists.
Context {A : Type} (put : A → string → string) (get : string → option (A * string)).
Definition put_list (l : list A) (rest : string) : string :=
  put_nat (length l) (foldr put rest l).
Fixpoint get_n (n : nat) (s : string) : option (list A * string) :=
  match n with
  | O => Some ([], s)
  | S n =>
      match get s with
      | Some (a, r) =>
          match get_n n r with Some (l, r') => Some (a :: l, r') | None => None end
      | None => None
      end
  end.
Definition get_list (s : string) : option (list A * string) :=
  match get_nat s with Some (n, r) => get_n n r | None => None end.
End Lists.

Definition put_tags : list Tag → string → string := put_list (put_list put_string).
Definition get_tags : string → option (list Tag * string) := get_list (get_list get_string).

Definition stringify_rumor (r : Rumor.t) : string :=
  put_Z (Rumor.kind r) (put_Z (Rumor.created_at r) (put_tags (Rumor.tags r)
    (put_string (Rumor.content r) (put_string (Rumor.pubkey r)
      (put_string (Rumor.id r) ""))))).

Definition parse_rumor (s : string) : option Rumor.t :=
  '(kind, s) ← get_Z s;
  '(created_at, s) ← get_Z s;
  '(tags, s) ← get_tags s;
  '(content, s) ← get_string s;
  '(pubkey, s) ← get_string s;
  '(id, s) ← get_string s;
  if String.eqb s "" then Some (Rumor.mk kind created_at tags content pubkey id) else None.

Definition stringify_event (e : Event.t) : string :=
  put_Z (Event.kind e) (put_Z (Event.created_at e) (put_tags (Event.tags e)
    (put_string (Event.content e) (put_string (Event.pubkey e)
      (put_string (Event.id e) (put_string (Event.sig e) "")))))).

Definition parse_event (s : string) : option Event.t :=
  '(kind, s) ← get_Z s;
  '(created_at, s) ← get_Z s;
  '(tags, s) ← get_tags s;
  '(content, s) ← get_string s;
  '(pubkey, s) ← get_string s;
  '(id, s) ← get_string s;
  '(sig, s) ← get_string s;
  if String.eqb s "" then Some (Event.mk kind created_at tags content pubkey id sig) else None.

Definition stringify_preimage (u : UnsignedEvent.t) : string :=
  put_string (UnsignedEvent.pubkey u) (put_Z (UnsignedEvent.created_at u)
    (put_Z (UnsignedEvent.kind u) (put_tags (UnsignedEvent.tags u)
      (put_string (UnsignedEvent.content u) "")))).

Definition is_hex (c : ascii) : bool :=
  let n := nat_of_ascii c in
  (Nat.leb 48 n && Nat.leb n 57) || (Nat.leb 97 n && Nat.leb n 102)
  || (Nat.leb 65 n && Nat.leb n 70).

Fixpoint all_hex (s : string) : bool :=
  match s with
  | EmptyString => true
  | String c s' => is_hex c && all_hex s'
  end.

Definition hexToBytes (s : string) : option string :=
  if all_hex s && Nat.even (String.length s) then Some s else None.

Definition getPublicKey (sk : string) : string := "02" +:+ sk.

Definition shared (a b : string) : string :=
  if String.leb a b then a +:+ "|" +:+ b else b +:+ "|" +:+ a.

Definition getConversationKey (sk pk : string) : option string :=
  match pk with
  | String "0" (String "2" other) => Some (shared sk other)
  | _ => None
  end.

Fixpoint strip_prefix (p s : string) : option string :=
  match p with
  | EmptyString => Some s
  | String c p' =>
      match s with
      | String d s' => if Ascii.eqb c d then strip_prefix p' s' else None
      | EmptyString => None
      end
  end.

Definition nip44_encrypt (txt ck nonce : string) : string := (ck +:+ "#") +:+ txt.
Definition nip44_decrypt (c ck : string) : option string := strip_prefix (ck +:+ "#") c.

(** A positional checksum in place of SHA-256. *)
Fixpoint checksum (s : string) (i acc : N) : N :=
  match s with
  | EmptyString => acc
  | String c s' => checksum s' (i + 1)%N ((acc + i * N_of_ascii c) mod 1000003)%N
  end.
Definition digest (s : string) : string := put_Z (Z.of_N (checksum s 1 7)) "".

#[export] Instance primitives : Primitives :=
  Build_Primitives string string hexToBytes getPublicKey getConversationKey
    nip44_encrypt nip44_decrypt
    digest (λ sk id, "sig:" +:+ sk +:+ ":" +:+ id)
    stringify_preimage stringify_rumor parse_rumor stringify_event parse_event.

End Mock.


(** ** Invariants and reachable states *)

(** No relay list held by either cache tier is empty. *)
Definition caches_nonempty (c : RelayCaches) : Prop :=
  (∀ pubkey rs, inboxRelayCache c !! pubkey = Some rs → rs ≠ []) ∧
  (∀ pubkey stored, relayStore c !! pubkey = Some stored → CachedRelays.relays stored ≠ []).

(** Cache states of a session: the memory tier starts empty over a store
    whose entries were written by this module (none of them is empty), and is
    then changed only by the resolver, including revalidations that land
    later. *)
Inductive session : RelayCaches → Prop :=
  | session_start store :
      (∀ pubkey stored, store !! pubkey = Some stored → CachedRelays.relays stored ≠ []) →
      session {| inboxRelayCache := ∅; relayStore := store |}
  | session_fetchInboxRelays net pubkey persist c :
      session c → session (fetchInboxRelays net pubkey persist c).2
  | session_revalidated net pubkey knownAt persist c :
      session c → session (fetchRelaysFromNetwork net pubkey knownAt persist c).2.

(** How often [x] occurs in [l]. *)
Definition occurrences (x : string) (l : list string) : nat :=
  length (filter (λ y, y = x) l).

(** Publish operations handed to the pool for one relay, tracked entries
    for one relay. *)
Definition opsTo (relay : string) (ops : list PublishOp) : nat :=
  occurrences relay (fst <$> ops).
Definition trackedFor (relay : string) (publishes : list RelayPublish.t) : nat :=
  occurrences relay (RelayPublish.relay <$> publishes).

(** The tracking record [sendMessage] returns for a send result. *)
Definition trackingOf (res : SendResult.t) : SendTracking.t :=
  SendTracking.mk (Rumor.id (SendResult.rumor res)) (SendResult.publishes res)
    (SendResult.retryWraps res).

(** The rumor the [onEvent] handler passes to [addMessage] for an event, if
    any: the cached one, else the unwrapped one. *)
Definition resolve `{Primitives} (getSigner : Result Signer) (privateKey : option string)
    (event : Event.t) (st : DMState) : option Rumor.t :=
  match getCachedRumor (Event.id event) st with
  | Some cached =>
      Some (Rumor.mk 14 (DMMessage.created_at cached) (DMMessage.tags cached)
              (DMMessage.content cached) (DMMessage.pubkey cached) (DMMessage.id cached))
  | None =>
      match unwrapGiftWrap getSigner event privateKey with
      | Ok (Some rumor) => Some rumor
      | _ => None
      end
  end.

(** Messages of a conversation that carry the rumor id [id]. *)
Definition countWithId (id : string) (conv : Conversation.t) : nat :=
  length (filter (λ m, DMMessage.id m = id) (Conversation.messages conv)).

(** Entries of a reaction list for the pair (pubkey, emoji). *)
Definition reactionEntries (pubkey emoji : string) (l : list DMReaction.t) : nat :=
  length (filter (λ r, DMReaction.pubkey r = pubkey ∧ DMReaction.emoji r = emoji) l).

Definition deduped (l : list DMReaction.t) : Prop :=
  ∀ pubkey emoji, (reactionEntries pubkey emoji l ≤ 1)%nat.

(** The reaction list of a target message, live and persisted. *)
Definition liveReactions (conversationId target : string) (st : DMState)
    : option (list DMReaction.t) :=
  conv ← conversations st !! conversationId;
  Some (default [] (Conversation.reactions conv !! target)).
Definition persistedReactions (conversationId target : string) (st : DMState)
    : list DMReaction.t :=
  default [] (default ∅ (dm_reactions st !! conversationId) !! target).

(** The persisting branch of [addReactionToConversation] reads an inherited
    member instead of a reaction list: the target is named like a member of
    [Object.prototype] and the persisted object has no own list for it. *)
Definition readsInherited (conversationId target : string) (st : DMState) : bool :=
  bool_decide (default ∅ (dm_reactions st !! conversationId) !! target = None
               ∧ target ∈ Js.objectPrototypeMembers).

(** Unread counter of a conversation; a conversation not yet in state has none. *)
Definition unreadOf (conversationId : string) (st : DMState) : Z :=
  default 0%Z (Conversation.unreadCount <$> conversations st !! conversationId).

(** Every message in state has its rumor id in the seen-set, no reaction
    list, live or persisted, holds a (pubkey, emoji) pair twice, and no unread
    counter is negative. *)
Record wellFormed (st : DMState) : Prop := {
  wf_seen : ∀ cid conv m,
    conversations st !! cid = Some conv → m ∈ Conversation.messages conv →
    DMMessage.id m ∈ seenRumorIds st;
  wf_live : ∀ cid conv target l,
    conversations st !! cid = Some conv → Conversation.reactions conv !! target = Some l →
    deduped l;
  wf_cached : ∀ cid m target l,
    dm_reactions st !! cid = Some m → m !! target = Some l → deduped l;
  wf_unread : ∀ cid conv,
    conversations st !! cid = Some conv → (0 ≤ Conversation.unreadCount conv)%Z;
}.

(** States of the provider: a session starts with empty conversation state
    over whatever this module persisted earlier, and changes only through
    [addMessage] (received events and local echoes), the two read markers and
    the reset on logout. *)
Inductive reachable : DMState → Prop :=
  | reachable_start cache lastseen reactions :
      (∀ cid m target l, reactions !! cid = Some m → m !! target = Some l → deduped l) →
      reachable {| conversations := ∅; seenRumorIds := ∅; dm_cache := cache;
                   dm_lastseen := lastseen; dm_reactions := reactions |}
  | reachable_addMessage rumor wrapId myPubkey st :
      reachable st → reachable (addMessage rumor wrapId myPubkey st)
  | reachable_markAsRead now conversationId st :
      reachable st → reachable (markAsRead now conversationId st)
  | reachable_markAllAsRead now st :
      reachable st → reachable (markAllAsRead now st)
  | reachable_logout st :
      reachable st →
      reachable {| conversations := ∅; seenRumorIds := ∅; dm_cache := dm_cache st;
                   dm_lastseen := dm_lastseen st; dm_reactions := dm_reactions st |}.

(** What both deduplicating branches of [addReactionToConversation] do to a
    reaction list. *)
Definition absorb (reaction : DMReaction.t) (l : list DMReaction.t) : list DMReaction.t :=
  if existsb (sameReaction reaction) l then l else l ++ [reaction].

(** ** Alice, Bob and Mallory on the stand-in primitives *)

Module Scenario.
Import Mock.

Definition aliceKey : string := "a1".
Definition bobKey : string := "b0".
Definition malloryKey : string := "c4".
Definition alicePub : string := Eval vm_compute in getPublicKey aliceKey.
Definition bobPub : string := Eval vm_compute in getPublicKey bobKey.
Definition malloryPub : string := Eval vm_compute in getPublicKey malloryKey.

Definition aliceSigner : Signer := keySigner (aliceKey : SecretKey) true true "n-a".
Definition bobSigner : Signer := keySigner (bobKey : SecretKey) true true "n-b".

Definition draws (eph : string) : Draws :=
  {| ephemeralKey := (eph : SecretKey); seal_now := 1700000000; seal_offset := 4711;
     wrap_now := 1700000000; wrap_offset := 86000;
     seal_nonce := "n1"; wrap_nonce := "n2" |}.

(** What [createRumor] builds when Alice writes "hi" to Bob. *)
Definition hi : Rumor.t :=
  Eval vm_compute in createRumor 1700000000 alicePub bobPub "hi" None 14 [].

(** The sealed-and-wrapped form of [hi], sealed by Mallory's key: the rumor
    still names Alice as its author. *)
Definition forgedWrap : Result Event.t :=
  createGiftWrapLocal (malloryKey : SecretKey) hi bobPub (draws "e1").

(** The wrap Alice's raw key builds for Bob. *)
Definition bobWrap : Event.t :=
  Eval vm_compute in
    match createGiftWrapLocal (aliceKey : SecretKey) hi bobPub (draws "e3") with
    | Ok wrap => wrap
    | Throw _ => Event.mk 0 0 [] "" "" "" ""
    end.

(** The seal inside a wrap, as the recipient's key opens it. *)
Definition decryptedSeal (sk : string) (wrap : Event.t) : Result Event.t :=
  sealJson ← localDecrypt (sk : SecretKey) (Event.pubkey wrap) (Event.content wrap);
  orThrow JsonSyntaxError (parse_event sealJson).

(** A cold start: nothing cached, nothing stored, nothing published yet,
    and a network on which nobody has published a kind-10050 relay list. *)
Definition coldWorld : World :=
  {| caches := {| inboxRelayCache := ∅; relayStore := ∅ |}; published := [] |}.
Definition noRelayLists : string → FetchOutcome := λ _, FetchNull.

(** A value for the [defaultRelays] constant of [src/nostr/index.ts], which
    is not among the sources. *)
Definition someDefaultRelays : list string := ["wss://nos.lol/"].

Definition damus : string := "wss://relay.damus.io/".

(** Alice logged in with her raw key, and through a signer without
    [nip44Encrypt]. *)
Definition alice : User := {| user_pubkey := alicePub; user_privateKey := Some aliceKey |}.
Definition aliceDelegated : User := {| user_pubkey := alicePub; user_privateKey := None |}.
Definition encryptlessSigner : Signer := keySigner (aliceKey : SecretKey) false true "n-a".

Definition freshDM : DMState :=
  {| conversations := ∅; seenRumorIds := ∅; dm_cache := ∅; dm_lastseen := ∅;
     dm_reactions := ∅ |}.

(** Alice's raw-key send of "hi" to Bob from the cold start. *)
Definition sendHi : Result SendResult.t * World :=
  wrapAndSendDM (Ok aliceSigner) noRelayLists someDefaultRelays 1700000000
    (draws "e1") (draws "e2") bobPub "hi" (Some aliceKey) None coldWorld.

(** A send over three relays: Bob lists [relayA], Alice lists [relayC], and
    [relayB] is the default relay both sets share.  Then A rejects, B accepts
    and C runs into the timer, and the user retries. *)
Definition relayA : string := "wss://a.example/".
Definition relayB : string := "wss://b.example/".
Definition relayC : string := "wss://c.example/".

Definition relayList (author relay : string) : Event.t :=
  Event.mk 10050 1690000000 [["relay"; relay]] "" author "id" "sig".

Definition relayLists (pubkey : string) : FetchOutcome :=
  if decide (pubkey = bobPub) then FetchEvent (relayList bobPub relayA)
  else if decide (pubkey = alicePub) then FetchEvent (relayList alicePub relayC)
  else FetchNull.

Definition sendABC : Result SendResult.t * World :=
  wrapAndSendDM (Ok aliceSigner) relayLists [relayB] 1700000000
    (draws "e1") (draws "e2") bobPub "hi" (Some aliceKey) None coldWorld.

Definition noChat : ChatState := {| sendStatuses := ∅; races := [] |}.

Definition settledABC (res : SendResult.t) : ChatState :=
  let rid := Rumor.id (SendResult.rumor res) in
  updateRelayStatus rid relayC RelayStatus.timeout
    (updateRelayStatus rid relayB RelayStatus.sent
       (updateRelayStatus rid relayA RelayStatus.failed
          (trackRelays (trackingOf res) noChat))).

(** A second wrap of the same rumor for Bob, under another ephemeral key. *)
Definition bobWrapAgain : Event.t :=
  Eval vm_compute in
    match createGiftWrapLocal (aliceKey : SecretKey) hi bobPub (draws "e4") with
    | Ok wrap => wrap
    | Throw _ => Event.mk 0 0 [] "" "" "" ""
    end.

(** Bob's engine once it has taken in [hi], and two reactions of Alice to
    [hi] with the same emoji, sent at different times. *)
Definition afterHi : DMState := addMessage hi "w1" bobPub freshDM.
Definition thumbsUp : Rumor.t :=
  Eval vm_compute in createRumor 1700000100 alicePub bobPub "+" None 7 [["e"; Rumor.id hi]].
Definition thumbsUpAgain : Rumor.t :=
  Eval vm_compute in createRumor 1700000200 alicePub bobPub "+" None 7 [["e"; Rumor.id hi]].

End Scenario.

(** ** Views of the chat screen ([ChatView]) *)

(** The conversation [ChatView] shows: [conversations.get(getConversationId(
    user.pubkey, [recipientPubkey]))]. *)
Definition chatConversation (userPubkey recipientPubkey : string) (st : DMState)
    : option Conversation.t :=
  conversations st !! getConversationId userPubkey [recipientPubkey].

(** [msg.tags.find((t) => t[0] === "e" && t[3] === "reply")] *)
Definition replyTag (msg : DMMessage.t) : option Tag :=
  head (filter (λ t, Js.at_ t 0 = "e" ∧ Js.at_ t 3 = "reply") (DMMessage.tags msg)).

(** [replyTag ? messages.find((m) => m.id === replyTag[1]) : undefined] *)
Definition referencedMsg (messages : list DMMessage.t) (msg : DMMessage.t)
    : option DMMessage.t :=
  match replyTag msg with
  | Some t => head (filter (λ m, DMMessage.id m = Js.at_ t 1) messages)
  | None => None
  end.

(** The character [c] occurs in [s]. *)
Fixpoint hasChar (c : ascii) (s : string) : bool :=
  match s with
  | EmptyString => false
  | String d s' => Ascii.eqb d c || hasChar c s'
  end.

(** ** Publishing one's relay list, sending, subscribing *)

(** [publishInboxRelays]: the kind-10050 relay list of the current user,
    signed by the signer and handed to the pool for the default relays. *)
Definition publishInboxRelays (getSigner : Result Signer) (defaultRelays : list string)
    (now : Z) (relays : list string) (w : World) : Result unit * World :=
  match getSigner with
  | Throw e => (Throw e, w)
  | Ok signer =>
      let event := EventTemplate.mk 10050 now ((λ r, ["relay"; r]) <$> relays) "" in
      match signEvent signer event with
      | Throw e => (Throw e, w)
      | Ok signed =>
          (Ok tt, {| caches := caches w;
                     published := published w ++ pool_publish defaultRelays signed |})
      end
  end.

(** The backend [wrapAndSendDM] and [wrapAndSendReaction] end up using:
    [if (privateKey) ... else ...] over the signer in hand. *)
Definition backendOf (signer : Signer) (privateKey : option string) : Backend :=
  match given privateKey with
  | Some privateKey => RawKey privateKey
  | None => Delegated signer
  end.

(** [relaysToUse] of [startSubscription]: the user's inbox relays, looked up
    without persistence, and the default relays. *)
Definition subscriptionRelays (net : string → FetchOutcome) (defaultRelays : list string)
    (myPubkey : string) (c : RelayCaches) : list string * RelayCaches :=
  let '(inboxRelays, c) := fetchInboxRelays net myPubkey false c in
  (Js.array_from_set (inboxRelays ++ defaultRelays), c).

(** ** More of the provider ([DMProvider]) *)

(** [unreadTotal]: the sum of the unread counters over
    [conversations.values()].  A [Map] is walked in insertion order; the sum
    does not depend on it. *)
Definition unreadTotal (st : DMState) : Z :=
  foldl (λ sum c, (sum + Conversation.unreadCount c)%Z) 0%Z
    ((map_to_list (conversations st)).*2).

(** The state the provider is reset to when the user logs out: conversation
    state and seen-set are dropped, localStorage stays. *)
Definition logout (st : DMState) : DMState :=
  {| conversations := ∅; seenRumorIds := ∅; dm_cache := dm_cache st;
     dm_lastseen := dm_lastseen st; dm_reactions := dm_reactions st |}.

(** Order of the message list, and the conversation a stored message
    belongs to by its author and p-tags. *)
Definition olderFirst (a b : DMMessage.t) : Prop :=
  (DMMessage.created_at a ≤ DMMessage.created_at b)%Z.
Definition conversationOfMessage (m : DMMessage.t) : string :=
  getConversationId (DMMessage.pubkey m)
    ((λ t, Js.at_ t 1) <$> tagsNamed "p" (DMMessage.tags m)).

(** What every conversation in state looks like. *)
Record shapedConversation (cid : string) (conv : Conversation.t) : Prop := {
  sh_id : Conversation.id conv = cid;
  sh_participants : Conversation.participants conv = Js.split "+" cid;
  sh_nonempty : Conversation.messages conv ≠ [];
  sh_sorted : Sorted olderFirst (Conversation.messages conv);
  sh_distinct : NoDup (DMMessage.id <$> Conversation.messages conv);
  sh_members : ∀ m, m ∈ Conversation.messages conv →
    conversationOfMessage m = cid ∧
    (DMMessage.created_at m ≤ Conversation.lastMessageAt conv)%Z;
  sh_last : ∃ m, m ∈ Conversation.messages conv ∧
    DMMessage.created_at m = Conversation.lastMessageAt conv;
}.
Definition shaped (st : DMState) : Prop :=
  ∀ cid conv, conversations st !! cid = Some conv → shapedConversation cid conv.

(** ** Send status under a message ([MessageBubble]) *)

(** What the relay-status row renders: nothing, one dot per relay, or the
    "Not delivered" warning with or without its Retry link. *)
Inductive SendStatusView :=
  | NoStatus
  | RelayDots (entries : list (string * RelayStatus.t))
  | NotDelivered (retry : bool).

(** [Object.entries] walks the record in insertion order; only the order of
    the dots depends on it. *)
Definition sendStatusView (sendStatus : option MsgSendStatus.t) (onRetry : bool)
    : SendStatusView :=
  match sendStatus with
  | None => NoStatus
  | Some sendStatus =>
      let entries := map_to_list (MsgSendStatus.relays sendStatus) in
      let allSent := forallb (λ e, bool_decide (e.2 = RelayStatus.sent)) entries in
      let allFailed :=
        bool_decide (0 < length entries)
        && forallb (λ e, bool_decide (e.2 = RelayStatus.failed ∨ e.2 = RelayStatus.timeout))
             entries in
      if allSent then NoStatus
      else if allFailed then NotDelivered onRetry
      else RelayDots entries
  end.

(** The races [trackRelays] starts for a send, and all of a list of races
    settled, the race for a relay ending as [outcome] says. *)
Definition racesOf (tracking : SendTracking.t) : list Race :=
  (λ p, {| race_rumorId := SendTracking.rumorId tracking;
           race_relay := RelayPublish.relay p;
           race_promise := RelayPublish.promise p |}) <$> SendTracking.publishes tracking.
Definition settleAll (outcome : string → Settlement) (rs : list Race) (st : ChatState)
    : ChatState :=
  foldl (λ st r, settle r (outcome (race_relay r)) st) st rs.

(** ** Composing a message ([MessageInput], [ChatView.handleSend]) *)

(** What [ChatView.handleSend] throws: its own "No recipient", or whatever
    [sendMessage] threw. *)
Inductive SendFailure :=
  | NoRecipient
  | SendThrew (e : Error).

(** The chat view's part of the state: the send statuses with their races,
    and the message being replied to. *)
Record ChatUi := { chat : ChatState; replyTo : option DMMessage.t }.

Definition handleSend `{Primitives} (recipientPubkey : option string) (user : option User)
    (getSigner : Result Signer) (net : string → FetchOutcome) (defaultRelays : list string)
    (now : Z) (dr ds : Draws) (content : string) (s : World * DMState * ChatUi)
    : option SendFailure * (World * DMState * ChatUi) :=
  let '(w, st, ui) := s in
  match given recipientPubkey with
  | None => (Some NoRecipient, s)
  | Some recipientPubkey =>
      match sendMessage user getSigner net defaultRelays now dr ds recipientPubkey content
              (DMMessage.id <$> replyTo ui) w st with
      | (Throw e, w, st) => (Some (SendThrew e), (w, st, ui))
      | (Ok tracking, w, st) =>
          (None, (w, st, {| chat := trackRelays tracking (chat ui); replyTo := None |}))
      end
  end.

Module MessageInput.

(** [input] and [sending] of the composer. *)
Record t := mk { input : string; sending : bool }.

(** [handleSend], run to completion.  [trim] is [String.prototype.trim];
    [onSend] returns what it threw, if anything. *)
Definition handleSend {S E : Type} (trim : string → string)
    (onSend : string → S → option E * S) (c : t) (s : S) : t * S :=
  if negb (Js.truthy (trim (input c))) || sending c then (c, s)
  else
    let content := trim (input c) in
    match onSend content s with
    | (Some _, s) => (mk content false, s)
    | (None, s) => (mk "" false, s)
    end.

End MessageInput.

(** ** Poll responses ([PollResponseForm]) *)


(** [error] and [responses] of the form. *)
Module PollForm.
Record t := mk { error : string; responses : list string }.
End PollForm.




(** More of the cast: a signer for Alice that encrypts to Bob and rejects
    every other request, as when the user approves the first prompt of the
    signer and declines the next. *)
Module Scenario2.
Import Mock Scenario.

Definition bobOnlySigner : Signer :=
  {| signer_getPublicKey := Ok alicePub;
     signEvent := signEvent aliceSigner;
     nip44Encrypt :=
       Some (λ pk txt,
               if decide (pk = bobPub)
               then ck ← orThrow InvalidKey (getConversationKey (aliceKey : SecretKey) pk);
                    Ok (Mock.nip44_encrypt txt ck "n-a")
               else Throw SignerFailure);
     nip44Decrypt := nip44Decrypt aliceSigner |}.

(** A message of Alice to Bob dated before [hi], and Bob's reply to [hi]. *)
Definition earlier : Rumor.t :=
  Eval vm_compute in createRumor 1690000000 alicePub bobPub "earlier" None 14 [].
Definition yo : Rumor.t :=
  Eval vm_compute in createRumor 1700000300 bobPub alicePub "yo" (Some (Rumor.id hi)) 14 [].


(** [trim] on blanks, enough for the drafts typed here. *)
Fixpoint dropBlanks (s : string) : string :=
  match s with
  | String " " s' => dropBlanks s'
  | _ => s
  end.
Definition trimBlanks (s : string) : string :=
  String.rev (dropBlanks (String.rev (dropBlanks s))).

End Scenario2.

(** * Properties *)

(** ** The stand-in satisfies the laws *)

Module MockLaws.
Import Mock.

Lemma get_put_positive p rest : get_positive (put_positive p rest) = Some (p, rest).
Proof. induction p as [p IH | p IH |]; simpl; [rewrite IH .. |]; reflexivity. Qed.

Lemma get_put_Z z rest : get_Z (put_Z z rest) = Some (z, rest).
Proof. destruct z; simpl; [| rewrite get_put_positive ..]; reflexivity. Qed.

Lemma get_put_nat n rest : get_nat (put_nat n rest) = Some (n, rest).
Proof. unfold get_nat, put_nat. by rewrite get_put_Z, Nat2Z.id. Qed.

Lemma take_app a rest : take (String.length a) (a +:+ rest) = Some (a, rest).
Proof. induction a as [| c a IH]; simpl; [| rewrite IH]; reflexivity. Qed.

Lemma get_put_string a rest : get_string (put_string a rest) = Some (a, rest).
Proof. unfold get_string, put_string. rewrite get_put_nat. apply take_app. Qed.

Section Lists.
Context {A : Type} (put : A → string → string) (get : string → option (A * string)).
Hypothesis get_put : ∀ a rest, get (put a rest) = Some (a, rest).

Lemma get_n_foldr l rest : get_n get (length l) (foldr put rest l) = Some (l, rest).
Proof. induction l as [| a l IH]; simpl; [| rewrite get_put, IH]; reflexivity. Qed.

Lemma get_put_list l rest : get_list get (put_list put l rest) = Some (l, rest).
Proof. unfold get_list, put_list. rewrite get_put_nat. apply get_n_foldr. Qed.
End Lists.

Lemma get_put_tags tags rest : get_tags (put_tags tags rest) = Some (tags, rest).
Proof.
  unfold get_tags, put_tags. apply get_put_list. intros t r.
  apply get_put_list, get_put_string.
Qed.

Lemma parse_stringify_rumor r : parse_rumor (stringify_rumor r) = Some r.
Proof.
  destruct r. unfold parse_rumor, stringify_rumor. simpl.
  rewrite get_put_Z. simpl. rewrite get_put_Z. simpl. rewrite get_put_tags. simpl.
  repeat (rewrite get_put_string; simpl). reflexivity.
Qed.

Lemma parse_stringify_event e : parse_event (stringify_event e) = Some e.
Proof.
  destruct e. unfold parse_event, stringify_event. simpl.
  rewrite get_put_Z. simpl. rewrite get_put_Z. simpl. rewrite get_put_tags. simpl.
  repeat (rewrite get_put_string; simpl). reflexivity.
Qed.

Lemma strip_prefix_app p s : strip_prefix p (p +:+ s) = Some s.
Proof. induction p as [| c p IH]; simpl; [| rewrite Ascii.eqb_refl]; done. Qed.

Lemma decrypt_encrypt txt ck nonce : nip44_decrypt (nip44_encrypt txt ck nonce) ck = Some txt.
Proof. unfold nip44_decrypt, nip44_encrypt. apply strip_prefix_app. Qed.

Lemma shared_sym a b : shared a b = shared b a.
Proof.
  unfold shared.
  destruct (String.leb a b) eqn:Hab, (String.leb b a) eqn:Hba; try reflexivity.
  - by rewrite (String.leb_antisym _ _ Hab Hba).
  - destruct (String.leb_total a b); congruence.
Qed.

Lemma laws : PrimitiveLaws primitives.
Proof.
  split.
  - exact decrypt_encrypt.
  - intros a b. simpl. unfold getConversationKey, getPublicKey. simpl.
    by rewrite shared_sym.
  - intros a b. simpl. eexists. reflexivity.
  - exact parse_stringify_rumor.
  - exact parse_stringify_event.
Qed.

End MockLaws.

(** ** Gift-wrap protocol *)

Section GiftWrapProperties.
Context `{P : Primitives}.

(** [unwrapGiftWrapLocal] opens both layers with [localDecrypt]. *)
Lemma unwrapGiftWrapLocal_layers wrap sk :
  unwrapGiftWrapLocal wrap sk =
    (sealJson ← localDecrypt sk (Event.pubkey wrap) (Event.content wrap);
     seal ← orThrow JsonSyntaxError (parse_event sealJson);
     rumorJson ← localDecrypt sk (Event.pubkey seal) (Event.content seal);
     orThrow JsonSyntaxError (parse_rumor rumorJson)).
Proof.
  unfold unwrapGiftWrapLocal, localDecrypt.
  destruct (getConversationKey sk (Event.pubkey wrap)); simpl; [| done].
  destruct (nip44_decrypt (Event.content wrap) c); simpl; [| done].
  destruct (parse_event s) as [seal |]; simpl; [| done].
  destruct (getConversationKey sk (Event.pubkey seal)); simpl; [| done].
  destruct (nip44_decrypt (Event.content seal) c0); simpl; [| done].
  by destruct (parse_rumor s0).
Qed.

(** The [try] body in terms of the layer decryption in use.  Only the
    delegated branch compares the seal's author with the rumor's. *)
Lemma unwrapGiftWrap_try_layers getSigner wrap privateKey :
  unwrapGiftWrap_try getSigner wrap privateKey =
    (decrypt ← decryptorOf getSigner privateKey;
     sealJson ← decrypt (Event.pubkey wrap) (Event.content wrap);
     seal ← orThrow JsonSyntaxError (parse_event sealJson);
     rumorJson ← decrypt (Event.pubkey seal) (Event.content seal);
     rumor ← orThrow JsonSyntaxError (parse_rumor rumorJson);
     match given privateKey with
     | Some _ => Ok (Some rumor)
     | None => if decide (Event.pubkey seal ≠ Rumor.pubkey rumor) then Ok None
               else Ok (Some rumor)
     end).
Proof.
  unfold unwrapGiftWrap_try, decryptorOf.
  destruct (given privateKey) as [k |]; simpl.
  - destruct (hexToBytes k) as [sk |]; simpl; [| done].
    rewrite unwrapGiftWrapLocal_layers.
    destruct (localDecrypt sk (Event.pubkey wrap) (Event.content wrap)); simpl; [| done].
    destruct (parse_event a) as [seal |]; simpl; [| done].
    destruct (localDecrypt sk (Event.pubkey seal) (Event.content seal)); simpl; [| done].
    by destruct (parse_rumor a0).
  - destruct getSigner as [signer | e]; simpl; [| done].
    by destruct (nip44Decrypt signer).
Qed.

Lemma unwrapGiftWrap_never_throws getSigner wrap privateKey :
  ∃ r, unwrapGiftWrap getSigner wrap privateKey = Ok r.
Proof.
  unfold unwrapGiftWrap, try_catch.
  destruct (unwrapGiftWrap_try getSigner wrap privateKey); eauto.
Qed.

Lemma unwrapGiftWrap_opens getSigner wrap privateKey decrypt seal rumor :
  decryptorOf getSigner privateKey = Ok decrypt →
  opens decrypt wrap seal rumor →
  unwrapGiftWrap getSigner wrap privateKey =
    Ok (match given privateKey with
        | Some _ => Some rumor
        | None => if decide (Event.pubkey seal ≠ Rumor.pubkey rumor) then None
                  else Some rumor
        end).
Proof.
  intros Hd (sealJson & rumorJson & H1 & H2 & H3 & H4).
  unfold unwrapGiftWrap. rewrite unwrapGiftWrap_try_layers, Hd. simpl.
  rewrite H1. simpl. rewrite H2. simpl. rewrite H3. simpl. rewrite H4. simpl.
  destruct (given privateKey); [done |]. by case_decide.
Qed.

(** Authenticity check, delegated path: a wrap whose seal and rumor name
    different authors is discarded. *)
Lemma unwrapGiftWrap_delegated_rejects_mismatch signer wrap decrypt seal rumor :
  nip44Decrypt signer = Some decrypt →
  opens decrypt wrap seal rumor →
  Event.pubkey seal ≠ Rumor.pubkey rumor →
  unwrapGiftWrap (Ok signer) wrap None = Ok None.
Proof.
  intros Hd Ho Hne.
  rewrite (unwrapGiftWrap_opens _ _ _ decrypt seal rumor); [| | done].
  - simpl. by rewrite decide_True.
  - unfold decryptorOf. simpl. by rewrite Hd.
Qed.

(** On the raw-key path the same wrap is returned to the caller. *)
Lemma unwrapGiftWrap_local_ignores_mismatch getSigner wrap privateKey sk seal rumor :
  given (Some privateKey) = Some privateKey →
  hexToBytes privateKey = Some sk →
  opens (localDecrypt sk) wrap seal rumor →
  unwrapGiftWrap getSigner wrap (Some privateKey) = Ok (Some rumor).
Proof.
  intros Hg Hk Ho.
  rewrite (unwrapGiftWrap_opens _ _ _ (localDecrypt sk) seal rumor); [| | done].
  - by rewrite Hg.
  - unfold decryptorOf. rewrite Hg. simpl. by rewrite Hk.
Qed.

(** C5: whatever goes wrong while opening a gift wrap (no usable key or
    signer, a layer that does not decrypt because the key is wrong or the
    ciphertext malformed, a plaintext that is not JSON), [unwrapGiftWrap]
    returns [null] to its caller and raises nothing. *)
Theorem unwrapGiftWrap_failure_returns_null getSigner wrap privateKey :
  (∃ e, decryptorOf getSigner privateKey = Throw e) ∨
  (∃ decrypt, decryptorOf getSigner privateKey = Ok decrypt ∧ FailureMode decrypt wrap) →
  unwrapGiftWrap getSigner wrap privateKey = Ok None.
Proof.
  unfold unwrapGiftWrap. rewrite unwrapGiftWrap_try_layers.
  intros [[e He] | (decrypt & Hd & Hf)].
  - by rewrite He.
  - rewrite Hd. simpl. destruct Hf as [e H1 | sj H1 H2 | sj seal e H1 H2 H3 | sj seal rj H1 H2 H3 H4];
      rewrite H1; simpl; [done | rewrite H2; simpl ..]; [done | rewrite H3; simpl ..];
      [done | by rewrite H4].
Qed.

End GiftWrapProperties.

Section RoundTrip.
Context `{P : Primitives} {L : PrimitiveLaws P}.

Lemma localDecrypt_encrypt (a b : SecretKey) ck txt nonce :
  getConversationKey a (getPublicKey b) = Some ck →
  localDecrypt b (getPublicKey a) (nip44_encrypt txt ck nonce) = Ok txt.
Proof.
  intros Hck. unfold localDecrypt.
  rewrite conversation_key_sym, Hck. simpl. by rewrite decrypt_encrypt.
Qed.

(** The outer layer: a seal the recipient can open stays openable once
    wrapped under the ephemeral key. *)
Lemma wrapSeal_opens seal (rsk : SecretKey) d rumorJson rumor :
  localDecrypt rsk (Event.pubkey seal) (Event.content seal) = Ok rumorJson →
  parse_rumor rumorJson = Some rumor →
  ∃ wrap, wrapSeal seal (getPublicKey rsk) d = Ok wrap ∧
          opens (localDecrypt rsk) wrap seal rumor.
Proof.
  intros Hdec Hparse.
  destruct (conversation_key_defined (ephemeralKey d) rsk) as [wck Hwck].
  unfold wrapSeal. rewrite Hwck. simpl. eexists. split; [reflexivity |].
  exists (stringify_event seal), rumorJson. simpl.
  rewrite (localDecrypt_encrypt _ _ wck) by done.
  by rewrite parse_stringify_event.
Qed.

Lemma createGiftWrapLocal_opens (ssk rsk : SecretKey) rumor d :
  ∃ wrap seal,
    createGiftWrapLocal ssk rumor (getPublicKey rsk) d = Ok wrap ∧
    opens (localDecrypt rsk) wrap seal rumor ∧
    Event.pubkey seal = getPublicKey ssk.
Proof.
  destruct (conversation_key_defined ssk rsk) as [sck Hsck].
  unfold createGiftWrapLocal. rewrite Hsck. simpl.
  edestruct (wrapSeal_opens) as (wrap & Hw & Ho); [| | exists wrap; eexists; eauto].
  - simpl. by apply localDecrypt_encrypt.
  - apply parse_stringify_rumor.
Qed.

Lemma createGiftWrapForSigner_opens (ssk rsk : SecretKey) canDecrypt nonce rumor d :
  ∃ wrap seal,
    createGiftWrapForSigner (keySigner ssk true canDecrypt nonce) rumor
      (getPublicKey rsk) d = Ok wrap ∧
    opens (localDecrypt rsk) wrap seal rumor ∧
    Event.pubkey seal = getPublicKey ssk.
Proof.
  destruct (conversation_key_defined ssk rsk) as [sck Hsck].
  unfold createGiftWrapForSigner. simpl. rewrite Hsck. simpl.
  edestruct (wrapSeal_opens) as (wrap & Hw & Ho); [| | exists wrap; eexists; eauto].
  - simpl. by apply localDecrypt_encrypt.
  - apply parse_stringify_rumor.
Qed.

Lemma wrapFor_opens sender (ssk rsk : SecretKey) rumor d :
  sendsAs sender ssk →
  ∃ wrap seal,
    wrapFor sender rumor (getPublicKey rsk) d = Ok wrap ∧
    opens (localDecrypt rsk) wrap seal rumor ∧
    Event.pubkey seal = getPublicKey ssk.
Proof.
  destruct sender as [k | signer]; simpl.
  - intros [_ ->]. simpl. apply createGiftWrapLocal_opens.
  - intros (canDecrypt & nonce & ->). apply createGiftWrapForSigner_opens.
Qed.

Lemma unwrapAs_opens recipient (rsk : SecretKey) wrap seal rumor :
  receivesAs recipient rsk →
  opens (localDecrypt rsk) wrap seal rumor →
  Event.pubkey seal = Rumor.pubkey rumor →
  unwrapAs recipient wrap = Ok (Some rumor).
Proof.
  destruct recipient as [k | signer]; simpl.
  - intros [Ht Hk] Ho _.
    apply (unwrapGiftWrap_local_ignores_mismatch _ _ _ rsk seal); [| done ..].
    simpl. by rewrite Ht.
  - intros (canEncrypt & nonce & ->) Ho Heq.
    rewrite (unwrapGiftWrap_opens _ _ _ (localDecrypt rsk) seal rumor); [| done ..].
    simpl. by rewrite decide_False by (by intros ?).
Qed.

(** C2 (amended): a rumor authored by the sending identity, wrapped for a
    recipient by either backend, is returned unchanged, field for field, when
    the recipient unwraps it with either backend. *)
Theorem gift_wrap_round_trip sender recipient (ssk rsk : SecretKey) rumor d :
  sendsAs sender ssk →
  receivesAs recipient rsk →
  Rumor.pubkey rumor = getPublicKey ssk →
  ∃ wrap, wrapFor sender rumor (getPublicKey rsk) d = Ok wrap ∧
          unwrapAs recipient wrap = Ok (Some rumor).
Proof.
  intros Hs Hr Hauthor.
  destruct (wrapFor_opens sender ssk rsk rumor d Hs) as (wrap & seal & Hw & Ho & Hpk).
  exists wrap. split; [done |].
  apply (unwrapAs_opens recipient rsk wrap seal); [done .. | congruence].
Qed.

End RoundTrip.

Section ScenarioFacts.
Import Mock Scenario.

(** C1: Mallory seals a rumor that names Alice as author and wraps it for Bob.
    The decrypted seal is Mallory's, the rumor claims Alice; with Bob's raw
    private key [unwrapGiftWrap] returns the rumor, with Bob's delegated signer
    it returns [null]. *)
Theorem unwrapGiftWrap_raw_key_returns_forged_rumor :
  (wrap ← forgedWrap; seal ← decryptedSeal bobKey wrap; Ok (Event.pubkey seal))
    = Ok malloryPub ∧
  Rumor.pubkey hi = alicePub ∧
  malloryPub ≠ alicePub ∧
  (wrap ← forgedWrap; unwrapGiftWrap (Throw SignerFailure) wrap (Some bobKey))
    = Ok (Some hi) ∧
  (wrap ← forgedWrap; unwrapGiftWrap (Ok bobSigner) wrap None) = Ok None.
Proof. repeat split; try (vm_compute; reflexivity). discriminate. Qed.

(** C2, as stated, fails: a rumor whose author is not the sealing identity
    does not come back through the delegated signer. *)
Lemma round_trip_fails_for_foreign_author :
  sendsAs (RawKey malloryKey) (malloryKey : SecretKey) ∧
  receivesAs (Delegated bobSigner) (bobKey : SecretKey) ∧
  Rumor.pubkey hi ≠ getPublicKey malloryKey ∧
  ∃ wrap, wrapFor (RawKey malloryKey) hi (getPublicKey bobKey) (draws "e1") = Ok wrap ∧
          unwrapAs (Delegated bobSigner) wrap = Ok None ∧
          unwrapAs (Delegated bobSigner) wrap ≠ Ok (Some hi).
Proof.
  split; [by split | split; [by exists true, "n-b" | split; [discriminate |]]].
  destruct (wrapFor (RawKey malloryKey) hi (getPublicKey bobKey) (draws "e1"))
    as [wrap | e] eqn:Hw; vm_compute in Hw; [| discriminate].
  exists wrap. split; [reflexivity |]. injection Hw as <-.
  split; [vm_compute; reflexivity | vm_compute; discriminate].
Qed.

(** The round trip at work: Alice's signer wraps [hi], Bob's raw key unwraps it. *)
Lemma gift_wrap_round_trip_witness :
  ∃ wrap, wrapFor (Delegated aliceSigner) hi (getPublicKey bobKey) (draws "e2") = Ok wrap ∧
          unwrapAs (RawKey bobKey) wrap = Ok (Some hi).
Proof.
  apply (@gift_wrap_round_trip primitives MockLaws.laws _ _ aliceKey bobKey).
  - exists true, "n-a". reflexivity.
  - split; reflexivity.
  - reflexivity.
Defined.

(** Bob's wrap opened with Mallory's key: the outer layer does not decrypt. *)
Lemma unwrapGiftWrap_failure_returns_null_witness :
  unwrapGiftWrap (Throw SignerFailure) bobWrap (Some malloryKey) = Ok None.
Proof.
  apply (@unwrapGiftWrap_failure_returns_null primitives).
  right. exists (@localDecrypt primitives malloryKey). split; [reflexivity |].
  eapply WrapDoesNotDecrypt. vm_compute. reflexivity.
Defined.

End ScenarioFacts.

(** ** Inbox relay resolver *)

Section Resolver.

Lemma cache_set_nonempty pubkey rs c :
  rs ≠ [] → caches_nonempty c → caches_nonempty (cache_set pubkey rs c).
Proof.
  intros Hrs [Hmem Hstore]. split; simpl; [| done].
  intros pk rs'. rewrite lookup_insert. case_decide; [congruence | eauto].
Qed.

Lemma writeRelayStore_nonempty pubkey data c :
  CachedRelays.relays data ≠ [] → caches_nonempty c →
  caches_nonempty (writeRelayStore pubkey data c).
Proof.
  intros Hrs [Hmem Hstore]. split; simpl; [done |].
  intros pk stored. rewrite lookup_insert. case_decide; [congruence | eauto].
Qed.

Lemma populate_nonempty pubkey rs created_at (persist : bool) c :
  rs ≠ [] → caches_nonempty c →
  caches_nonempty
    (if persist
     then writeRelayStore pubkey (CachedRelays.mk rs created_at) (cache_set pubkey rs c)
     else cache_set pubkey rs c).
Proof.
  intros Hrs Hc. destruct persist.
  - by apply writeRelayStore_nonempty, cache_set_nonempty.
  - by apply cache_set_nonempty.
Qed.

Lemma fetchRelaysFromNetwork_nonempty net pubkey knownAt persist c :
  caches_nonempty c →
  (fetchRelaysFromNetwork net pubkey knownAt persist c).1 ≠ [] ∧
  caches_nonempty (fetchRelaysFromNetwork net pubkey knownAt persist c).2.
Proof.
  intros Hc. unfold fetchRelaysFromNetwork.
  assert (Hfallback : fallbackRelays ≠ []) by done.
  destruct (net pubkey) as [| | event]; simpl.
  1,2: destruct (inboxRelayCache c !! pubkey) as [cached |] eqn:Hhit; simpl;
       [split; [by eapply (proj1 Hc) | done] | split; [done | by apply populate_nonempty]].
  destruct (bool_decide (0 < length (relayTags event))) eqn:Hlen; simpl.
  - apply bool_decide_eq_true in Hlen.
    assert (relayTags event ≠ []) by (intros Heq; rewrite Heq in Hlen; simpl in Hlen; lia).
    destruct (bool_decide (knownAt < Event.created_at event)%Z); simpl.
    + split; [done | by apply populate_nonempty].
    + destruct (inboxRelayCache c !! pubkey) as [cached |] eqn:Hhit; simpl;
        [split; [by eapply (proj1 Hc) | done] | split; [done | by apply populate_nonempty]].
  - destruct (inboxRelayCache c !! pubkey) as [cached |] eqn:Hhit; simpl;
      [split; [by eapply (proj1 Hc) | done] | split; [done | by apply populate_nonempty]].
Qed.

Lemma fetchInboxRelays_nonempty net pubkey persist c :
  caches_nonempty c →
  (fetchInboxRelays net pubkey persist c).1 ≠ [] ∧
  caches_nonempty (fetchInboxRelays net pubkey persist c).2.
Proof.
  intros Hc. unfold fetchInboxRelays.
  destruct (inboxRelayCache c !! pubkey) as [cached |] eqn:Hhit; simpl.
  { split; [by eapply (proj1 Hc) | done]. }
  destruct persist; [| by apply fetchRelaysFromNetwork_nonempty].
  unfold readRelayStore.
  destruct (relayStore c !! pubkey) as [stored |] eqn:Hstored; simpl;
    [| by apply fetchRelaysFromNetwork_nonempty].
  assert (CachedRelays.relays stored ≠ []) by (by eapply (proj2 Hc)).
  split; [done |].
  by apply fetchRelaysFromNetwork_nonempty, cache_set_nonempty.
Qed.

Lemma session_caches_nonempty c : session c → caches_nonempty c.
Proof.
  induction 1 as [store Hstore | net pubkey persist c _ IH | net pubkey knownAt persist c _ IH].
  - split; simpl; [| done]. intros pk rs. by rewrite lookup_empty.
  - by apply fetchInboxRelays_nonempty.
  - by apply fetchRelaysFromNetwork_nonempty.
Qed.

(** C10: in every cache state a session can reach from a store written by
    this module, [fetchInboxRelays] returns at least one relay, for every
    pubkey, persistence flag and network answer. *)
Theorem fetchInboxRelays_never_empty net pubkey persist c :
  session c → (fetchInboxRelays net pubkey persist c).1 ≠ [].
Proof. intros Hs. by apply fetchInboxRelays_nonempty, session_caches_nonempty. Qed.

(** A cold lookup with the network down falls back to the default relay. *)
Lemma fetchInboxRelays_never_empty_witness :
  (fetchInboxRelays (λ _, FetchThrows) "02b0" false
     {| inboxRelayCache := ∅; relayStore := ∅ |}).1 ≠ [].
Proof.
  apply fetchInboxRelays_never_empty, session_start.
  intros pubkey stored. by rewrite lookup_empty.
Defined.

End Resolver.

(** ** Sending without the encryption capability *)

Section Capability.
Context `{P : Primitives}.

Lemma prepare_published getSigner net recipientPubkey w :
  published (prepare getSigner net recipientPubkey w).2 = published w.
Proof.
  unfold prepare. destruct getSigner as [signer |]; [| done].
  destruct (signer_getPublicKey signer); [| done].
  destruct (fetchInboxRelays net recipientPubkey false (caches w)) as [ri c].
  by destruct (fetchInboxRelays net a true c).
Qed.

Lemma prepare_ok signer senderPubkey net recipientPubkey w :
  signer_getPublicKey signer = Ok senderPubkey →
  ∃ recipientInbox senderInbox w',
    prepare (Ok signer) net recipientPubkey w =
      (Ok (signer, senderPubkey, recipientInbox, senderInbox), w').
Proof.
  intros Hpk. unfold prepare. rewrite Hpk.
  destruct (fetchInboxRelays net recipientPubkey false (caches w)) as [ri c].
  destruct (fetchInboxRelays net senderPubkey true c) as [si c']. eauto.
Qed.

Lemma wrapAndSendDM_capability_error signer senderPubkey net defaultRelays now dr ds
    recipientPubkey content privateKey replyToId w :
  given privateKey = None →
  nip44Encrypt signer = None →
  signer_getPublicKey signer = Ok senderPubkey →
  wrapAndSendDM (Ok signer) net defaultRelays now dr ds recipientPubkey content
    privateKey replyToId w =
  (Throw (CapabilityError dmCapabilityMessage), (prepare (Ok signer) net recipientPubkey w).2).
Proof.
  intros Hkey Hcap Hpk. unfold wrapAndSendDM.
  destruct (prepare_ok signer senderPubkey net recipientPubkey w Hpk)
    as (ri & si & w' & ->).
  by rewrite Hkey, Hcap.
Qed.

Lemma wrapAndSendReaction_capability_error signer senderPubkey net defaultRelays now dr ds
    recipientPubkey emoji targetMessageId privateKey w :
  given privateKey = None →
  nip44Encrypt signer = None →
  signer_getPublicKey signer = Ok senderPubkey →
  wrapAndSendReaction (Ok signer) net defaultRelays now dr ds recipientPubkey emoji
    targetMessageId privateKey w =
  (Throw (CapabilityError reactionCapabilityMessage),
   (prepare (Ok signer) net recipientPubkey w).2).
Proof.
  intros Hkey Hcap Hpk. unfold wrapAndSendReaction.
  destruct (prepare_ok signer senderPubkey net recipientPubkey w Hpk)
    as (ri & si & w' & ->).
  by rewrite Hkey, Hcap.
Qed.

(** C9: on the delegated path with a signer that lacks [nip44Encrypt], both
    senders end in the capability error whatever randomness is on offer (no
    wrap is built), hand nothing to the pool, and the provider's [sendMessage]
    and [sendReaction] leave conversation state as it was. *)
Theorem send_without_nip44Encrypt_fails user signer senderPubkey net defaultRelays now
    dr ds recipientPubkey content replyToId emoji messageId w st :
  given (user_privateKey user) = None →
  nip44Encrypt signer = None →
  signer_getPublicKey signer = Ok senderPubkey →
  ∃ w1 w2,
    wrapAndSendDM (Ok signer) net defaultRelays now dr ds recipientPubkey content
      (user_privateKey user) replyToId w
      = (Throw (CapabilityError dmCapabilityMessage), w1) ∧
    wrapAndSendReaction (Ok signer) net defaultRelays now dr ds recipientPubkey emoji
      messageId (user_privateKey user) w
      = (Throw (CapabilityError reactionCapabilityMessage), w2) ∧
    published w1 = published w ∧ published w2 = published w ∧
    sendMessage (Some user) (Ok signer) net defaultRelays now dr ds recipientPubkey
      content replyToId w st
      = (Throw (CapabilityError dmCapabilityMessage), w1, st) ∧
    sendReaction (Some user) (Ok signer) net defaultRelays now dr ds recipientPubkey
      emoji messageId w st
      = (Throw (CapabilityError reactionCapabilityMessage), w2, st).
Proof.
  intros Hkey Hcap Hpk.
  exists (prepare (Ok signer) net recipientPubkey w).2,
         (prepare (Ok signer) net recipientPubkey w).2.
  unfold sendMessage, sendReaction.
  rewrite (wrapAndSendDM_capability_error _ senderPubkey) by done.
  rewrite (wrapAndSendReaction_capability_error _ senderPubkey) by done.
  by rewrite prepare_published.
Qed.

End Capability.

(** ** Relay deduplication and tracking *)

Section Tracking.

Lemma elem_of_foldl_set_add x acc xs :
  x ∈ foldl Js.set_add acc xs ↔ x ∈ acc ∨ x ∈ xs.
Proof.
  revert acc. induction xs as [| y xs IH]; intros acc; simpl.
  - rewrite elem_of_nil. tauto.
  - rewrite IH, elem_of_cons. unfold Js.set_add. case_decide.
    + split; [intros [? | ?]; auto | intros [? | [-> | ?]]; auto].
    + rewrite elem_of_app, list_elem_of_singleton. tauto.
Qed.

Lemma NoDup_foldl_set_add acc xs : NoDup acc → NoDup (foldl Js.set_add acc xs).
Proof.
  revert acc. induction xs as [| y xs IH]; intros acc Hnd; simpl; [done |].
  apply IH. unfold Js.set_add. case_decide; [done |].
  apply NoDup_app. split; [done |]. split; [| apply NoDup_singleton].
  intros z Hz ->%list_elem_of_singleton. done.
Qed.

Lemma elem_of_array_from_set x xs : x ∈ Js.array_from_set xs ↔ x ∈ xs.
Proof. unfold Js.array_from_set. rewrite elem_of_foldl_set_add, elem_of_nil. tauto. Qed.

Lemma NoDup_array_from_set xs : NoDup (Js.array_from_set xs).
Proof. apply NoDup_foldl_set_add, NoDup_nil_2. Qed.

Lemma occurrences_app x l1 l2 : occurrences x (l1 ++ l2) = occurrences x l1 + occurrences x l2.
Proof. unfold occurrences. by rewrite filter_app, length_app. Qed.

Lemma occurrences_cons x y l :
  occurrences x (y :: l) = (if decide (y = x) then 1 else 0) + occurrences x l.
Proof.
  unfold occurrences. case_decide.
  - by rewrite filter_cons_True.
  - by rewrite filter_cons_False.
Qed.

Lemma occurrences_not_in x l : x ∉ l → occurrences x l = 0.
Proof.
  induction l as [| y l IH]; [done |].
  rewrite not_elem_of_cons, occurrences_cons. intros [Hne Hnin].
  rewrite decide_False by congruence. auto.
Qed.

Lemma occurrences_NoDup x l :
  NoDup l → occurrences x l = if decide (x ∈ l) then 1 else 0.
Proof.
  induction 1 as [| y l Hy Hnd IH]; [done |].
  rewrite occurrences_cons. destruct (decide (y = x)) as [-> | Hne].
  - rewrite decide_True by apply list_elem_of_here.
    by rewrite (occurrences_not_in x l Hy).
  - rewrite IH. simpl. destruct (decide (x ∈ l)) as [Hin | Hnin].
    + rewrite decide_True; [done | by apply list_elem_of_further].
    + rewrite decide_False; [done |]. rewrite elem_of_cons. intros [? | ?]; congruence.
Qed.

Lemma relays_foldl_relayMap_add event relayMap rs :
  RelayPublish.relay <$> foldl (relayMap_add event) relayMap rs
  = foldl Js.set_add (RelayPublish.relay <$> relayMap) rs.
Proof.
  revert relayMap. induction rs as [| r rs IH]; intros relayMap; simpl; [done |].
  rewrite IH. f_equal. unfold relayMap_add, Js.set_add.
  case_decide; [done |]. by rewrite fmap_app.
Qed.

Lemma publishWraps_foldl ops relayMap wraps :
  foldl (λ acc (w : Wrap),
           (acc.1 ++ pool_publish w.2 w.1, foldl (relayMap_add w.1) acc.2 w.2))
        (ops, relayMap) wraps
  = (ops ++ (wraps ≫= λ w, pool_publish w.2 w.1),
     foldl (λ m (w : Wrap), foldl (relayMap_add w.1) m w.2) relayMap wraps).
Proof.
  revert ops relayMap. induction wraps as [| w wraps IH]; intros ops relayMap; simpl.
  - by rewrite app_nil_r.
  - rewrite IH. simpl. by rewrite <- app_assoc.
Qed.

Lemma publishWraps_ops wraps :
  (publishWraps wraps).1 = wraps ≫= λ w, pool_publish w.2 w.1.
Proof. unfold publishWraps. by rewrite publishWraps_foldl. Qed.

Lemma publishWraps_relays wraps :
  RelayPublish.relay <$> (publishWraps wraps).2 = Js.array_from_set (wraps ≫= snd).
Proof.
  unfold publishWraps, Js.array_from_set. rewrite publishWraps_foldl. simpl.
  change (@nil string) with (RelayPublish.relay <$> @nil RelayPublish.t).
  generalize (@nil RelayPublish.t) as relayMap.
  induction wraps as [| w wraps IH]; intros relayMap; simpl; [done |].
  by rewrite IH, relays_foldl_relayMap_add, foldl_app.
Qed.

Lemma fst_pool_publish rs event : (pool_publish rs event).*1 = rs.
Proof. unfold pool_publish. rewrite <- list_fmap_compose. apply list_fmap_id. Qed.

Lemma opsTo_pool_publish relay rs event :
  NoDup rs → opsTo relay (pool_publish rs event) = if decide (relay ∈ rs) then 1 else 0.
Proof. intros Hnd. unfold opsTo. rewrite fst_pool_publish. by apply occurrences_NoDup. Qed.

(** The initial record of [trackRelays]: exactly the tracked relays, all
    [pending]. *)
Lemma initialRelays_lookup (publishes : list RelayPublish.t)
    (acc : gmap string RelayStatus.t) relay :
  foldl (λ acc p, <[RelayPublish.relay p := RelayStatus.pending]> acc) acc publishes !! relay
  = if decide (relay ∈ RelayPublish.relay <$> publishes) then Some RelayStatus.pending
    else acc !! relay.
Proof.
  revert acc. induction publishes as [| p ps IH]; intros acc.
  - cbn [foldl]. rewrite decide_False; [done | apply not_elem_of_nil].
  - cbn [foldl]. rewrite IH, fmap_cons, lookup_insert.
    destruct (decide (relay ∈ RelayPublish.relay <$> ps)) as [Hin | Hnin].
    + rewrite decide_True; [done | by apply list_elem_of_further].
    + destruct (decide (RelayPublish.relay p = relay)) as [<- | Hne].
      * rewrite decide_True; [done | apply list_elem_of_here].
      * rewrite decide_False; [done |]. rewrite elem_of_cons. intros [? | ?]; congruence.
Qed.

End Tracking.

Section SendTracking.
Context `{P : Primitives}.

(** What a successful [wrapAndSendDM] did: two wraps over the two
    deduplicated relay sets, all of them published, the relay map returned. *)
Lemma wrapAndSendDM_ok getSigner net defaultRelays now dr ds recipientPubkey content
    privateKey replyToId w res w' :
  wrapAndSendDM getSigner net defaultRelays now dr ds recipientPubkey content
    privateKey replyToId w = (Ok res, w') →
  ∃ wrapR wrapS recipientInbox senderInbox,
    SendResult.retryWraps res =
      [(wrapR, Js.array_from_set (recipientInbox ++ defaultRelays));
       (wrapS, Js.array_from_set (senderInbox ++ defaultRelays))] ∧
    SendResult.publishes res = (publishWraps (SendResult.retryWraps res)).2 ∧
    published w' = published w ++ (publishWraps (SendResult.retryWraps res)).1.
Proof.
  unfold wrapAndSendDM. intros H.
  pose proof (prepare_published getSigner net recipientPubkey w) as Hpub.
  destruct (prepare getSigner net recipientPubkey w) as [[[[[signer spk] ri] si] | e] w0];
    [| done]. simpl in Hpub.
  match type of H with
  | (match ?body with _ => _ end) = _ => destruct body as [wraps | e] eqn:Hwraps; [| done]
  end.
  assert (∃ wrapR wrapS,
            wraps = [(wrapR, Js.array_from_set (ri ++ defaultRelays));
                     (wrapS, Js.array_from_set (si ++ defaultRelays))])
    as (wrapR & wrapS & ->).
  { destruct (given privateKey) as [k |].
    - destruct (hexToBytes k) as [sk |]; simpl in Hwraps; [| done].
      destruct (createGiftWrapLocal sk _ recipientPubkey dr); simpl in Hwraps; [| done].
      destruct (createGiftWrapLocal sk _ spk ds); simpl in Hwraps; [| done].
      injection Hwraps as <-. eauto.
    - destruct (nip44Encrypt signer); [| done].
      destruct (createGiftWrapForSigner signer _ recipientPubkey dr); simpl in Hwraps; [| done].
      destruct (createGiftWrapForSigner signer _ spk ds); simpl in Hwraps; [| done].
      injection Hwraps as <-. eauto. }
  destruct (publishWraps _) as [ops relayMap] eqn:Hpw.
  injection H as <- <-. cbn [SendResult.retryWraps SendResult.publishes published].
  rewrite Hpw, Hpub. eauto 10.
Qed.

(** C8 (amended): a successful send returns one tracked entry for every relay
    of the two destination sets, also for a relay that is in both; each wrap
    is handed to the pool once for every relay of its own set, so a relay in
    both sets receives two publish operations, one per wrap; and
    [trackRelays] records exactly the tracked relays, each as [pending]. *)
Theorem wrapAndSendDM_tracks_each_relay_once getSigner net defaultRelays now dr ds
    recipientPubkey content privateKey replyToId w res w' st :
  wrapAndSendDM getSigner net defaultRelays now dr ds recipientPubkey content
    privateKey replyToId w = (Ok res, w') →
  ∃ wrapR wrapS recipientRelays senderRelays status,
    SendResult.retryWraps res = [(wrapR, recipientRelays); (wrapS, senderRelays)] ∧
    (∀ relay, trackedFor relay (SendResult.publishes res)
              = if decide (relay ∈ recipientRelays ∨ relay ∈ senderRelays) then 1 else 0) ∧
    published w' = published w ++ pool_publish recipientRelays wrapR
                               ++ pool_publish senderRelays wrapS ∧
    (∀ relay, opsTo relay (pool_publish recipientRelays wrapR ++ pool_publish senderRelays wrapS)
              = (if decide (relay ∈ recipientRelays) then 1 else 0)
                + (if decide (relay ∈ senderRelays) then 1 else 0)) ∧
    sendStatuses (trackRelays (trackingOf res) st) !! Rumor.id (SendResult.rumor res)
      = Some status ∧
    MsgSendStatus.retryWraps status = SendResult.retryWraps res ∧
    (∀ relay, MsgSendStatus.relays status !! relay
              = if decide (relay ∈ recipientRelays ∨ relay ∈ senderRelays)
                then Some RelayStatus.pending else None).
Proof.
  intros H. apply wrapAndSendDM_ok in H as (wrapR & wrapS & ri & si & Hwraps & Hpubs & Hops).
  set (recipientRelays := Js.array_from_set (ri ++ defaultRelays)) in *.
  set (senderRelays := Js.array_from_set (si ++ defaultRelays)) in *.
  assert (Hrelays : ∀ relay,
            relay ∈ RelayPublish.relay <$> SendResult.publishes res
            ↔ relay ∈ recipientRelays ∨ relay ∈ senderRelays).
  { intros relay. rewrite Hpubs, publishWraps_relays, Hwraps, elem_of_array_from_set.
    simpl. rewrite app_nil_r. apply elem_of_app. }
  eexists wrapR, wrapS, recipientRelays, senderRelays, _.
  split; [done |]. split; [| split; [| split; [| split; [| split]]]].
  - intros relay. unfold trackedFor. rewrite occurrences_NoDup.
    + apply decide_ext, Hrelays.
    + rewrite Hpubs, publishWraps_relays. apply NoDup_array_from_set.
  - rewrite Hops, publishWraps_ops, Hwraps. simpl. by rewrite app_nil_r, app_assoc.
  - intros relay. unfold opsTo. rewrite fmap_app, occurrences_app.
    fold (opsTo relay (pool_publish recipientRelays wrapR)).
    fold (opsTo relay (pool_publish senderRelays wrapS)).
    by rewrite !opsTo_pool_publish by apply NoDup_array_from_set.
  - unfold trackRelays. simpl. apply lookup_insert_eq.
  - done.
  - intros relay. simpl. rewrite initialRelays_lookup, lookup_empty.
    apply decide_ext, Hrelays.
Qed.

End SendTracking.

Section ScenarioSend.
Import Mock Scenario.

(** C8, as stated, fails: the relay both destination sets share is tracked
    once but receives two publish operations, one per wrap. *)
Lemma shared_relay_is_published_twice :
  ∃ res w', sendHi = (Ok res, w') ∧
            damus ∈ (SendResult.retryWraps res ≫= snd) ∧
            trackedFor damus (SendResult.publishes res) = 1 ∧
            opsTo damus (published w') = 2 ∧
            opsTo damus (published w') ≠ 1.
Proof.
  destruct sendHi as [[res | e] w'] eqn:Hsend; vm_compute in Hsend; [| discriminate].
  exists res, w'. split; [done |]. injection Hsend as <- <-.
  split; [| split; [vm_compute; reflexivity | split; [vm_compute; reflexivity | vm_compute; lia]]].
  simpl. set_solver.
Qed.

(** The amended statement on Alice's send from the cold start. *)
Lemma wrapAndSendDM_tracks_each_relay_once_witness :
  ∃ res w',
    sendHi = (Ok res, w') ∧
    ∃ wrapR wrapS recipientRelays senderRelays status,
      SendResult.retryWraps res = [(wrapR, recipientRelays); (wrapS, senderRelays)] ∧
      (∀ relay, trackedFor relay (SendResult.publishes res)
                = if decide (relay ∈ recipientRelays ∨ relay ∈ senderRelays) then 1 else 0) ∧
      published w' = published coldWorld ++ pool_publish recipientRelays wrapR
                                 ++ pool_publish senderRelays wrapS ∧
      (∀ relay, opsTo relay (pool_publish recipientRelays wrapR
                             ++ pool_publish senderRelays wrapS)
                = (if decide (relay ∈ recipientRelays) then 1 else 0)
                  + (if decide (relay ∈ senderRelays) then 1 else 0)) ∧
      sendStatuses (trackRelays (trackingOf res) {| sendStatuses := ∅; races := [] |})
        !! Rumor.id (SendResult.rumor res) = Some status ∧
      MsgSendStatus.retryWraps status = SendResult.retryWraps res ∧
      (∀ relay, MsgSendStatus.relays status !! relay
                = if decide (relay ∈ recipientRelays ∨ relay ∈ senderRelays)
                  then Some RelayStatus.pending else None).
Proof.
  destruct sendHi as [[res | e] w'] eqn:Hsend;
    [| exfalso; vm_compute in Hsend; discriminate].
  exists res, w'. split; [reflexivity |].
  exact (wrapAndSendDM_tracks_each_relay_once _ _ _ _ _ _ _ _ _ _ _ _ _ _ Hsend).
Defined.

(** Alice on a signer without [nip44Encrypt]: both sends fail, nothing changes. *)
Lemma send_without_nip44Encrypt_fails_witness :
  ∃ w1 w2,
    wrapAndSendDM (Ok encryptlessSigner) noRelayLists someDefaultRelays 1700000000
      (draws "e1") (draws "e2") bobPub "hi" (user_privateKey aliceDelegated) None coldWorld
      = (Throw (CapabilityError dmCapabilityMessage), w1) ∧
    wrapAndSendReaction (Ok encryptlessSigner) noRelayLists someDefaultRelays 1700000000
      (draws "e1") (draws "e2") bobPub "+" (Rumor.id hi) (user_privateKey aliceDelegated)
      coldWorld
      = (Throw (CapabilityError reactionCapabilityMessage), w2) ∧
    published w1 = published coldWorld ∧ published w2 = published coldWorld ∧
    sendMessage (Some aliceDelegated) (Ok encryptlessSigner) noRelayLists someDefaultRelays
      1700000000 (draws "e1") (draws "e2") bobPub "hi" None coldWorld freshDM
      = (Throw (CapabilityError dmCapabilityMessage), w1, freshDM) ∧
    sendReaction (Some aliceDelegated) (Ok encryptlessSigner) noRelayLists someDefaultRelays
      1700000000 (draws "e1") (draws "e2") bobPub "+" (Rumor.id hi) coldWorld freshDM
      = (Throw (CapabilityError reactionCapabilityMessage), w2, freshDM).
Proof.
  apply (@send_without_nip44Encrypt_fails primitives aliceDelegated encryptlessSigner alicePub);
    reflexivity.
Defined.

End ScenarioSend.

(** ** Conversation reconciliation engine *)

Section Engine.

Lemma insert_sorted_Permutation {A} (le : A → A → bool) x l :
  Js.insert_sorted le x l ≡ₚ x :: l.
Proof.
  induction l as [| y l IH]; simpl; [done |].
  destruct (le x y); [done |]. rewrite IH. apply Permutation_swap.
Qed.

Lemma sort_Permutation {A} (le : A → A → bool) l : Js.sort le l ≡ₚ l.
Proof.
  induction l as [| x l IH]; simpl; [done |].
  by rewrite insert_sorted_Permutation, IH.
Qed.

(** *** Reaction lists *)

Lemma reactionEntries_app pubkey emoji l1 l2 :
  reactionEntries pubkey emoji (l1 ++ l2)
  = reactionEntries pubkey emoji l1 + reactionEntries pubkey emoji l2.
Proof. unfold reactionEntries. by rewrite filter_app, length_app. Qed.

Lemma reactionEntries_absent reaction l :
  existsb (sameReaction reaction) l = false →
  reactionEntries (DMReaction.pubkey reaction) (DMReaction.emoji reaction) l = 0.
Proof.
  unfold reactionEntries. induction l as [| r l IH]; simpl; [done |].
  intros [Hr Hl]%orb_false_elim. rewrite filter_cons_False; [auto |].
  intros [Hp He]. unfold sameReaction in Hr.
  by rewrite !bool_decide_eq_true_2 in Hr.
Qed.

Lemma reactionEntries_present reaction l :
  existsb (sameReaction reaction) l = true →
  0 < reactionEntries (DMReaction.pubkey reaction) (DMReaction.emoji reaction) l.
Proof.
  unfold reactionEntries. induction l as [| r l IH]; simpl; [done |].
  intros [Hr | Hl]%orb_true_elim.
  - unfold sameReaction in Hr. apply andb_true_iff in Hr as [Hp He].
    apply bool_decide_eq_true in Hp, He.
    rewrite filter_cons_True by done. simpl. lia.
  - specialize (IH Hl). destruct (decide (DMReaction.pubkey r = DMReaction.pubkey reaction
                                          ∧ DMReaction.emoji r = DMReaction.emoji reaction)).
    + rewrite filter_cons_True by done. simpl. lia.
    + by rewrite filter_cons_False.
Qed.

Lemma reactionEntries_singleton pubkey emoji r :
  reactionEntries pubkey emoji [r]
  = if decide (DMReaction.pubkey r = pubkey ∧ DMReaction.emoji r = emoji) then 1 else 0.
Proof.
  unfold reactionEntries. case_decide.
  - by rewrite filter_cons_True.
  - by rewrite filter_cons_False.
Qed.

Lemma deduped_nil : deduped [].
Proof. intros pubkey emoji. unfold reactionEntries. simpl. lia. Qed.

Lemma deduped_snoc reaction l :
  deduped l → existsb (sameReaction reaction) l = false → deduped (l ++ [reaction]).
Proof.
  intros Hd Hex pubkey emoji.
  rewrite reactionEntries_app, reactionEntries_singleton. case_decide as Heq.
  - destruct Heq as [<- <-]. rewrite (reactionEntries_absent _ _ Hex). lia.
  - specialize (Hd pubkey emoji). lia.
Qed.

(** Once a reaction is in a deduplicated list, its pair has one entry. *)
Lemma deduped_present reaction l :
  deduped l → existsb (sameReaction reaction) l = true →
  reactionEntries (DMReaction.pubkey reaction) (DMReaction.emoji reaction) l = 1.
Proof.
  intros Hd Hex. pose proof (reactionEntries_present _ _ Hex).
  specialize (Hd (DMReaction.pubkey reaction) (DMReaction.emoji reaction)). lia.
Qed.

Lemma deduped_added reaction l :
  deduped l → existsb (sameReaction reaction) l = false →
  reactionEntries (DMReaction.pubkey reaction) (DMReaction.emoji reaction) (l ++ [reaction]) = 1.
Proof.
  intros Hd Hex. rewrite reactionEntries_app, reactionEntries_singleton.
  rewrite (reactionEntries_absent _ _ Hex). by rewrite decide_True.
Qed.

Lemma existsb_sameReaction_snoc reaction l :
  existsb (sameReaction reaction) (l ++ [reaction]) = true.
Proof.
  rewrite existsb_app. simpl. unfold sameReaction.
  rewrite !bool_decide_eq_true_2 by done. simpl. apply orb_true_r.
Qed.

End Engine.

Section EngineSteps.

Lemma persistedReactions_deduped st cid target :
  wellFormed st → deduped (persistedReactions cid target st).
Proof.
  intros Hwf. unfold persistedReactions.
  destruct (dm_reactions st !! cid) as [m |] eqn:Hm; simpl.
  - destruct (m !! target) as [l |] eqn:Hl; simpl; [| apply deduped_nil].
    by eapply (wf_cached _ Hwf).
  - rewrite lookup_empty. apply deduped_nil.
Qed.

Lemma liveReactions_deduped st cid target l :
  wellFormed st → liveReactions cid target st = Some l → deduped l.
Proof.
  intros Hwf. unfold liveReactions.
  destruct (conversations st !! cid) as [conv |] eqn:Hc; simpl; [| done].
  intros [= <-]. destruct (Conversation.reactions conv !! target) as [l |] eqn:Hl; simpl.
  - by eapply (wf_live _ Hwf).
  - apply deduped_nil.
Qed.

(** [addReactionToConversation] with a target: the persisted list and the
    live list each take the reaction unless its pair is already there. *)
Lemma addReactionToConversation_target rumor myPubkey st :
  Js.truthy (targetMessageIdOf rumor) = true →
  addReactionToConversation rumor myPubkey st =
    let cid := conversationIdOf rumor in
    let target := targetMessageIdOf rumor in
    let reaction := reactionOf rumor in
    {| conversations :=
         match conversations st !! cid with
         | None => conversations st
         | Some existing =>
             let l := default [] (Conversation.reactions existing !! target) in
             if existsb (sameReaction reaction) l then conversations st
             else <[cid := withReactions existing
                             (<[target := l ++ [reaction]]> (Conversation.reactions existing))]>
                    (conversations st)
         end;
       seenRumorIds := seenRumorIds st;
       dm_cache := dm_cache st;
       dm_lastseen := dm_lastseen st;
       dm_reactions :=
         if readsInherited cid target st then dm_reactions st
         else if existsb (sameReaction reaction) (persistedReactions cid target st)
         then dm_reactions st
         else <[cid := <[target := persistedReactions cid target st ++ [reaction]]>
                         (default ∅ (dm_reactions st !! cid))]> (dm_reactions st) |}.
Proof.
  intros Ht. unfold addReactionToConversation, persistedReactions, readsInherited, Js.get.
  rewrite Ht. cbn zeta. cbn [negb].
  destruct (default ∅ (dm_reactions st !! conversationIdOf rumor) !! targetMessageIdOf rumor)
    as [l |] eqn:Hl; cbn [default].
  - rewrite bool_decide_eq_false_2 by (intros [? _]; done).
    destruct (existsb _ _); [by destruct st | done].
  - destruct (decide (targetMessageIdOf rumor ∈ Js.objectPrototypeMembers)) as [Hin | Hin].
    + rewrite bool_decide_eq_true_2 by done. by destruct st.
    + rewrite bool_decide_eq_false_2 by (intros [_ ?]; done).
      destruct (existsb _ _); [by destruct st | done].
Qed.

Lemma addReactionToConversation_no_target rumor myPubkey st :
  Js.truthy (targetMessageIdOf rumor) = false →
  addReactionToConversation rumor myPubkey st = st.
Proof. intros Ht. unfold addReactionToConversation. by rewrite Ht. Qed.

Lemma addReactionToConversation_seen rumor myPubkey st :
  seenRumorIds (addReactionToConversation rumor myPubkey st) = seenRumorIds st.
Proof.
  destruct (Js.truthy (targetMessageIdOf rumor)) eqn:Ht.
  - by rewrite addReactionToConversation_target.
  - by rewrite addReactionToConversation_no_target.
Qed.

Lemma addReactionToConversation_wellFormed rumor myPubkey st :
  wellFormed st → wellFormed (addReactionToConversation rumor myPubkey st).
Proof.
  intros Hwf. destruct (Js.truthy (targetMessageIdOf rumor)) eqn:Ht;
    [| by rewrite addReactionToConversation_no_target].
  rewrite addReactionToConversation_target by done.
  set (cid := conversationIdOf rumor). set (target := targetMessageIdOf rumor).
  set (reaction := reactionOf rumor).
  split; simpl.
  - intros cid' conv m Hc Hm.
    destruct (conversations st !! cid) as [existing |] eqn:Hex; [| by eapply (wf_seen _ Hwf)].
    destruct (existsb _ _); [by eapply (wf_seen _ Hwf) |].
    rewrite lookup_insert in Hc. case_decide as Hcid.
    + injection Hc as <-. subst cid'. by eapply (wf_seen _ Hwf).
    + by eapply (wf_seen _ Hwf).
  - intros cid' conv target' l Hc Hl.
    destruct (conversations st !! cid) as [existing |] eqn:Hex; [| by eapply (wf_live _ Hwf)].
    destruct (existsb _ _) eqn:Hdup; [by eapply (wf_live _ Hwf) |].
    rewrite lookup_insert in Hc. case_decide as Hcid; [| by eapply (wf_live _ Hwf)].
    injection Hc as <-. simpl in Hl. rewrite lookup_insert in Hl.
    case_decide as Htarget; [| by eapply (wf_live _ Hwf)].
    injection Hl as <-. apply deduped_snoc; [| done].
    apply (liveReactions_deduped st cid target); [done |].
    unfold liveReactions. by rewrite Hex.
  - intros cid' m target' l Hm Hl.
    destruct (readsInherited _ _ _); [by eapply (wf_cached _ Hwf) |].
    destruct (existsb _ _) eqn:Hdup; [by eapply (wf_cached _ Hwf) |].
    rewrite lookup_insert in Hm. case_decide as Hcid; [| by eapply (wf_cached _ Hwf)].
    injection Hm as <-. rewrite lookup_insert in Hl. case_decide as Htarget.
    + injection Hl as <-. apply deduped_snoc; [| done]. by apply persistedReactions_deduped.
    + destruct (dm_reactions st !! cid) as [m |] eqn:Hm; simpl in Hl.
      * by eapply (wf_cached _ Hwf).
      * by rewrite lookup_empty in Hl.
  - intros cid' conv Hc.
    destruct (conversations st !! cid) as [existing |] eqn:Hex; [| by eapply (wf_unread _ Hwf)].
    destruct (existsb _ _); [by eapply (wf_unread _ Hwf) |].
    rewrite lookup_insert in Hc. case_decide as Hcid; [| by eapply (wf_unread _ Hwf)].
    injection Hc as <-. simpl. by eapply (wf_unread _ Hwf).
Qed.

End EngineSteps.

Section EngineInvariant.

Lemma addMessage_seen rumor wrapId myPubkey st :
  Rumor.id rumor ∈ seenRumorIds st → addMessage rumor wrapId myPubkey st = st.
Proof. intros Hin. unfold addMessage. by rewrite decide_True. Qed.

(** A kind-7 rumor not seen before: recorded as seen, then folded in as a
    reaction. *)
Lemma addMessage_fresh_reaction rumor wrapId myPubkey st :
  Rumor.id rumor ∉ seenRumorIds st → Rumor.kind rumor = 7%Z →
  addMessage rumor wrapId myPubkey st =
    addReactionToConversation rumor myPubkey
      {| conversations := conversations st;
         seenRumorIds := {[Rumor.id rumor]} ∪ seenRumorIds st;
         dm_cache := dm_cache st; dm_lastseen := dm_lastseen st;
         dm_reactions := dm_reactions st |}.
Proof. intros Hnew Hkind. unfold addMessage. by rewrite decide_False, decide_True. Qed.

(** Any other rumor not seen before: recorded as seen, cached under its wrap
    id, and appended to its conversation. *)
Lemma addMessage_fresh_dm rumor wrapId myPubkey st :
  Rumor.id rumor ∉ seenRumorIds st → Rumor.kind rumor ≠ 7%Z →
  addMessage rumor wrapId myPubkey st =
    let cid := conversationIdOf rumor in
    let msg := messageOf rumor wrapId in
    let unread := if isUnread rumor myPubkey (getLastSeen cid st) then 1%Z else 0%Z in
    {| conversations :=
         match conversations st !! cid with
         | Some existing =>
             if existsb (hasId (Rumor.id rumor)) (Conversation.messages existing)
             then conversations st
             else <[cid := Conversation.mk (Conversation.id existing)
                             (Conversation.participants existing)
                             (Js.sort byCreatedAt (Conversation.messages existing ++ [msg]))
                             (Z.max (Conversation.lastMessageAt existing)
                                (Rumor.created_at rumor))
                             (Conversation.unreadCount existing + unread)
                             (Conversation.reactions existing)]> (conversations st)
         | None =>
             <[cid := Conversation.mk cid (Js.split "+" cid) [msg] (Rumor.created_at rumor)
                        unread (default ∅ (dm_reactions st !! cid))]> (conversations st)
         end;
       seenRumorIds := {[Rumor.id rumor]} ∪ seenRumorIds st;
       dm_cache := <[wrapId := msg]> (dm_cache st);
       dm_lastseen := dm_lastseen st;
       dm_reactions := dm_reactions st |}.
Proof. intros Hnew Hkind. unfold addMessage. by rewrite !decide_False. Qed.

Lemma addMessage_marks_seen rumor wrapId myPubkey st :
  Rumor.id rumor ∈ seenRumorIds (addMessage rumor wrapId myPubkey st).
Proof.
  destruct (decide (Rumor.id rumor ∈ seenRumorIds st)) as [Hin | Hnew].
  - by rewrite addMessage_seen.
  - destruct (decide (Rumor.kind rumor = 7%Z)) as [Hk | Hk].
    + rewrite addMessage_fresh_reaction, addReactionToConversation_seen by done.
      simpl. set_solver.
    + rewrite addMessage_fresh_dm by done. simpl. set_solver.
Qed.

(** In a well-formed state a rumor id outside the seen-set names no message. *)
Lemma unseen_not_in_messages st cid conv id :
  wellFormed st → conversations st !! cid = Some conv → id ∉ seenRumorIds st →
  existsb (hasId id) (Conversation.messages conv) = false.
Proof.
  intros Hwf Hc Hnew. apply not_true_is_false. intros Hex.
  apply existsb_exists in Hex as (m & Hm & Hid).
  apply bool_decide_eq_true in Hid. subst id.
  apply Hnew. eapply (wf_seen _ Hwf); [done |]. by apply list_elem_of_In.
Qed.

Lemma wellFormed_more_seen st ids :
  wellFormed st →
  wellFormed {| conversations := conversations st; seenRumorIds := ids ∪ seenRumorIds st;
                dm_cache := dm_cache st; dm_lastseen := dm_lastseen st;
                dm_reactions := dm_reactions st |}.
Proof.
  intros [Hseen Hlive Hcached Hunread]. split; simpl; [| done ..].
  intros cid conv m Hc Hm. apply elem_of_union_r. eauto.
Qed.

Lemma addMessage_wellFormed rumor wrapId myPubkey st :
  wellFormed st → wellFormed (addMessage rumor wrapId myPubkey st).
Proof.
  intros Hwf.
  destruct (decide (Rumor.id rumor ∈ seenRumorIds st)) as [Hin | Hnew];
    [by rewrite addMessage_seen |].
  destruct (decide (Rumor.kind rumor = 7%Z)) as [Hk | Hk].
  { rewrite addMessage_fresh_reaction by done.
    by apply addReactionToConversation_wellFormed, wellFormed_more_seen. }
  rewrite addMessage_fresh_dm by done.
  set (cid := conversationIdOf rumor).
  pose proof (wellFormed_more_seen st {[Rumor.id rumor]} Hwf) as [Hseen Hlive Hcached Hunread].
  simpl in *. split; simpl; [| | done |].
  - intros cid' conv m Hc Hm.
    destruct (conversations st !! cid) as [existing |] eqn:Hex.
    + rewrite (unseen_not_in_messages st cid existing) in Hc by done.
      rewrite lookup_insert in Hc. case_decide; [| eauto].
      injection Hc as <-. simpl in Hm. rewrite sort_Permutation in Hm.
      apply elem_of_app in Hm as [Hm | ->%list_elem_of_singleton]; [eauto |].
      simpl. set_solver.
    + rewrite lookup_insert in Hc. case_decide; [| eauto].
      injection Hc as <-. simpl in Hm. apply list_elem_of_singleton in Hm as ->.
      simpl. set_solver.
  - intros cid' conv target l Hc Hl.
    destruct (conversations st !! cid) as [existing |] eqn:Hex.
    + rewrite (unseen_not_in_messages st cid existing) in Hc by done.
      rewrite lookup_insert in Hc. case_decide; [| eauto].
      injection Hc as <-. simpl in Hl. eauto.
    + rewrite lookup_insert in Hc. case_decide; [| eauto].
      injection Hc as <-. simpl in Hl.
      destruct (dm_reactions st !! cid) as [m |] eqn:Hm; simpl in Hl; [eauto |].
      by rewrite lookup_empty in Hl.
  - intros cid' conv Hc.
    destruct (conversations st !! cid) as [existing |] eqn:Hex.
    + rewrite (unseen_not_in_messages st cid existing) in Hc by done.
      rewrite lookup_insert in Hc. case_decide; [| eauto].
      injection Hc as <-. simpl. specialize (Hunread _ _ Hex).
      destruct (isUnread _ _ _); lia.
    + rewrite lookup_insert in Hc. case_decide; [| eauto].
      injection Hc as <-. simpl. destruct (isUnread _ _ _); lia.
Qed.

Lemma markAsRead_wellFormed now cid st : wellFormed st → wellFormed (markAsRead now cid st).
Proof.
  intros [Hseen Hlive Hcached Hunread]. unfold markAsRead. split; simpl; [| | done |].
  - intros cid' conv m Hc Hm.
    destruct (conversations st !! cid) as [existing |] eqn:Hex; [| eauto].
    destruct (bool_decide _); [| eauto].
    rewrite lookup_insert in Hc. case_decide; [| eauto]. injection Hc as <-. eauto.
  - intros cid' conv target l Hc Hl.
    destruct (conversations st !! cid) as [existing |] eqn:Hex; [| eauto].
    destruct (bool_decide _); [| eauto].
    rewrite lookup_insert in Hc. case_decide; [| eauto]. injection Hc as <-. eauto.
  - intros cid' conv Hc.
    destruct (conversations st !! cid) as [existing |] eqn:Hex; [| eauto].
    destruct (bool_decide _); [| eauto].
    rewrite lookup_insert in Hc. case_decide; [| eauto]. by injection Hc as <-.
Qed.

Lemma markAllAsRead_wellFormed now st : wellFormed st → wellFormed (markAllAsRead now st).
Proof.
  intros [Hseen Hlive Hcached Hunread]. unfold markAllAsRead. split; simpl; [| | done |].
  - intros cid conv m Hc Hm. rewrite lookup_fmap in Hc.
    destruct (conversations st !! cid) as [existing |] eqn:Hex; [| done].
    injection Hc as <-. destruct (bool_decide _); eauto.
  - intros cid conv target l Hc Hl. rewrite lookup_fmap in Hc.
    destruct (conversations st !! cid) as [existing |] eqn:Hex; [| done].
    injection Hc as <-. destruct (bool_decide _); eauto.
  - intros cid conv Hc. rewrite lookup_fmap in Hc.
    destruct (conversations st !! cid) as [existing |] eqn:Hex; [| done].
    injection Hc as <-. destruct (bool_decide _); [done | eauto].
Qed.

Lemma reachable_wellFormed st : reachable st → wellFormed st.
Proof.
  induction 1 as [cache lastseen reactions Hr | | | | st _ IH].
  - split; simpl; [intros ? ? ? Hc | intros ? ? ? ? Hc | done | intros ? ? Hc];
      by rewrite lookup_empty in Hc.
  - by apply addMessage_wellFormed.
  - by apply markAsRead_wellFormed.
  - by apply markAllAsRead_wellFormed.
  - destruct IH as [_ _ Hcached _].
    split; simpl; [intros ? ? ? Hc | intros ? ? ? ? Hc | done | intros ? ? Hc];
      by rewrite lookup_empty in Hc.
Qed.

End EngineInvariant.

Section Reactions.

Lemma absorb_present reaction l : existsb (sameReaction reaction) (absorb reaction l) = true.
Proof.
  unfold absorb. destruct (existsb _ l) eqn:Hex; [done |].
  apply existsb_sameReaction_snoc.
Qed.

Lemma absorb_entries reaction l :
  deduped l →
  reactionEntries (DMReaction.pubkey reaction) (DMReaction.emoji reaction) (absorb reaction l) = 1.
Proof.
  intros Hd. unfold absorb. destruct (existsb _ l) eqn:Hex.
  - by apply deduped_present.
  - by apply deduped_added.
Qed.

Lemma sameReaction_pair r r' x :
  DMReaction.pubkey r' = DMReaction.pubkey r → DMReaction.emoji r' = DMReaction.emoji r →
  sameReaction r' x = sameReaction r x.
Proof. intros Hp He. unfold sameReaction. by rewrite Hp, He. Qed.

Lemma existsb_sameReaction_pair r r' l :
  DMReaction.pubkey r' = DMReaction.pubkey r → DMReaction.emoji r' = DMReaction.emoji r →
  existsb (sameReaction r') l = existsb (sameReaction r) l.
Proof.
  intros Hp He. induction l as [| x l IH]; simpl; [done |].
  by rewrite IH, (sameReaction_pair r r').
Qed.

(** A target that is no member name of [Object.prototype] reads its own
    list or [undefined]; a member name without an own list reads the member,
    and then the persisted object has no list for it. *)
Lemma readsInherited_ordinary cid target st :
  target ∉ Js.objectPrototypeMembers → readsInherited cid target st = false.
Proof. intros Hn. apply bool_decide_eq_false_2. by intros [_ ?]. Qed.

Lemma readsInherited_member cid target st :
  readsInherited cid target st = true →
  target ∈ Js.objectPrototypeMembers ∧ persistedReactions cid target st = [].
Proof.
  intros [Hnone Hin]%bool_decide_eq_true. split; [done |].
  unfold persistedReactions. by rewrite Hnone.
Qed.

(** The swallowed [TypeError]: nothing is stored. *)
Lemma addReactionToConversation_swallowed rumor myPubkey st :
  readsInherited (conversationIdOf rumor) (targetMessageIdOf rumor) st = true →
  dm_reactions (addReactionToConversation rumor myPubkey st) = dm_reactions st.
Proof.
  intros Hr. destruct (Js.truthy (targetMessageIdOf rumor)) eqn:Ht;
    [| by rewrite addReactionToConversation_no_target].
  rewrite addReactionToConversation_target by done. cbn zeta. cbn [dm_reactions].
  by rewrite Hr.
Qed.

Lemma addReactionToConversation_persisted rumor myPubkey st :
  Js.truthy (targetMessageIdOf rumor) = true →
  readsInherited (conversationIdOf rumor) (targetMessageIdOf rumor) st = false →
  persistedReactions (conversationIdOf rumor) (targetMessageIdOf rumor)
    (addReactionToConversation rumor myPubkey st)
  = absorb (reactionOf rumor)
      (persistedReactions (conversationIdOf rumor) (targetMessageIdOf rumor) st).
Proof.
  intros Ht Hr. rewrite addReactionToConversation_target by done.
  unfold absorb. cbn zeta. rewrite Hr.
  destruct (existsb _ (persistedReactions _ _ st)) eqn:Hex; [done |].
  unfold persistedReactions at 1. cbn [dm_reactions].
  rewrite lookup_insert_eq. cbn [default from_option id]. by rewrite lookup_insert_eq.
Qed.

Lemma addReactionToConversation_live rumor myPubkey st :
  Js.truthy (targetMessageIdOf rumor) = true →
  liveReactions (conversationIdOf rumor) (targetMessageIdOf rumor)
    (addReactionToConversation rumor myPubkey st)
  = absorb (reactionOf rumor)
      <$> liveReactions (conversationIdOf rumor) (targetMessageIdOf rumor) st.
Proof.
  intros Ht. rewrite addReactionToConversation_target by done.
  unfold liveReactions, absorb. cbn zeta. cbn [conversations].
  destruct (conversations st !! conversationIdOf rumor) as [existing |] eqn:Hc.
  - destruct (existsb _ _) eqn:Hex.
    + rewrite Hc. cbn. by rewrite Hex.
    + rewrite lookup_insert_eq. cbn [mbind option_bind withReactions Conversation.reactions].
      rewrite lookup_insert_eq. cbn. by rewrite Hex.
  - by rewrite Hc.
Qed.

(** A reaction whose pair is already in both lists changes neither. *)
Lemma addReactionToConversation_absorbed rumor myPubkey st :
  existsb (sameReaction (reactionOf rumor))
    (persistedReactions (conversationIdOf rumor) (targetMessageIdOf rumor) st) = true →
  (∀ l, liveReactions (conversationIdOf rumor) (targetMessageIdOf rumor) st = Some l →
        existsb (sameReaction (reactionOf rumor)) l = true) →
  dm_reactions (addReactionToConversation rumor myPubkey st) = dm_reactions st ∧
  conversations (addReactionToConversation rumor myPubkey st) = conversations st.
Proof.
  intros Hp Hl. destruct (Js.truthy (targetMessageIdOf rumor)) eqn:Ht;
    [| by rewrite addReactionToConversation_no_target].
  rewrite addReactionToConversation_target by done. cbn zeta. simpl.
  rewrite Hp. split; [by destruct (readsInherited _ _ _) |].
  unfold liveReactions in Hl.
  destruct (conversations st !! conversationIdOf rumor) as [existing |]; [| done].
  by rewrite (Hl _ eq_refl).
Qed.

(** X31: for a target message whose id is no member name of
    [Object.prototype], two reaction rumors of one pubkey with one emoji for
    that target in one conversation leave one entry for the pair, in the
    persisted reaction cache and in the live reaction list of the
    conversation; the second rumor changes neither. *)
Theorem reaction_registered_once r1 r2 w1 w2 myPubkey st :
  reachable st →
  Rumor.kind r1 = 7%Z → Rumor.kind r2 = 7%Z →
  Rumor.pubkey r2 = Rumor.pubkey r1 →
  Rumor.content r2 = Rumor.content r1 →
  conversationIdOf r2 = conversationIdOf r1 →
  targetMessageIdOf r2 = targetMessageIdOf r1 →
  Js.truthy (targetMessageIdOf r1) = true →
  targetMessageIdOf r1 ∉ Js.objectPrototypeMembers →
  Rumor.id r1 ∉ seenRumorIds st →
  let cid := conversationIdOf r1 in
  let target := targetMessageIdOf r1 in
  let st1 := addMessage r1 w1 myPubkey st in
  let st2 := addMessage r2 w2 myPubkey st1 in
  reactionEntries (Rumor.pubkey r1) (Rumor.content r1) (persistedReactions cid target st2) = 1 ∧
  (∀ conv, conversations st !! cid = Some conv →
     ∃ l, liveReactions cid target st2 = Some l ∧
          reactionEntries (Rumor.pubkey r1) (Rumor.content r1) l = 1) ∧
  dm_reactions st2 = dm_reactions st1 ∧
  conversations st2 = conversations st1.
Proof.
  intros Hreach Hk1 Hk2 Hpk Hem Hcid Htarget Ht Hord Hnew cid target st1 st2.
  apply reachable_wellFormed in Hreach as Hwf.
  pose proof (wellFormed_more_seen st {[Rumor.id r1]} Hwf) as Hwf0.
  set (st0 := {| conversations := conversations st;
                 seenRumorIds := {[Rumor.id r1]} ∪ seenRumorIds st;
                 dm_cache := dm_cache st; dm_lastseen := dm_lastseen st;
                 dm_reactions := dm_reactions st |}) in *.
  assert (Hst1 : st1 = addReactionToConversation r1 myPubkey st0)
    by (by apply addMessage_fresh_reaction).
  assert (Hp1 : persistedReactions cid target st1
                = absorb (reactionOf r1) (persistedReactions cid target st0))
    by (rewrite Hst1; apply addReactionToConversation_persisted;
        [done | by apply readsInherited_ordinary]).
  assert (Hl1 : liveReactions cid target st1
                = absorb (reactionOf r1) <$> liveReactions cid target st0)
    by (rewrite Hst1; by apply addReactionToConversation_live).
  assert (Hsame : dm_reactions st2 = dm_reactions st1 ∧ conversations st2 = conversations st1).
  { subst st2. destruct (decide (Rumor.id r2 ∈ seenRumorIds st1)) as [Hin | Hnew2];
      [by rewrite addMessage_seen |].
    rewrite addMessage_fresh_reaction by done.
    match goal with |- context [addReactionToConversation _ _ ?s] => set (st1' := s) end.
    change (dm_reactions (addReactionToConversation r2 myPubkey st1') = dm_reactions st1' ∧
            conversations (addReactionToConversation r2 myPubkey st1') = conversations st1').
    apply addReactionToConversation_absorbed; rewrite Hcid, Htarget;
      fold cid; fold target.
    - rewrite (existsb_sameReaction_pair (reactionOf r1)) by (simpl; congruence).
      etransitivity; [| apply (absorb_present (reactionOf r1)
                                 (persistedReactions cid target st0))].
      f_equal. exact Hp1.
    - intros l Hl.
      assert (Hl' : liveReactions cid target st1 = Some l) by exact Hl.
      rewrite Hl1 in Hl'.
      destruct (liveReactions cid target st0) as [l0 |]; simpl in Hl'; [| done].
      injection Hl' as <-.
      rewrite (existsb_sameReaction_pair (reactionOf r1)) by (simpl; congruence).
      apply absorb_present. }
  destruct Hsame as [Hr Hc].
  assert (Hp2 : persistedReactions cid target st2 = persistedReactions cid target st1)
    by (unfold persistedReactions; by rewrite Hr).
  assert (Hl2 : liveReactions cid target st2 = liveReactions cid target st1)
    by (unfold liveReactions; by rewrite Hc).
  split; [| split; [| done]].
  - rewrite Hp2, Hp1.
    apply (absorb_entries (reactionOf r1)), (persistedReactions_deduped st0 cid target Hwf0).
  - intros conv Hconv. rewrite Hl2, Hl1.
    assert (Hlive : liveReactions cid target st0
                    = Some (default [] (Conversation.reactions conv !! target)))
      by (unfold liveReactions; simpl; by rewrite Hconv).
    rewrite Hlive. simpl. eexists. split; [done |].
    apply (absorb_entries (reactionOf r1)).
    by apply (liveReactions_deduped st0 cid target).
Qed.

End Reactions.

Section Unread.

Lemma addMessage_unread rumor wrapId myPubkey st :
  wellFormed st → Rumor.id rumor ∉ seenRumorIds st → Rumor.kind rumor ≠ 7%Z →
  let cid := conversationIdOf rumor in
  unreadOf cid (addMessage rumor wrapId myPubkey st)
  = (unreadOf cid st + if isUnread rumor myPubkey (getLastSeen cid st) then 1 else 0)%Z.
Proof.
  intros Hwf Hnew Hkind cid. rewrite addMessage_fresh_dm by done.
  unfold unreadOf. cbn zeta. cbn [conversations]. fold cid.
  destruct (conversations st !! cid) as [existing |] eqn:Hex.
  - rewrite (unseen_not_in_messages st cid existing) by done.
    by rewrite lookup_insert_eq.
  - by rewrite lookup_insert_eq.
Qed.

Lemma addMessage_unread_other rumor wrapId myPubkey st other :
  other ≠ conversationIdOf rumor → Rumor.kind rumor ≠ 7%Z →
  unreadOf other (addMessage rumor wrapId myPubkey st) = unreadOf other st.
Proof.
  intros Hne Hkind.
  destruct (decide (Rumor.id rumor ∈ seenRumorIds st)); [by rewrite addMessage_seen |].
  rewrite addMessage_fresh_dm by done.
  unfold unreadOf. cbn zeta. cbn [conversations].
  destruct (conversations st !! conversationIdOf rumor) as [existing |].
  - destruct (existsb _ _); [done |]. by rewrite lookup_insert_ne.
  - by rewrite lookup_insert_ne.
Qed.

Lemma markAsRead_lastSeen now cid st : getLastSeen cid (markAsRead now cid st) = now.
Proof. unfold getLastSeen, markAsRead. simpl. by rewrite lookup_insert_eq. Qed.

Lemma markAsRead_unread now cid st :
  wellFormed st → unreadOf cid (markAsRead now cid st) = 0%Z.
Proof.
  intros Hwf. unfold unreadOf, markAsRead. cbn [conversations setConversations setLastSeen].
  destruct (conversations st !! cid) as [conv |] eqn:Hc; [| by rewrite Hc].
  case_bool_decide as Hpos.
  - by rewrite lookup_insert_eq.
  - rewrite Hc. simpl. pose proof (wf_unread _ Hwf _ _ Hc). lia.
Qed.

(** C6: a message that is new to the engine raises the unread counter of
    its conversation by exactly 1 when its author is not the local user and
    its [created_at] is strictly greater than the persisted last-seen
    timestamp of the conversation, and leaves it unchanged otherwise; no other
    conversation's counter moves; [markAsRead] sets the last-seen timestamp of
    the conversation to the current time and its counter to 0. *)
Theorem unread_accounting rumor wrapId myPubkey st now conversationId :
  reachable st →
  Rumor.id rumor ∉ seenRumorIds st →
  Rumor.kind rumor ≠ 7%Z →
  let cid := conversationIdOf rumor in
  let st' := addMessage rumor wrapId myPubkey st in
  (Rumor.pubkey rumor ≠ myPubkey → (getLastSeen cid st < Rumor.created_at rumor)%Z →
     unreadOf cid st' = (unreadOf cid st + 1)%Z) ∧
  (Rumor.pubkey rumor = myPubkey ∨ (Rumor.created_at rumor ≤ getLastSeen cid st)%Z →
     unreadOf cid st' = unreadOf cid st) ∧
  (∀ other, other ≠ cid → unreadOf other st' = unreadOf other st) ∧
  getLastSeen conversationId (markAsRead now conversationId st) = now ∧
  unreadOf conversationId (markAsRead now conversationId st) = 0%Z.
Proof.
  intros Hreach Hnew Hkind cid st'. apply reachable_wellFormed in Hreach as Hwf.
  pose proof (addMessage_unread rumor wrapId myPubkey st Hwf Hnew Hkind) as Hu.
  cbn zeta in Hu. fold cid st' in Hu. unfold isUnread in Hu.
  split; [| split; [| split; [| split]]].
  - intros Hauthor Hnewer. rewrite Hu.
    by rewrite !bool_decide_eq_true_2.
  - intros [Hmine | Hold]; rewrite Hu.
    + rewrite (bool_decide_eq_false_2 (Rumor.pubkey rumor ≠ myPubkey)) by (by intros ?).
      simpl. lia.
    + rewrite (bool_decide_eq_false_2 (_ < _)%Z) by lia.
      rewrite andb_false_r. lia.
  - intros other Hne. by apply addMessage_unread_other.
  - apply markAsRead_lastSeen.
  - by apply markAsRead_unread.
Qed.

End Unread.

Section Ingestion.
Context `{P : Primitives}.

Lemma onEvent_resolve getSigner privateKey myPubkey event st :
  onEvent getSigner privateKey myPubkey event st =
    match resolve getSigner privateKey event st with
    | Some rumor => addMessage rumor (Event.id event) myPubkey st
    | None => st
    end.
Proof.
  unfold onEvent, resolve. destruct (getCachedRumor (Event.id event) st); [done |].
  by destruct (unwrapGiftWrap getSigner event privateKey) as [[rumor |] |].
Qed.

(** What [addMessage] does to the decrypted-message cache: nothing, or one
    entry for the wrap id, holding the rumor just added. *)
Lemma addMessage_cache rumor wrapId myPubkey st :
  dm_cache (addMessage rumor wrapId myPubkey st) = dm_cache st ∨
  dm_cache (addMessage rumor wrapId myPubkey st)
    = <[wrapId := messageOf rumor wrapId]> (dm_cache st).
Proof.
  destruct (decide (Rumor.id rumor ∈ seenRumorIds st)); [left; by rewrite addMessage_seen |].
  destruct (decide (Rumor.kind rumor = 7%Z)).
  - left. rewrite addMessage_fresh_reaction by done.
    destruct (Js.truthy (targetMessageIdOf rumor)) eqn:Ht.
    + by rewrite addReactionToConversation_target.
    + by rewrite addReactionToConversation_no_target.
  - right. by rewrite addMessage_fresh_dm.
Qed.

(** After a rumor was added, an event that resolved to a rumor still
    resolves: to the same rumor, or to the cached copy of the one just added. *)
Lemma resolve_after_addMessage getSigner privateKey myPubkey event rumor r1 w1 st :
  resolve getSigner privateKey event st = Some rumor →
  ∃ rumor', resolve getSigner privateKey event (addMessage r1 w1 myPubkey st) = Some rumor' ∧
            (rumor' = rumor ∨ Rumor.id rumor' = Rumor.id r1).
Proof.
  intros Hres. unfold resolve, getCachedRumor in *.
  destruct (addMessage_cache r1 w1 myPubkey st) as [-> | ->]; [eauto |].
  rewrite lookup_insert. case_decide; [| eauto].
  eexists. split; [done |]. by right.
Qed.

Lemma addMessage_again rumor r1 wrapId w1 myPubkey st :
  Rumor.id rumor = Rumor.id r1 →
  addMessage rumor wrapId myPubkey (addMessage r1 w1 myPubkey st) = addMessage r1 w1 myPubkey st.
Proof. intros Hid. apply addMessage_seen. rewrite Hid. apply addMessage_marks_seen. Qed.

(** Delivering an event a second time changes nothing, whatever the event. *)
Lemma onEvent_idempotent getSigner privateKey myPubkey event st :
  onEvent getSigner privateKey myPubkey event (onEvent getSigner privateKey myPubkey event st)
  = onEvent getSigner privateKey myPubkey event st.
Proof.
  rewrite (onEvent_resolve _ _ _ event st).
  destruct (resolve getSigner privateKey event st) as [rumor |] eqn:Hres.
  - destruct (resolve_after_addMessage _ _ myPubkey _ _ rumor (Event.id event) st Hres)
      as (rumor' & Hres' & Hid).
    rewrite onEvent_resolve, Hres'. apply addMessage_again.
    by destruct Hid as [-> | ->].
  - by rewrite onEvent_resolve, Hres.
Qed.

Lemma filter_hasId_unseen st cid conv id :
  wellFormed st → conversations st !! cid = Some conv → id ∉ seenRumorIds st →
  countWithId id conv = 0.
Proof.
  intros Hwf Hc Hnew. unfold countWithId.
  assert (Hall : ∀ m, m ∈ Conversation.messages conv → DMMessage.id m ≠ id).
  { intros m Hm <-. apply Hnew. by eapply (wf_seen _ Hwf). }
  induction (Conversation.messages conv) as [| m l IH]; [done |].
  rewrite filter_cons_False by (apply Hall, list_elem_of_here).
  apply IH. intros m' Hm'. by apply Hall, list_elem_of_further.
Qed.

(** C4: the same wire event delivered twice, or two different wraps that
    resolve to rumors with one id, leave the state the first delivery
    produced; when that first rumor was new and is a message, exactly one
    message with its id is in conversation state, in its conversation. *)
Theorem ingestion_idempotent getSigner privateKey myPubkey st e1 e2 r1 r2 :
  reachable st →
  resolve getSigner privateKey e1 st = Some r1 →
  resolve getSigner privateKey e2 st = Some r2 →
  Rumor.id r2 = Rumor.id r1 →
  Rumor.id r1 ∉ seenRumorIds st →
  Rumor.kind r1 ≠ 7%Z →
  let st1 := onEvent getSigner privateKey myPubkey e1 st in
  onEvent getSigner privateKey myPubkey e1 st1 = st1 ∧
  onEvent getSigner privateKey myPubkey e2 st1 = st1 ∧
  is_Some (conversations st1 !! conversationIdOf r1) ∧
  (∀ cid conv, conversations st1 !! cid = Some conv →
     countWithId (Rumor.id r1) conv = if decide (cid = conversationIdOf r1) then 1 else 0).
Proof.
  intros Hreach Hres1 Hres2 Hid Hnew Hkind st1.
  apply reachable_wellFormed in Hreach as Hwf.
  assert (Hst1 : st1 = addMessage r1 (Event.id e1) myPubkey st)
    by (unfold st1; by rewrite onEvent_resolve, Hres1).
  split; [apply onEvent_idempotent |]. split.
  { destruct (resolve_after_addMessage _ _ myPubkey _ _ r1 (Event.id e1) st Hres2)
      as (rumor' & Hres' & Hid').
    rewrite Hst1, onEvent_resolve, Hres'. apply addMessage_again.
    destruct Hid' as [-> | ->]; done. }
  rewrite Hst1, addMessage_fresh_dm by done. cbn zeta. cbn [conversations].
  set (cid1 := conversationIdOf r1).
  destruct (conversations st !! cid1) as [existing |] eqn:Hex.
  - rewrite (unseen_not_in_messages st cid1 existing) by done. split.
    + rewrite lookup_insert_eq. eauto.
    + intros cid conv. rewrite lookup_insert. case_decide as Hcid.
      * intros [= <-]. rewrite decide_True by done.
        unfold countWithId. simpl. rewrite sort_Permutation, filter_app, length_app.
        fold (countWithId (Rumor.id r1) existing).
        rewrite (filter_hasId_unseen st cid1) by done.
        by rewrite filter_cons_True.
      * intros Hc. rewrite decide_False by done. by eapply filter_hasId_unseen.
  - split.
    + rewrite lookup_insert_eq. eauto.
    + intros cid conv. rewrite lookup_insert. case_decide as Hcid.
      * intros [= <-]. rewrite decide_True by done.
        unfold countWithId. simpl. by rewrite filter_cons_True.
      * intros Hc. rewrite decide_False by done. by eapply filter_hasId_unseen.
Qed.

End Ingestion.

(** ** Retry *)

Section Retry.

Lemma elem_of_retryRaces race rumorId tracked (wrap : Wrap) :
  race ∈ retryRaces rumorId tracked wrap →
  race_rumorId race = rumorId ∧ race_relay race ∈ tracked ∧
  race_relay race ∈ wrap.2 ∧ race_promise race = (race_relay race, wrap.1).
Proof.
  unfold retryRaces. rewrite list_elem_of_fmap. intros (relay & -> & Hin).
  apply list_elem_of_filter in Hin as [Htracked Hin]. done.
Qed.

(** C3 (amended): retry resets every relay of the record to [pending], also
    one that was [sent], and adds no relay; it hands every stored wrap, the
    event object kept since the send, to the pool for every relay of that
    wrap's list; it starts a race only for relays of the record; the stored
    wraps and the relay caches stay as they were. *)
Theorem handleRetry_republishes_stored_wraps rumorId st w status :
  sendStatuses st !! rumorId = Some status →
  ∃ status',
    sendStatuses (handleRetry rumorId st w).1 !! rumorId = Some status' ∧
    (∀ relay, MsgSendStatus.relays status' !! relay
              = (λ _, RelayStatus.pending) <$> MsgSendStatus.relays status !! relay) ∧
    MsgSendStatus.retryWraps status' = MsgSendStatus.retryWraps status ∧
    published (handleRetry rumorId st w).2
      = published w ++ (MsgSendStatus.retryWraps status ≫= λ wrap, pool_publish wrap.2 wrap.1) ∧
    caches (handleRetry rumorId st w).2 = caches w ∧
    ∃ started,
      races (handleRetry rumorId st w).1 = races st ++ started ∧
      ∀ race, race ∈ started →
        race_rumorId race = rumorId ∧
        is_Some (MsgSendStatus.relays status !! race_relay race) ∧
        ∃ wrap, wrap ∈ MsgSendStatus.retryWraps status ∧
                race_relay race ∈ wrap.2 ∧
                race_promise race = (race_relay race, wrap.1).
Proof.
  intros Hstatus. unfold handleRetry. rewrite Hstatus. cbn [fst snd sendStatuses published caches races].
  eexists. split; [apply lookup_insert_eq |]. cbn [MsgSendStatus.relays MsgSendStatus.retryWraps].
  split; [intros relay; apply lookup_fmap |]. split; [done |]. split; [done |]. split; [done |].
  eexists. split; [done |].
  intros race (wrap & Hrace & Hwrap)%list_elem_of_bind.
  apply elem_of_retryRaces in Hrace as (Hid & Htracked & Hrelay & Hpromise).
  split; [done |]. split; [by apply elem_of_dom |]. eauto.
Qed.

End Retry.

Section ScenarioRetry.
Import Mock Scenario.

(** C3, as stated, fails: with {A: failed, B: sent, C: timeout} recorded,
    retry also resets B to [pending] and republishes to B. *)
Lemma retry_also_republishes_to_sent_relay :
  ∃ res w1 before,
    sendABC = (Ok res, w1) ∧
    sendStatuses (settledABC res) !! Rumor.id (SendResult.rumor res) = Some before ∧
    MsgSendStatus.relays before
      = {[relayA := RelayStatus.failed; relayB := RelayStatus.sent;
          relayC := RelayStatus.timeout]} ∧
    let after := handleRetry (Rumor.id (SendResult.rumor res)) (settledABC res) w1 in
    (MsgSendStatus.relays <$> sendStatuses after.1 !! Rumor.id (SendResult.rumor res))
      = Some {[relayA := RelayStatus.pending; relayB := RelayStatus.pending;
               relayC := RelayStatus.pending]} ∧
    opsTo relayB (published w1) = 2 ∧
    opsTo relayB (published after.2) = 4.
Proof.
  destruct sendABC as [[res | e] w1] eqn:Hsend; vm_compute in Hsend; [| discriminate].
  injection Hsend as <- <-. eexists _, _, _.
  split; [reflexivity |]. split; [vm_compute; reflexivity |].
  split; [vm_compute; reflexivity |].
  split; [vm_compute; reflexivity |]. split; vm_compute; reflexivity.
Qed.

(** The amended statement on the record {A: failed, B: sent, C: timeout}. *)
Lemma handleRetry_republishes_stored_wraps_witness :
  ∃ res w1 before,
    sendABC = (Ok res, w1) ∧
    sendStatuses (settledABC res) !! Rumor.id (SendResult.rumor res) = Some before ∧
    ∃ status',
      sendStatuses (handleRetry (Rumor.id (SendResult.rumor res)) (settledABC res) w1).1
        !! Rumor.id (SendResult.rumor res) = Some status' ∧
      (∀ relay, MsgSendStatus.relays status' !! relay
                = (λ _, RelayStatus.pending) <$> MsgSendStatus.relays before !! relay).
Proof.
  destruct sendABC as [[res | e] w1] eqn:Hsend;
    [| exfalso; vm_compute in Hsend; discriminate].
  destruct (sendStatuses (settledABC res) !! Rumor.id (SendResult.rumor res))
    as [before |] eqn:Hbefore.
  - exists res, w1, before. split; [reflexivity |]. split; [exact Hbefore |].
    destruct (handleRetry_republishes_stored_wraps _ _ w1 _ Hbefore)
      as (status' & H1 & H2 & _).
    exists status'. split; [exact H1 | exact H2].
  - exfalso. unfold settledABC, updateRelayStatus, trackRelays in Hbefore.
    cbn [sendStatuses trackingOf SendTracking.rumorId] in Hbefore.
    rewrite lookup_insert_eq in Hbefore. cbn [sendStatuses] in Hbefore.
    rewrite lookup_insert_eq in Hbefore. cbn [sendStatuses] in Hbefore.
    rewrite lookup_insert_eq in Hbefore. by rewrite lookup_insert_eq in Hbefore.
Defined.

End ScenarioRetry.

Section ScenarioEngine.
Import Mock Scenario Scenario2.

Lemma reachable_freshDM : reachable freshDM.
Proof. apply reachable_start. intros cid m target l Hm. by rewrite lookup_empty in Hm. Qed.

(** Two wraps of [hi] for Bob: the second delivery changes nothing. *)
Lemma ingestion_idempotent_witness :
  let deliver := onEvent (Throw SignerFailure) (Some bobKey) bobPub in
  deliver bobWrapAgain (deliver bobWrap freshDM) = deliver bobWrap freshDM.
Proof.
  refine (proj1 (proj2 (@ingestion_idempotent primitives (Throw SignerFailure) (Some bobKey)
                          bobPub freshDM bobWrap bobWrapAgain hi hi _ _ _ _ _ _))).
  - exact reachable_freshDM.
  - vm_compute. reflexivity.
  - vm_compute. reflexivity.
  - reflexivity.
  - apply not_elem_of_empty.
  - discriminate.
Defined.

(** Bob receives [hi] from Alice in a fresh session: one unread message. *)
Lemma unread_accounting_witness :
  unreadOf (conversationIdOf hi) (addMessage hi "w1" bobPub freshDM)
  = (unreadOf (conversationIdOf hi) freshDM + 1)%Z.
Proof.
  refine (proj1 (unread_accounting hi "w1" bobPub freshDM 0 "" _ _ _) _ _).
  - exact reachable_freshDM.
  - apply not_elem_of_empty.
  - discriminate.
  - discriminate.
  - vm_compute. reflexivity.
Defined.

(** Alice reacts twice to [hi] with the same emoji: one persisted entry. *)
Lemma reaction_registered_once_witness :
  reactionEntries alicePub "+"
    (persistedReactions (conversationIdOf thumbsUp) (targetMessageIdOf thumbsUp)
       (addMessage thumbsUpAgain "w3" bobPub (addMessage thumbsUp "w2" bobPub afterHi))) = 1.
Proof.
  refine (proj1 (reaction_registered_once thumbsUp thumbsUpAgain "w2" "w3" bobPub afterHi
                   _ _ _ _ _ _ _ _ _ _)).
  - apply reachable_addMessage, reachable_freshDM.
  - reflexivity.
  - reflexivity.
  - reflexivity.
  - reflexivity.
  - vm_compute. reflexivity.
  - vm_compute. reflexivity.
  - vm_compute. reflexivity.
  - apply (bool_decide_unpack _). vm_compute. exact I.
  - apply (bool_decide_unpack _). vm_compute. exact I.
Defined.


End ScenarioEngine.

(** ** Conversation ids *)

Section SortedStrings.
Context {A : Type} (le : A → A → bool).
Hypothesis le_total : ∀ a b, le a b = true ∨ le b a = true.

Lemma HdRel_insert_sorted x y l :
  le y x = true → HdRel (λ a b, le a b = true) y l →
  HdRel (λ a b, le a b = true) y (Js.insert_sorted le x l).
Proof.
  intros Hyx Hhd. destruct l as [| z l]; simpl; [by constructor |].
  destruct (le x z); constructor; [done |]. by inversion Hhd.
Qed.

Lemma insert_sorted_Sorted x l :
  Sorted (λ a b, le a b = true) l → Sorted (λ a b, le a b = true) (Js.insert_sorted le x l).
Proof.
  induction 1 as [| y l Hsorted IH Hhd]; simpl; [by repeat constructor |].
  destruct (le x y) eqn:Hxy.
  - constructor; [by constructor |]. by constructor.
  - constructor; [done |]. apply HdRel_insert_sorted; [| done].
    destruct (le_total x y); congruence.
Qed.

Lemma sort_Sorted l : Sorted (λ a b, le a b = true) (Js.sort le l).
Proof. induction l as [| x l IH]; simpl; [constructor | by apply insert_sorted_Sorted]. Qed.

End SortedStrings.

Lemma sort_strings_Sorted l : Sorted String.le (Js.sort_strings l).
Proof.
  unfold Js.sort_strings.
  induction (sort_Sorted String.leb String.leb_total l) as [| x k _ IH Hhd];
    constructor; [done |].
  destruct Hhd as [| y k Hxy]; constructor. unfold String.le. by rewrite Hxy.
Qed.

Lemma sort_strings_Permutation l : Js.sort_strings l ≡ₚ l.
Proof. apply sort_Permutation. Qed.

Lemma getConversationId_set my1 ps1 my2 ps2 :
  (∀ x, x ∈ my1 :: ps1 ↔ x ∈ my2 :: ps2) →
  getConversationId my1 ps1 = getConversationId my2 ps2.
Proof.
  intros Hsame. unfold getConversationId. f_equal.
  apply (Sorted_unique String.le); [apply sort_strings_Sorted .. |].
  rewrite !sort_strings_Permutation.
  apply NoDup_Permutation; [apply NoDup_array_from_set .. |].
  intros x. by rewrite !elem_of_array_from_set.
Qed.

(** X1: the conversation id depends only on the set of participants: who
    looks it up, in which order the others are listed and how often a pubkey
    is repeated make no difference. *)
Theorem getConversationId_same_participants my1 ps1 my2 ps2 :
  (∀ x, x ∈ my1 :: ps1 ↔ x ∈ my2 :: ps2) →
  getConversationId my1 ps1 = getConversationId my2 ps2.
Proof. apply getConversationId_set. Qed.

(** Alice looking up Bob and Bob looking up Alice name the same conversation. *)
Lemma getConversationId_same_participants_witness :
  getConversationId "alice" ["bob"] = getConversationId "bob" ["alice"; "bob"].
Proof.
  apply getConversationId_same_participants. intros x.
  rewrite !elem_of_cons, !elem_of_nil. tauto.
Defined.

Section RumorShape.
Context `{P : Primitives}.

Lemma tagsNamed_app name l1 l2 : tagsNamed name (l1 ++ l2) = tagsNamed name l1 ++ tagsNamed name l2.
Proof. apply filter_app. Qed.

Lemma createRumor_tags now s r content replyToId kind extraTags :
  Rumor.tags (createRumor now s r content replyToId kind extraTags)
  = [["p"; r]] ++ match given replyToId with
                  | Some id => [["e"; id; ""; "reply"]]
                  | None => []
                  end ++ extraTags.
Proof. unfold createRumor. simpl. by destruct (given replyToId). Qed.

Lemma conversationIdOf_createRumor now s r content replyToId kind extraTags :
  tagsNamed "p" extraTags = [] →
  conversationIdOf (createRumor now s r content replyToId kind extraTags)
    = getConversationId s [r] ∧
  conversationIdOf (createRumor now s r content replyToId kind extraTags)
    = getConversationId r [s].
Proof.
  intros Hextra.
  assert (Hid : conversationIdOf (createRumor now s r content replyToId kind extraTags)
                = getConversationId s [r]).
  { unfold conversationIdOf. rewrite createRumor_tags, !tagsNamed_app, Hextra.
    by destruct (given replyToId). }
  split; [done |]. rewrite Hid. apply getConversationId_set.
  intros x. rewrite !elem_of_cons, !elem_of_nil. tauto.
Qed.

(** X2: a rumor built by [createRumor] whose extra tags name no further
    participant is filed under the conversation of its sender and recipient,
    the one the chat view shows the recipient for that sender and the sender
    for that recipient. *)
Theorem createRumor_conversation now s r content replyToId kind extraTags :
  tagsNamed "p" extraTags = [] →
  let rumor := createRumor now s r content replyToId kind extraTags in
  conversationIdOf rumor = getConversationId s [r] ∧
  conversationIdOf rumor = getConversationId r [s] ∧
  ∀ st, chatConversation s r st = conversations st !! conversationIdOf rumor ∧
        chatConversation r s st = conversations st !! conversationIdOf rumor.
Proof.
  intros Hextra rumor.
  destruct (conversationIdOf_createRumor now s r content replyToId kind extraTags Hextra)
    as [Hs Hr].
  fold rumor in Hs, Hr. split; [done |]. split; [done |].
  intros st. unfold chatConversation. by rewrite <- Hs, <- Hr at 1.
Qed.

(** X3: the reply marker round-trips: a rumor created in reply to a message
    id carries the tag the chat view looks for, so the quoted message is the
    first message with that id; without a reply id (absent or empty) and
    without extra tags there is no quote. *)
Theorem createRumor_reply_tag now s r content replyToId kind extraTags wrapId messages :
  let msg := messageOf (createRumor now s r content replyToId kind extraTags) wrapId in
  (∀ id, given replyToId = Some id →
     replyTag msg = Some ["e"; id; ""; "reply"] ∧
     referencedMsg messages msg = head (filter (λ m, DMMessage.id m = id) messages)) ∧
  (given replyToId = None → extraTags = [] →
     replyTag msg = None ∧ referencedMsg messages msg = None).
Proof.
  intros msg. split.
  - intros id Hid.
    assert (Htag : replyTag msg = Some ["e"; id; ""; "reply"]).
    { unfold replyTag. subst msg. cbn [messageOf DMMessage.tags].
      rewrite createRumor_tags, Hid, !filter_app.
      rewrite (filter_cons_False _ ["p"; r]) by (intros [? _]; discriminate).
      by rewrite (filter_cons_True _ ["e"; id; ""; "reply"]). }
    split; [done |]. unfold referencedMsg. by rewrite Htag.
  - intros Hnone ->.
    assert (Htag : replyTag msg = None).
    { unfold replyTag. subst msg. cbn [messageOf DMMessage.tags].
      rewrite createRumor_tags, Hnone, app_nil_r.
      by rewrite (filter_cons_False _ ["p"; r]) by (intros [? _]; discriminate). }
    split; [done |]. unfold referencedMsg. by rewrite Htag.
Qed.

End RumorShape.

Section RumorShapeWitness.
Import Mock Scenario.

Lemma createRumor_conversation_witness :
  conversationIdOf (createRumor 1700000000 alicePub bobPub "hi" None 14 [])
    = getConversationId alicePub [bobPub] ∧
  conversationIdOf (createRumor 1700000000 alicePub bobPub "hi" None 14 [])
    = getConversationId bobPub [alicePub].
Proof.
  destruct (@createRumor_conversation primitives 1700000000 alicePub bobPub "hi" None 14 []
              eq_refl) as (Hs & Hr & _).
  exact (conj Hs Hr).
Defined.

End RumorShapeWitness.

Section RumorShapeWitness2.
Import Mock Scenario Scenario2.

(** Bob's reply [yo] points at [hi]. *)
Lemma createRumor_reply_tag_witness :
  replyTag (messageOf yo "w9") = Some ["e"; Rumor.id hi; ""; "reply"].
Proof.
  exact (proj1 (proj1 (@createRumor_reply_tag primitives 1700000300 bobPub alicePub "yo"
                         (Some (Rumor.id hi)) 14 [] "w9" []) (Rumor.id hi) eq_refl)).
Defined.

End RumorShapeWitness2.

(** ** Participants *)

Section SplitJoin.

Lemma rev_app_rev_app s a b : String.rev_app (String.rev_app s a) b = String.rev_app a (s +:+ b).
Proof.
  revert a b. induction s as [| c s IH]; intros a b; simpl; [done |].
  by rewrite IH.
Qed.

Lemma string_app_cons c s t : String c s +:+ t = String c (s +:+ t).
Proof. reflexivity. Qed.

Lemma string_app_nil_r s : s +:+ "" = s.
Proof. induction s as [| c s IH]; [done |]. by rewrite string_app_cons, IH. Qed.

Lemma split_go_segment sep s cur rest :
  hasChar sep s = false →
  Js.split_go sep cur (s +:+ rest) = Js.split_go sep (String.rev_app s cur) rest.
Proof.
  revert cur. induction s as [| c s IH]; intros cur Hno; [done |].
  simpl in Hno. apply orb_false_elim in Hno as [Hc Hs].
  rewrite string_app_cons. simpl. rewrite Hc. by apply IH.
Qed.

Lemma split_go_last sep s :
  hasChar sep s = false → Js.split_go sep "" s = [s].
Proof.
  intros Hno. rewrite <- (string_app_nil_r s) at 1.
  rewrite split_go_segment by done. simpl. unfold String.rev.
  by rewrite rev_app_rev_app, string_app_nil_r.
Qed.

(** [split] undoes [join] on a non-empty list of strings free of the
    separator. *)
Lemma split_join sep l :
  l ≠ [] → Forall (λ s, hasChar sep s = false) l →
  Js.split sep (Js.join (String sep "") l) = l.
Proof.
  intros Hne Hall. unfold Js.split, Js.join.
  induction Hall as [| x l Hx Hall IH]; [done |].
  destruct l as [| y l]; simpl.
  - by apply split_go_last.
  - rewrite split_go_segment by done. simpl. rewrite Ascii.eqb_refl.
    unfold String.rev at 1. rewrite rev_app_rev_app, string_app_nil_r. simpl.
    f_equal. by apply IH.
Qed.

(** X4: when no pubkey contains the separator, splitting a conversation id
    gives back the participants: the distinct pubkeys in code-unit order,
    each once. *)
Theorem conversationId_participants my ps :
  Forall (λ p, hasChar "+" p = false) (my :: ps) →
  Js.split "+" (getConversationId my ps) = Js.sort_strings (Js.array_from_set (my :: ps)) ∧
  NoDup (Js.split "+" (getConversationId my ps)) ∧
  ∀ p, p ∈ Js.split "+" (getConversationId my ps) ↔ p = my ∨ p ∈ ps.
Proof.
  intros Hall.
  assert (Hperm : Js.sort_strings (Js.array_from_set (my :: ps))
                  ≡ₚ Js.array_from_set (my :: ps)) by apply sort_strings_Permutation.
  assert (Hsplit : Js.split "+" (getConversationId my ps)
                   = Js.sort_strings (Js.array_from_set (my :: ps))).
  { unfold getConversationId. apply split_join.
    - intros Hnil. assert (my ∈ Js.sort_strings (Js.array_from_set (my :: ps))) as Hin.
      { rewrite Hperm, elem_of_array_from_set. apply list_elem_of_here. }
      rewrite Hnil in Hin. by apply elem_of_nil in Hin.
    - apply Forall_forall. intros p Hp. rewrite Hperm, elem_of_array_from_set in Hp.
      by eapply Forall_forall in Hall. }
  rewrite Hsplit. split; [done |]. split.
  - rewrite Hperm. apply NoDup_array_from_set.
  - intros p. by rewrite Hperm, elem_of_array_from_set, elem_of_cons.
Qed.

Lemma conversationId_participants_witness :
  Js.split "+" (getConversationId "bob" ["alice"; "bob"]) = ["alice"; "bob"].
Proof.
  rewrite (proj1 (conversationId_participants "bob" ["alice"; "bob"]
                    ltac:(repeat constructor))).
  reflexivity.
Defined.

End SplitJoin.

(** ** The gift wrap seen from outside, and what an unwrap returns *)

Section Envelope.
Context `{P : Primitives}.

Lemma wrapSeal_envelope seal recipientPubkey d wrap :
  wrapSeal seal recipientPubkey d = Ok wrap →
  Event.kind wrap = 1059%Z ∧
  Event.tags wrap = [["p"; recipientPubkey]] ∧
  Event.pubkey wrap = getPublicKey (ephemeralKey d) ∧
  Event.created_at wrap = (wrap_now d - wrap_offset d)%Z ∧
  Event.sig wrap = schnorr_sign (ephemeralKey d) (Event.id wrap).
Proof.
  unfold wrapSeal. destruct (getConversationKey (ephemeralKey d) recipientPubkey); [| done].
  simpl. by intros [= <-].
Qed.

Lemma wrapFor_envelope b rumor recipientPubkey d wrap :
  wrapFor b rumor recipientPubkey d = Ok wrap →
  Event.kind wrap = 1059%Z ∧
  Event.tags wrap = [["p"; recipientPubkey]] ∧
  Event.pubkey wrap = getPublicKey (ephemeralKey d) ∧
  Event.created_at wrap = (wrap_now d - wrap_offset d)%Z ∧
  Event.sig wrap = schnorr_sign (ephemeralKey d) (Event.id wrap) ∧
  ((0 ≤ wrap_offset d < 2 * 24 * 60 * 60)%Z →
   (wrap_now d - 2 * 24 * 60 * 60 < Event.created_at wrap ≤ wrap_now d)%Z).
Proof.
  intros H.
  assert (∃ seal, wrapSeal seal recipientPubkey d = Ok wrap) as [seal Hseal].
  { destruct b as [k | signer]; simpl in H.
    - destruct (hexToBytes k) as [sk |]; simpl in H; [| done].
      unfold createGiftWrapLocal in H.
      destruct (getConversationKey sk recipientPubkey); simpl in H; [| done]. eauto.
    - unfold createGiftWrapForSigner in H.
      destruct (nip44Encrypt signer) as [encrypt |]; [| done].
      destruct (encrypt recipientPubkey _); simpl in H; [| done].
      destruct (signEvent signer _); simpl in H; [| done]. eauto. }
  apply wrapSeal_envelope in Hseal as (Hk & Ht & Hp & Hc & Hs).
  repeat split; try done; rewrite Hc; lia.
Qed.

(** X5: whichever backend seals it, and whatever the signer answers, a gift
    wrap that gets built is a kind-1059 event tagged with the recipient only,
    authored and signed by the ephemeral key and dated [wrap_offset] seconds
    before the clock; with the offset drawn below two days it is never dated
    in the future nor two days or more back. *)
Theorem gift_wrap_envelope b rumor recipientPubkey d wrap :
  wrapFor b rumor recipientPubkey d = Ok wrap →
  Event.kind wrap = 1059%Z ∧
  Event.tags wrap = [["p"; recipientPubkey]] ∧
  Event.pubkey wrap = getPublicKey (ephemeralKey d) ∧
  Event.created_at wrap = (wrap_now d - wrap_offset d)%Z ∧
  Event.sig wrap = schnorr_sign (ephemeralKey d) (Event.id wrap) ∧
  ((0 ≤ wrap_offset d < 2 * 24 * 60 * 60)%Z →
   (wrap_now d - 2 * 24 * 60 * 60 < Event.created_at wrap ≤ wrap_now d)%Z).
Proof. apply wrapFor_envelope. Qed.

End Envelope.

Section EnvelopeWitness.
Import Mock Scenario.

Lemma gift_wrap_envelope_witness :
  Event.kind bobWrap = 1059%Z ∧ Event.tags bobWrap = [["p"; bobPub]] ∧
  Event.pubkey bobWrap = getPublicKey ("e3" : SecretKey).
Proof.
  destruct (@gift_wrap_envelope primitives (RawKey aliceKey) hi bobPub (draws "e3") bobWrap
              eq_refl) as (Hk & Ht & Hp & _).
  exact (conj Hk (conj Ht Hp)).
Defined.

End EnvelopeWitness.

(** ** Inbox relay resolver: the three tiers *)

Section ResolverTiers.

Lemma fetchInboxRelays_memo net pubkey persist c :
  ∃ cached,
    inboxRelayCache (fetchInboxRelays net pubkey persist c).2 !! pubkey = Some cached ∧
    (∀ net' persist',
       fetchInboxRelays net' pubkey persist' (fetchInboxRelays net pubkey persist c).2
       = (cached, (fetchInboxRelays net pubkey persist c).2)) ∧
    (cached = (fetchInboxRelays net pubkey persist c).1 ∨
     ∃ stored event,
       persist = true ∧ inboxRelayCache c !! pubkey = None ∧
       readRelayStore pubkey c = Some stored ∧
       (fetchInboxRelays net pubkey persist c).1 = CachedRelays.relays stored ∧
       net pubkey = FetchEvent event ∧ cached = relayTags event ∧
       (CachedRelays.created_at stored < Event.created_at event)%Z).
Proof.
  assert (Hmemo : ∀ c' cached, inboxRelayCache c' !! pubkey = Some cached →
            ∀ net' persist', fetchInboxRelays net' pubkey persist' c' = (cached, c')).
  { intros c' cached Hc net' persist'. unfold fetchInboxRelays. by rewrite Hc. }
  assert (Hnet : ∀ knownAt c0,
            inboxRelayCache (fetchRelaysFromNetwork net pubkey knownAt persist c0).2 !! pubkey
            = Some (fetchRelaysFromNetwork net pubkey knownAt persist c0).1).
  { intros knownAt c0. unfold fetchRelaysFromNetwork.
    destruct (net pubkey) as [| | event]; simpl.
    1,2: destruct (inboxRelayCache c0 !! pubkey) eqn:Hhit; simpl; [done |];
         destruct persist; simpl; apply lookup_insert_eq.
    destruct (bool_decide (0 < length (relayTags event))
              && bool_decide (knownAt < Event.created_at event)%Z); simpl.
    - destruct persist; simpl; apply lookup_insert_eq.
    - destruct (inboxRelayCache c0 !! pubkey) eqn:Hhit; simpl; [done |].
      destruct persist; simpl; apply lookup_insert_eq. }
  destruct (fetchInboxRelays net pubkey persist c) as [rs c'] eqn:HF. cbn [fst snd].
  unfold fetchInboxRelays in HF.
  destruct (inboxRelayCache c !! pubkey) as [hit |] eqn:Hhit.
  { injection HF as <- <-. exists hit. split; [done |]. split; [by apply Hmemo | by left]. }
  assert (Hfresh : ∀ knownAt c0,
            fetchRelaysFromNetwork net pubkey knownAt persist c0 = (rs, c') →
            ∃ cached, inboxRelayCache c' !! pubkey = Some cached ∧
              (∀ net' persist', fetchInboxRelays net' pubkey persist' c' = (cached, c')) ∧
              cached = rs).
  { intros knownAt c0 Heq. pose proof (Hnet knownAt c0) as Hc. rewrite Heq in Hc.
    exists rs. split; [done |]. split; [by apply Hmemo | done]. }
  destruct persist.
  - destruct (readRelayStore pubkey c) as [stored |] eqn:Hstored.
    + injection HF as <- <-. pose proof (Hnet (CachedRelays.created_at stored)
        (cache_set pubkey (CachedRelays.relays stored) c)) as Hc.
      eexists. split; [exact Hc |]. split; [by apply Hmemo |].
      unfold fetchRelaysFromNetwork.
      destruct (net pubkey) as [| | event] eqn:Hev; simpl.
      1,2: rewrite lookup_insert_eq; simpl; by left.
      destruct (bool_decide (0 < length (relayTags event))) eqn:Hlen; simpl.
      * destruct (bool_decide (CachedRelays.created_at stored < Event.created_at event)%Z)
          eqn:Hnew; simpl.
        -- right. exists stored, event. apply bool_decide_eq_true in Hnew. by repeat split.
        -- rewrite lookup_insert_eq. simpl. by left.
      * rewrite lookup_insert_eq. simpl. by left.
    + destruct (Hfresh _ _ HF) as (cached & ? & ? & ?). exists cached. eauto.
  - destruct (Hfresh _ _ HF) as (cached & ? & ? & ?). exists cached. eauto.
Qed.

(** X7: after any [fetchInboxRelays] the pubkey is in the session cache, and
    every later lookup of it, whatever the network and the persistence flag,
    returns the cached list and changes nothing.  The cached list is the one
    just returned, except when a stored list was served and the revalidation
    found a newer one. *)
Theorem fetchInboxRelays_memoises net pubkey persist c :
  ∃ cached,
    inboxRelayCache (fetchInboxRelays net pubkey persist c).2 !! pubkey = Some cached ∧
    (∀ net' persist',
       fetchInboxRelays net' pubkey persist' (fetchInboxRelays net pubkey persist c).2
       = (cached, (fetchInboxRelays net pubkey persist c).2)) ∧
    (cached = (fetchInboxRelays net pubkey persist c).1 ∨
     ∃ stored event,
       persist = true ∧ inboxRelayCache c !! pubkey = None ∧
       readRelayStore pubkey c = Some stored ∧
       (fetchInboxRelays net pubkey persist c).1 = CachedRelays.relays stored ∧
       net pubkey = FetchEvent event ∧ cached = relayTags event ∧
       (CachedRelays.created_at stored < Event.created_at event)%Z).
Proof. apply fetchInboxRelays_memo. Qed.

Lemma fetchRelaysFromNetwork_frame net pubkey knownAt persist c :
  (persist = false → relayStore (fetchRelaysFromNetwork net pubkey knownAt persist c).2
                     = relayStore c) ∧
  (∀ other, other ≠ pubkey →
     inboxRelayCache (fetchRelaysFromNetwork net pubkey knownAt persist c).2 !! other
       = inboxRelayCache c !! other ∧
     relayStore (fetchRelaysFromNetwork net pubkey knownAt persist c).2 !! other
       = relayStore c !! other).
Proof.
  unfold fetchRelaysFromNetwork.
  assert (Hpop : ∀ rs created_at,
            let c' := if persist
                      then writeRelayStore pubkey (CachedRelays.mk rs created_at)
                             (cache_set pubkey rs c)
                      else cache_set pubkey rs c in
            (persist = false → relayStore c' = relayStore c) ∧
            (∀ other, other ≠ pubkey →
               inboxRelayCache c' !! other = inboxRelayCache c !! other ∧
               relayStore c' !! other = relayStore c !! other)).
  { intros rs created_at. destruct persist; simpl.
    - split; [done |]. intros other Hne. by rewrite !lookup_insert_ne.
    - split; [done |]. intros other Hne. by rewrite lookup_insert_ne. }
  destruct (net pubkey) as [| | event]; simpl.
  1,2: destruct (inboxRelayCache c !! pubkey); simpl; [done | apply Hpop].
  destruct (bool_decide (0 < length (relayTags event))
            && bool_decide (knownAt < Event.created_at event)%Z); simpl; [apply Hpop |].
  destruct (inboxRelayCache c !! pubkey); simpl; [done | apply Hpop].
Qed.

Lemma fetchInboxRelays_touches net pubkey persist c :
  (persist = false → relayStore (fetchInboxRelays net pubkey persist c).2 = relayStore c) ∧
  (∀ other, other ≠ pubkey →
     inboxRelayCache (fetchInboxRelays net pubkey persist c).2 !! other
       = inboxRelayCache c !! other ∧
     relayStore (fetchInboxRelays net pubkey persist c).2 !! other
       = relayStore c !! other).
Proof.
  unfold fetchInboxRelays.
  destruct (inboxRelayCache c !! pubkey); simpl; [done |].
  destruct persist; [| apply fetchRelaysFromNetwork_frame].
  destruct (readRelayStore pubkey c) as [stored |]; [| apply fetchRelaysFromNetwork_frame].
  cbn [snd]. split; [done |]. intros other Hne.
  destruct (fetchRelaysFromNetwork_frame net pubkey (CachedRelays.created_at stored) true
              (cache_set pubkey (CachedRelays.relays stored) c)) as [_ Hf].
  destruct (Hf other Hne) as [-> ->]. simpl. by rewrite lookup_insert_ne.
Qed.

(** X8: a lookup touches the caches of the requested pubkey only, and
    without [persist] it never writes to the persistent store: relay lists of
    recipients stay in session memory. *)
Theorem fetchInboxRelays_frame net pubkey persist c :
  (persist = false → relayStore (fetchInboxRelays net pubkey persist c).2 = relayStore c) ∧
  (∀ other, other ≠ pubkey →
     inboxRelayCache (fetchInboxRelays net pubkey persist c).2 !! other
       = inboxRelayCache c !! other ∧
     relayStore (fetchInboxRelays net pubkey persist c).2 !! other
       = relayStore c !! other).
Proof. apply fetchInboxRelays_touches. Qed.

Lemma fetchInboxRelays_frame_witness :
  relayStore (fetchInboxRelays (λ _, FetchNull) "02b0" false
                {| inboxRelayCache := ∅; relayStore := ∅ |}).2 = ∅.
Proof.
  exact (proj1 (fetchInboxRelays_frame (λ _, FetchNull) "02b0" false
                  {| inboxRelayCache := ∅; relayStore := ∅ |}) eq_refl).
Defined.

(** The network has something newer than [knownAt] for [pubkey]: a relay
    list event with at least one relay tag and a later timestamp. *)
Lemma fetchRelaysFromNetwork_cases net pubkey knownAt persist c :
  (∃ event, net pubkey = FetchEvent event ∧ relayTags event ≠ [] ∧
            (knownAt < Event.created_at event)%Z ∧
            fetchRelaysFromNetwork net pubkey knownAt persist c =
              (relayTags event,
               if persist
               then writeRelayStore pubkey
                      (CachedRelays.mk (relayTags event) (Event.created_at event))
                      (cache_set pubkey (relayTags event) c)
               else cache_set pubkey (relayTags event) c)) ∨
  ((∀ event, net pubkey = FetchEvent event →
             relayTags event = [] ∨ (Event.created_at event ≤ knownAt)%Z) ∧
   fetchRelaysFromNetwork net pubkey knownAt persist c =
     match inboxRelayCache c !! pubkey with
     | Some cached => (cached, c)
     | None =>
         (fallbackRelays,
          if persist
          then writeRelayStore pubkey (CachedRelays.mk fallbackRelays 0)
                 (cache_set pubkey fallbackRelays c)
          else cache_set pubkey fallbackRelays c)
     end).
Proof.
  unfold fetchRelaysFromNetwork.
  destruct (net pubkey) as [| | event]; simpl.
  1,2: right; split; [done |]; by destruct (inboxRelayCache c !! pubkey), persist.
  destruct (bool_decide (0 < length (relayTags event))) eqn:Hlen; simpl.
  - apply bool_decide_eq_true in Hlen.
    assert (relayTags event ≠ []) by (intros Heq; rewrite Heq in Hlen; simpl in Hlen; lia).
    destruct (bool_decide (knownAt < Event.created_at event)%Z) eqn:Hnew; simpl.
    + apply bool_decide_eq_true in Hnew. left. exists event. by destruct persist.
    + apply bool_decide_eq_false in Hnew. right. split.
      * intros ? [= <-]. right. lia.
      * by destruct (inboxRelayCache c !! pubkey), persist.
  - apply bool_decide_eq_false in Hlen. right. split.
    + intros ? [= <-]. left. destruct (relayTags event); [done | simpl in Hlen; lia].
    + by destruct (inboxRelayCache c !! pubkey), persist.
Qed.

(** X9: stale-while-revalidate.  With nothing in session memory and a stored
    list, a persisting lookup returns the stored list whatever the network
    says.  Afterwards memory and store hold the network's list when its
    event has a relay tag and is strictly newer than the stored one; in every
    other case (no answer, an error, no relay tag, not newer) the stored list
    is in memory and the store is untouched. *)
Theorem fetchInboxRelays_stale_while_revalidate net pubkey c stored :
  inboxRelayCache c !! pubkey = None →
  readRelayStore pubkey c = Some stored →
  (fetchInboxRelays net pubkey true c).1 = CachedRelays.relays stored ∧
  ((∃ event, net pubkey = FetchEvent event ∧ relayTags event ≠ [] ∧
             (CachedRelays.created_at stored < Event.created_at event)%Z ∧
             inboxRelayCache (fetchInboxRelays net pubkey true c).2 !! pubkey
               = Some (relayTags event) ∧
             readRelayStore pubkey (fetchInboxRelays net pubkey true c).2
               = Some (CachedRelays.mk (relayTags event) (Event.created_at event))) ∨
   ((∀ event, net pubkey = FetchEvent event →
              relayTags event = [] ∨
              (Event.created_at event ≤ CachedRelays.created_at stored)%Z) ∧
    inboxRelayCache (fetchInboxRelays net pubkey true c).2 !! pubkey
      = Some (CachedRelays.relays stored) ∧
    relayStore (fetchInboxRelays net pubkey true c).2 = relayStore c)).
Proof.
  intros Hmiss Hstored. unfold fetchInboxRelays. rewrite Hmiss, Hstored. cbn [fst snd].
  split; [done |].
  destruct (fetchRelaysFromNetwork_cases net pubkey (CachedRelays.created_at stored) true
              (cache_set pubkey (CachedRelays.relays stored) c))
    as [(event & Hev & Hne & Hnew & ->) | [Hold ->]].
  - left. exists event. unfold readRelayStore. simpl. by rewrite !lookup_insert_eq.
  - right. split; [done |]. simpl. rewrite lookup_insert_eq. simpl.
    by rewrite lookup_insert_eq.
Qed.

Lemma fetchInboxRelays_stale_while_revalidate_witness :
  (fetchInboxRelays (λ _, FetchThrows) "02a1" true
     {| inboxRelayCache := ∅;
        relayStore := {["02a1" := CachedRelays.mk ["wss://a.example/"] 1690000000]} |}).1
  = ["wss://a.example/"].
Proof.
  exact (proj1 (fetchInboxRelays_stale_while_revalidate (λ _, FetchThrows) "02a1"
                  {| inboxRelayCache := ∅;
                     relayStore := {["02a1" := CachedRelays.mk ["wss://a.example/"] 1690000000]} |}
                  (CachedRelays.mk ["wss://a.example/"] 1690000000) eq_refl eq_refl)).
Defined.

Lemma fetchInboxRelays_cold_cases net pubkey persist c :
  inboxRelayCache c !! pubkey = None →
  (persist = true → readRelayStore pubkey c = None) →
  ∃ relays created_at,
    ((∃ event, net pubkey = FetchEvent event ∧ relayTags event ≠ [] ∧
               (0 < Event.created_at event)%Z ∧
               relays = relayTags event ∧ created_at = Event.created_at event) ∨
     ((∀ event, net pubkey = FetchEvent event →
                relayTags event = [] ∨ (Event.created_at event ≤ 0)%Z) ∧
      relays = ["wss://relay.damus.io/"] ∧ created_at = 0%Z)) ∧
    (fetchInboxRelays net pubkey persist c).1 = relays ∧
    inboxRelayCache (fetchInboxRelays net pubkey persist c).2 !! pubkey = Some relays ∧
    readRelayStore pubkey (fetchInboxRelays net pubkey persist c).2
      = if persist then Some (CachedRelays.mk relays created_at)
        else readRelayStore pubkey c.
Proof.
  intros Hmiss Hstore. unfold fetchInboxRelays. rewrite Hmiss.
  assert ((if persist then readRelayStore pubkey c else None) = None) as ->.
  { destruct persist; [by apply Hstore | done]. }
  destruct (fetchRelaysFromNetwork_cases net pubkey 0 persist c)
    as [(event & Hev & Hne & Hnew & ->) | [Hold ->]].
  - exists (relayTags event), (Event.created_at event). split; [left; by exists event |].
    unfold readRelayStore. destruct persist; simpl; by rewrite !lookup_insert_eq.
  - rewrite Hmiss. exists ["wss://relay.damus.io/"], 0%Z. split; [by right |].
    unfold readRelayStore. destruct persist; simpl; by rewrite !lookup_insert_eq.
Qed.

(** X10: a cold lookup (nothing in memory, and nothing stored or no
    persistence) returns the relay tags of the network's event when there is
    at least one and the event is dated after 0, and the damus fallback in
    every other case; the answer is cached, and stored when persistence is on,
    the fallback with timestamp 0 so that any dated list replaces it. *)
Theorem fetchInboxRelays_cold net pubkey persist c :
  inboxRelayCache c !! pubkey = None →
  (persist = true → readRelayStore pubkey c = None) →
  ∃ relays created_at,
    ((∃ event, net pubkey = FetchEvent event ∧ relayTags event ≠ [] ∧
               (0 < Event.created_at event)%Z ∧
               relays = relayTags event ∧ created_at = Event.created_at event) ∨
     ((∀ event, net pubkey = FetchEvent event →
                relayTags event = [] ∨ (Event.created_at event ≤ 0)%Z) ∧
      relays = ["wss://relay.damus.io/"] ∧ created_at = 0%Z)) ∧
    (fetchInboxRelays net pubkey persist c).1 = relays ∧
    inboxRelayCache (fetchInboxRelays net pubkey persist c).2 !! pubkey = Some relays ∧
    readRelayStore pubkey (fetchInboxRelays net pubkey persist c).2
      = if persist then Some (CachedRelays.mk relays created_at)
        else readRelayStore pubkey c.
Proof. apply fetchInboxRelays_cold_cases. Qed.

Lemma fetchInboxRelays_cold_witness :
  (fetchInboxRelays (λ _, FetchNull) "02b0" false
     {| inboxRelayCache := ∅; relayStore := ∅ |}).1 = ["wss://relay.damus.io/"].
Proof.
  destruct (fetchInboxRelays_cold (λ _, FetchNull) "02b0" false
              {| inboxRelayCache := ∅; relayStore := ∅ |})
    as (relays & created_at & Hcase & Hres & _); [reflexivity | discriminate |].
  destruct Hcase as [(event & Hev & _) | (_ & -> & _)]; [discriminate | exact Hres].
Defined.

End ResolverTiers.

(** ** Publishing one's relay list and reading it back *)

Section RelayList.
Context `{P : Primitives}.

Lemma relayTags_of_relays tags kind created_at content pubkey id sig relays :
  tags = (λ r, ["relay"; r]) <$> relays →
  relayTags (Event.mk kind created_at tags content pubkey id sig) = relays.
Proof.
  intros ->. unfold relayTags. simpl.
  induction relays as [| r relays IH]; [done |].
  rewrite fmap_cons, filter_cons_True by done. rewrite fmap_cons. simpl. by f_equal.
Qed.

(** X11: the relay list a key-holding signer publishes reads back as the
    list that was given, in order: the event goes to every default relay,
    is of kind 10050 and authored by the user, and a cold lookup of the
    user's inbox relays that finds it returns the published list, provided
    the list is not empty and the clock is past 0. *)
Theorem publishInboxRelays_read_back (sk : SecretKey) canEncrypt canDecrypt nonce
    defaultRelays now relays w net persist c :
  ∃ event,
    publishInboxRelays (Ok (keySigner sk canEncrypt canDecrypt nonce)) defaultRelays now
      relays w
    = (Ok tt, {| caches := caches w;
                 published := published w ++ pool_publish defaultRelays event |}) ∧
    Event.kind event = 10050%Z ∧ Event.pubkey event = getPublicKey sk ∧
    Event.created_at event = now ∧
    relayTags event = relays ∧
    (relays ≠ [] → (0 < now)%Z →
     net (getPublicKey sk) = FetchEvent event →
     inboxRelayCache c !! getPublicKey sk = None →
     (persist = true → readRelayStore (getPublicKey sk) c = None) →
     (fetchInboxRelays net (getPublicKey sk) persist c).1 = relays).
Proof.
  eexists. split; [reflexivity |]. split; [done |]. split; [done |]. split; [done |].
  assert (Htags : ∀ e, Event.tags e = (λ r, ["relay"; r]) <$> relays → relayTags e = relays).
  { intros [] Ht. by apply relayTags_of_relays. }
  split; [by apply Htags |].
  intros Hne Hnow Hnet Hmiss Hstore.
  destruct (fetchInboxRelays_cold_cases net (getPublicKey sk) persist c Hmiss Hstore)
    as (rs & created_at & Hcase & -> & _).
  destruct Hcase as [(event & Hev & _ & _ & -> & _) | (Hold & _)].
  - rewrite Hnet in Hev. injection Hev as <-. by apply Htags.
  - destruct (Hold _ Hnet) as [Hnil | Hle].
    + rewrite Htags in Hnil by done. done.
    + simpl in Hle. lia.
Qed.

End RelayList.

Section RelayListWitness.
Import Mock Scenario.

Lemma publishInboxRelays_read_back_witness :
  ∃ event,
    (publishInboxRelays (Ok aliceSigner) someDefaultRelays 1700000000 [relayC] coldWorld).2
    = {| caches := caches coldWorld; published := pool_publish someDefaultRelays event |} ∧
    (fetchInboxRelays (λ _, FetchEvent event) alicePub true (caches coldWorld)).1 = [relayC].
Proof.
  destruct (@publishInboxRelays_read_back primitives aliceKey true true "n-a"
              someDefaultRelays 1700000000 [relayC] coldWorld
              (λ _, FetchEvent
                      (@finalizeEvent primitives
                         (UnsignedEvent.mk 10050 1700000000 [["relay"; relayC]] "" alicePub)
                         aliceKey))
              true (caches coldWorld))
    as (event & Hpub & _ & _ & _ & _ & Hread).
  exists event. split.
  - unfold aliceSigner. rewrite Hpub. reflexivity.
  - injection Hpub as <-.
    apply Hread; [discriminate | reflexivity | reflexivity | reflexivity | reflexivity].
Defined.

End RelayListWitness.

(** ** Sending: what goes out, to whom, and what a failure leaves behind *)

Section SendShape.
Context `{P : Primitives}.

Lemma prepare_inv getSigner net recipientPubkey w signer senderPubkey ri si w' :
  prepare getSigner net recipientPubkey w = (Ok (signer, senderPubkey, ri, si), w') →
  getSigner = Ok signer ∧ signer_getPublicKey signer = Ok senderPubkey ∧
  ri = (fetchInboxRelays net recipientPubkey false (caches w)).1 ∧
  si = (fetchInboxRelays net senderPubkey true
          (fetchInboxRelays net recipientPubkey false (caches w)).2).1 ∧
  w' = {| caches := (fetchInboxRelays net senderPubkey true
                       (fetchInboxRelays net recipientPubkey false (caches w)).2).2;
          published := published w |}.
Proof.
  unfold prepare. destruct getSigner as [s |]; [| done].
  destruct (signer_getPublicKey s) as [spk |] eqn:Hpk; [| done].
  destruct (fetchInboxRelays net recipientPubkey false (caches w)) as [ri0 c0].
  destruct (fetchInboxRelays net spk true c0) as [si0 c1] eqn:Hs.
  intros [= <- <- <- <- <-]. simpl. by rewrite Hs.
Qed.

(** A successful [wrapAndSendDM], taken apart. *)
Lemma wrapAndSendDM_inv getSigner net defaultRelays now dr ds recipientPubkey content
    privateKey replyToId w res w' :
  wrapAndSendDM getSigner net defaultRelays now dr ds recipientPubkey content
    privateKey replyToId w = (Ok res, w') →
  ∃ signer senderPubkey wrapR wrapS,
    let ri := fetchInboxRelays net recipientPubkey false (caches w) in
    let si := fetchInboxRelays net senderPubkey true ri.2 in
    let rumor := createRumor now senderPubkey recipientPubkey content replyToId 14 [] in
    getSigner = Ok signer ∧ signer_getPublicKey signer = Ok senderPubkey ∧
    SendResult.rumor res = rumor ∧
    wrapFor (backendOf signer privateKey) rumor recipientPubkey dr = Ok wrapR ∧
    wrapFor (backendOf signer privateKey) rumor senderPubkey ds = Ok wrapS ∧
    SendResult.retryWraps res =
      [(wrapR, Js.array_from_set (ri.1 ++ defaultRelays));
       (wrapS, Js.array_from_set (si.1 ++ defaultRelays))] ∧
    SendResult.publishes res = (publishWraps (SendResult.retryWraps res)).2 ∧
    w' = {| caches := si.2;
            published := published w ++ (publishWraps (SendResult.retryWraps res)).1 |}.
Proof.
  unfold wrapAndSendDM. intros H.
  destruct (prepare getSigner net recipientPubkey w)
    as [[[[[signer spk] ri] si] | e] w0] eqn:Hprep; [| done].
  apply prepare_inv in Hprep as (-> & Hpk & -> & -> & ->).
  exists signer, spk.
  match type of H with
  | (match ?body with _ => _ end) = _ => destruct body as [wraps | e] eqn:Hwraps; [| done]
  end.
  destruct (publishWraps wraps) as [ops relayMap] eqn:Hpw.
  injection H as <- <-. cbn [SendResult.rumor SendResult.retryWraps SendResult.publishes].
  unfold backendOf, wrapFor.
  destruct (given privateKey) as [k |].
  - destruct (hexToBytes k) as [sk |]; simpl in Hwraps; [| done].
    destruct (createGiftWrapLocal sk _ recipientPubkey dr) as [wrapR |] eqn:HR;
      simpl in Hwraps; [| done].
    destruct (createGiftWrapLocal sk _ spk ds) as [wrapS |] eqn:HS; simpl in Hwraps; [| done].
    injection Hwraps as <-. exists wrapR, wrapS. cbn zeta. rewrite Hpw.
    repeat split; first [done | exact HR | exact HS].
  - destruct (nip44Encrypt signer) eqn:Hcap; [| done].
    destruct (createGiftWrapForSigner signer _ recipientPubkey dr) as [wrapR |] eqn:HR;
      simpl in Hwraps; [| done].
    destruct (createGiftWrapForSigner signer _ spk ds) as [wrapS |] eqn:HS;
      simpl in Hwraps; [| done].
    injection Hwraps as <-. exists wrapR, wrapS. cbn zeta. rewrite Hpw.
    repeat split; first [done | exact HR | exact HS].
Qed.

Lemma wrapAndSendDM_throws getSigner net defaultRelays now dr ds recipientPubkey content
    privateKey replyToId w e w' :
  wrapAndSendDM getSigner net defaultRelays now dr ds recipientPubkey content
    privateKey replyToId w = (Throw e, w') →
  published w' = published w.
Proof.
  unfold wrapAndSendDM. intros H.
  pose proof (prepare_published getSigner net recipientPubkey w) as Hpub.
  destruct (prepare getSigner net recipientPubkey w) as [[[[[signer spk] ri] si] | e0] w0].
  - match type of H with
    | (match ?body with _ => _ end) = _ => destruct body as [wraps | e1]
    end.
    + by destruct (publishWraps wraps).
    + by injection H as <- <-.
  - by injection H as <- <-.
Qed.

Lemma sendMessage_throws user getSigner net defaultRelays now dr ds
    recipientPubkey content replyToId w st e w' st' :
  sendMessage user getSigner net defaultRelays now dr ds recipientPubkey content
    replyToId w st = (Throw e, w', st') →
  published w' = published w ∧ st' = st.
Proof.
  unfold sendMessage. destruct user as [u |]; [| by intros [= <- <- <-]].
  destruct (wrapAndSendDM getSigner net defaultRelays now dr ds recipientPubkey content
              (user_privateKey u) replyToId w) as [[res | e0] w0] eqn:Hsend; [done |].
  intros [= <- <- <-]. split; [| done]. by eapply wrapAndSendDM_throws.
Qed.

(** X12: sending a message is all or nothing.  When [sendMessage] throws
    (nobody logged in, no signer, a relay-independent failure while building
    either wrap), nothing was handed to the pool and the conversation state
    is untouched: no wrap is published before both are built. *)
Theorem sendMessage_all_or_nothing user getSigner net defaultRelays now dr ds
    recipientPubkey content replyToId w st e w' st' :
  sendMessage user getSigner net defaultRelays now dr ds recipientPubkey content
    replyToId w st = (Throw e, w', st') →
  published w' = published w ∧ st' = st.
Proof. apply sendMessage_throws. Qed.

(** X13: a reaction is not all or nothing.  When [sendReaction] throws, the
    conversation state is untouched, and either nothing was published, or
    the delegated signer built the recipient's wrap, which is out on the
    recipient's relays, and failed on the sender's copy.  With a raw key
    nothing is ever published by a failed call. *)
Theorem sendReaction_failure user getSigner net defaultRelays now dr ds
    recipientPubkey emoji messageId w st e w' st' :
  sendReaction user getSigner net defaultRelays now dr ds recipientPubkey emoji
    messageId w st = (Throw e, w', st') →
  st' = st ∧
  (published w' = published w ∨
   ∃ u signer senderPubkey recipientWrap,
     let rumor := createRumor now senderPubkey recipientPubkey emoji None 7
                    [["e"; messageId]] in
     let ri := fetchInboxRelays net recipientPubkey false (caches w) in
     user = Some u ∧ given (user_privateKey u) = None ∧
     getSigner = Ok signer ∧ signer_getPublicKey signer = Ok senderPubkey ∧
     createGiftWrapForSigner signer rumor recipientPubkey dr = Ok recipientWrap ∧
     createGiftWrapForSigner signer rumor senderPubkey ds = Throw e ∧
     published w' = published w
                    ++ pool_publish (Js.array_from_set (ri.1 ++ defaultRelays)) recipientWrap).
Proof.
  unfold sendReaction. destruct user as [u |]; [| intros [= <- <- <-]; by split; [| left]].
  destruct (wrapAndSendReaction getSigner net defaultRelays now dr ds recipientPubkey emoji
              messageId (user_privateKey u) w) as [[rumor | e0] w0] eqn:Hsend; [done |].
  intros [= <- <- <-]. split; [done |].
  unfold wrapAndSendReaction in Hsend.
  pose proof (prepare_published getSigner net recipientPubkey w) as Hpub.
  destruct (prepare getSigner net recipientPubkey w)
    as [[[[[signer spk] ri] si] | e1] w1] eqn:Hprep.
  2: { injection Hsend as <- <-. by left. }
  apply prepare_inv in Hprep as (-> & Hpk & -> & -> & ->). simpl in Hpub.
  destruct (given (user_privateKey u)) as [k |] eqn:Hk.
  - left.
    match type of Hsend with
    | (match ?body with _ => _ end) = _ => destruct body as [[wr ws] | e1]
    end; [done |]. by injection Hsend as <- <-.
  - destruct (nip44Encrypt signer); [| injection Hsend as <- <-; by left].
    destruct (createGiftWrapForSigner signer _ recipientPubkey dr) as [recipientWrap |]
      eqn:HwR; [| injection Hsend as <- <-; by left].
    destruct (createGiftWrapForSigner signer _ spk ds) as [senderWrap |] eqn:HwS; [done |].
    injection Hsend as <- <-. right.
    exists u, signer, spk, recipientWrap. cbn zeta. by repeat split.
Qed.

Lemma elem_of_foldl_relayMap_add event relayMap rs p :
  p ∈ foldl (relayMap_add event) relayMap rs →
  p ∈ relayMap ∨
  (p = RelayPublish.mk (RelayPublish.relay p) (RelayPublish.relay p, event) ∧
   RelayPublish.relay p ∈ rs ∧ RelayPublish.relay p ∉ RelayPublish.relay <$> relayMap).
Proof.
  revert relayMap. induction rs as [| r rs IH]; intros relayMap; simpl; [by left |].
  intros Hp. apply IH in Hp as [Hp | (Heq & Hin & Hnot)].
  - unfold relayMap_add in Hp. case_decide as Hr; [by left |].
    apply elem_of_app in Hp as [Hp | Hp]; [by left |].
    apply list_elem_of_singleton in Hp as ->. right. simpl.
    split; [done |]. split; [apply list_elem_of_here | done].
  - right. split; [done |]. split; [by apply list_elem_of_further |].
    intros Hin'. apply Hnot. unfold relayMap_add. case_decide; [done |].
    rewrite fmap_app. apply elem_of_app. by left.
Qed.

(** X14: the promise tracked for a relay is the publish of the recipient's
    wrap when the relay is in the recipient's set, and of the sender's copy
    only otherwise: on a relay both sets share, the delivery status shown is
    the recipient wrap's, and the publish of the self-copy there is not
    tracked. *)
Theorem wrapAndSendDM_tracks_recipient_wrap_first getSigner net defaultRelays now dr ds
    recipientPubkey content privateKey replyToId w res w' :
  wrapAndSendDM getSigner net defaultRelays now dr ds recipientPubkey content
    privateKey replyToId w = (Ok res, w') →
  ∃ wrapR wrapS recipientRelays senderRelays,
    SendResult.retryWraps res = [(wrapR, recipientRelays); (wrapS, senderRelays)] ∧
    ∀ p, p ∈ SendResult.publishes res →
      RelayPublish.promise p
        = (RelayPublish.relay p,
           if decide (RelayPublish.relay p ∈ recipientRelays) then wrapR else wrapS) ∧
      RelayPublish.promise p ∈ published w'.
Proof.
  intros H. apply wrapAndSendDM_inv in H
    as (signer & spk & wrapR & wrapS & _ & _ & _ & _ & _ & Hwraps & Hpubs & ->).
  cbn zeta in *. eexists wrapR, wrapS, _, _. split; [exact Hwraps |].
  intros p Hp. rewrite Hpubs, Hwraps in Hp. cbn [published].
  rewrite Hwraps. unfold publishWraps in *. cbn [foldl fst snd] in *.
  apply elem_of_foldl_relayMap_add in Hp as [Hp | (Heq & Hin & Hnot)].
  - apply elem_of_foldl_relayMap_add in Hp as [Hp | (Heq & Hin & _)];
      [by apply elem_of_nil in Hp |].
    rewrite decide_True by done. rewrite Heq at 1. split; [done |].
    rewrite Heq at 1. cbn [RelayPublish.promise].
    apply elem_of_app. right. apply elem_of_app. left. apply elem_of_app. right.
    unfold pool_publish. apply list_elem_of_fmap. eauto.
  - rewrite relays_foldl_relayMap_add in Hnot. cbn [fmap list_fmap] in Hnot.
    rewrite decide_False
      by (intros Hr; apply Hnot; by apply (elem_of_array_from_set _ (Js.array_from_set _))).
    rewrite Heq at 1. split; [done |]. rewrite Heq at 1. cbn [RelayPublish.promise].
    apply elem_of_app. right. apply elem_of_app. right.
    unfold pool_publish. apply list_elem_of_fmap. eauto.
Qed.

End SendShape.

Section SendShapeWitness.
Import Mock Scenario Scenario2.

Lemma sendMessage_all_or_nothing_witness :
  ∃ e w' st',
    sendMessage (Some aliceDelegated) (Ok encryptlessSigner) noRelayLists someDefaultRelays
      1700000000 (draws "e1") (draws "e2") bobPub "hi" None coldWorld freshDM
    = (Throw e, w', st') ∧
    published w' = [] ∧ st' = freshDM.
Proof.
  destruct (sendMessage (Some aliceDelegated) (Ok encryptlessSigner) noRelayLists
              someDefaultRelays 1700000000 (draws "e1") (draws "e2") bobPub "hi" None
              coldWorld freshDM) as [[[res | e] w'] st'] eqn:H;
    [exfalso; vm_compute in H; discriminate |].
  exists e, w', st'. split; [reflexivity |].
  exact (@sendMessage_all_or_nothing primitives _ _ _ _ _ _ _ _ _ _ _ _ _ _ _ H).
Defined.

(** The recipient's wrap of a reaction is out, the sender's copy was
    refused: the call throws with the wrap handed to two relays and no local echo. *)
Lemma sendReaction_failure_witness :
  ∃ e w' st',
    sendReaction (Some aliceDelegated) (Ok bobOnlySigner) noRelayLists someDefaultRelays
      1700000100 (draws "e1") (draws "e2") bobPub "+" (Rumor.id hi) coldWorld freshDM
    = (Throw e, w', st') ∧
    st' = freshDM ∧ length (published w') = 2.
Proof.
  destruct (sendReaction (Some aliceDelegated) (Ok bobOnlySigner) noRelayLists
              someDefaultRelays 1700000100 (draws "e1") (draws "e2") bobPub "+" (Rumor.id hi)
              coldWorld freshDM) as [[[res | e] w'] st'] eqn:H;
    [exfalso; vm_compute in H; discriminate |].
  exists e, w', st'. split; [reflexivity |]. split.
  - exact (proj1 (@sendReaction_failure primitives _ _ _ _ _ _ _ _ _ _ _ _ _ _ _ H)).
  - vm_compute in H. injection H as _ <- _. reflexivity.
Defined.

Lemma wrapAndSendDM_tracks_recipient_wrap_first_witness :
  ∃ res w' wrapR wrapS,
    sendABC = (Ok res, w') ∧
    SendResult.retryWraps res = [(wrapR, [relayA; relayB]); (wrapS, [relayC; relayB])] ∧
    ∀ p, p ∈ SendResult.publishes res →
      RelayPublish.promise p
      = (RelayPublish.relay p,
         if decide (RelayPublish.relay p ∈ [relayA; relayB]) then wrapR else wrapS).
Proof.
  destruct sendABC as [[res | e] w'] eqn:H; [| exfalso; vm_compute in H; discriminate].
  destruct (@wrapAndSendDM_tracks_recipient_wrap_first primitives _ _ _ _ _ _ _ _ _ _ _ _ _ H)
    as (wrapR & wrapS & rr & sr & Hwraps & Htracked).
  assert (Hrr : rr = [relayA; relayB] ∧ sr = [relayC; relayB]).
  { vm_compute in H. injection H as <- _. vm_compute in Hwraps.
    injection Hwraps as _ <- _ <-. by split. }
  destruct Hrr as [-> ->].
  exists res, w', wrapR, wrapS. split; [reflexivity |]. split; [exact Hwraps |].
  intros p Hp. exact (proj1 (Htracked p Hp)).
Defined.

End SendShapeWitness.

Section Delivery.
Context `{P : Primitives} {L : PrimitiveLaws P}.

(** X15: what is sent arrives.  With a backend that holds the sender's
    key, [wrapAndSendDM] succeeds whatever the relay lookups return, its
    rumor is a kind-14 event by the sender, and of the two wraps it builds
    the first unwraps to that rumor for the recipient and the second for the
    sender, with a raw key or a signer on either side. *)
Theorem wrapAndSendDM_reaches_both_parties (ssk rsk : SecretKey) signer privateKey
    toRecipient toSender net defaultRelays now dr ds content replyToId w :
  signer_getPublicKey signer = Ok (getPublicKey ssk) →
  sendsAs (backendOf signer privateKey) ssk →
  receivesAs toRecipient rsk →
  receivesAs toSender ssk →
  ∃ res w' wrapR wrapS recipientRelays senderRelays,
    wrapAndSendDM (Ok signer) net defaultRelays now dr ds (getPublicKey rsk) content
      privateKey replyToId w = (Ok res, w') ∧
    SendResult.rumor res
      = createRumor now (getPublicKey ssk) (getPublicKey rsk) content replyToId 14 [] ∧
    SendResult.retryWraps res = [(wrapR, recipientRelays); (wrapS, senderRelays)] ∧
    unwrapAs toRecipient wrapR = Ok (Some (SendResult.rumor res)) ∧
    unwrapAs toSender wrapS = Ok (Some (SendResult.rumor res)).
Proof.
  intros Hpk Hs Hr Hself.
  destruct (prepare_ok signer _ net (getPublicKey rsk) w Hpk) as (ri & si & w0 & Hprep).
  set (rumor := createRumor now (getPublicKey ssk) (getPublicKey rsk) content replyToId 14 []).
  destruct (wrapFor_opens _ ssk rsk rumor dr Hs) as (wrapR & sealR & HwR & HoR & HpkR).
  destruct (wrapFor_opens _ ssk ssk rumor ds Hs) as (wrapS & sealS & HwS & HoS & HpkS).
  assert (Hwraps :
    match given privateKey with
    | Some privateKey =>
        privkeyBytes ← orThrow InvalidKey (hexToBytes privateKey);
        wrapForRecipient ← createGiftWrapLocal privkeyBytes rumor (getPublicKey rsk) dr;
        wrapForSender ← createGiftWrapLocal privkeyBytes rumor (getPublicKey ssk) ds;
        Ok [(wrapForRecipient, Js.array_from_set (ri ++ defaultRelays));
            (wrapForSender, Js.array_from_set (si ++ defaultRelays))]
    | None =>
        match nip44Encrypt signer with
        | None => Throw (CapabilityError dmCapabilityMessage)
        | Some _ =>
            recipientWrap ← createGiftWrapForSigner signer rumor (getPublicKey rsk) dr;
            senderWrap ← createGiftWrapForSigner signer rumor (getPublicKey ssk) ds;
            Ok [(recipientWrap, Js.array_from_set (ri ++ defaultRelays));
                (senderWrap, Js.array_from_set (si ++ defaultRelays))]
        end
    end = Ok [(wrapR, Js.array_from_set (ri ++ defaultRelays));
              (wrapS, Js.array_from_set (si ++ defaultRelays))]).
  { unfold backendOf in *. destruct (given privateKey) as [k |]; simpl in *.
    - destruct Hs as [_ Hk]. rewrite Hk in *. simpl in *. by rewrite HwR, HwS.
    - destruct Hs as (canDecrypt & nonce & ->). cbn [nip44Encrypt keySigner].
      by rewrite HwR, HwS. }
  set (wraps := [(wrapR, Js.array_from_set (ri ++ defaultRelays));
                 (wrapS, Js.array_from_set (si ++ defaultRelays))]) in *.
  exists (SendResult.mk rumor (publishWraps wraps).2 wraps),
         {| caches := caches w0; published := published w0 ++ (publishWraps wraps).1 |},
         wrapR, wrapS, (Js.array_from_set (ri ++ defaultRelays)),
         (Js.array_from_set (si ++ defaultRelays)).
  split.
  { unfold wrapAndSendDM. rewrite Hprep.
    match goal with
    | |- (match ?body with Ok _ => _ | Throw _ => _ end) = _ =>
        assert (Hbody : body = Ok wraps) by exact Hwraps; rewrite Hbody
    end.
    by destruct (publishWraps wraps). }
  cbn [SendResult.rumor SendResult.retryWraps]. split; [done |]. split; [done |].
  split.
  - by apply (unwrapAs_opens toRecipient rsk wrapR sealR).
  - by apply (unwrapAs_opens toSender ssk wrapS sealS).
Qed.

End Delivery.

Section DeliveryWitness.
Import Mock Scenario.

Lemma wrapAndSendDM_reaches_both_parties_witness :
  ∃ res w' wrapR wrapS recipientRelays senderRelays,
    wrapAndSendDM (Ok aliceSigner) noRelayLists someDefaultRelays 1700000000
      (draws "e1") (draws "e2") bobPub "hi" None None coldWorld = (Ok res, w') ∧
    SendResult.rumor res = hi ∧
    SendResult.retryWraps res = [(wrapR, recipientRelays); (wrapS, senderRelays)] ∧
    unwrapAs (RawKey bobKey) wrapR = Ok (Some (SendResult.rumor res)) ∧
    unwrapAs (Delegated aliceSigner) wrapS = Ok (Some (SendResult.rumor res)).
Proof.
  apply (@wrapAndSendDM_reaches_both_parties primitives MockLaws.laws aliceKey bobKey
           aliceSigner None (RawKey bobKey) (Delegated aliceSigner)).
  - reflexivity.
  - exists true, "n-a". reflexivity.
  - split; reflexivity.
  - exists true, "n-a". reflexivity.
Defined.

End DeliveryWitness.

(** ** The subscription and the self-copy *)

Section Subscription.
Context `{P : Primitives}.

Lemma fetchInboxRelays_keeps_cached net pubkey persist c other rs :
  inboxRelayCache c !! other = Some rs →
  inboxRelayCache (fetchInboxRelays net pubkey persist c).2 !! other = Some rs.
Proof.
  intros Hc. destruct (decide (other = pubkey)) as [-> | Hne].
  - unfold fetchInboxRelays. by rewrite Hc.
  - by rewrite (proj1 (proj2 (fetchInboxRelays_touches net pubkey persist c) other Hne)).
Qed.

(** X16: the self-copy of a message goes where the subscription listens.
    Whatever the relay caches hold when the subscription looks up the user's
    inbox relays and when a message is sent, the second wrap of the send is
    addressed to the user (a kind-1059 event p-tagged with the user's key, as
    the subscription filter asks) and published to each relay of its list,
    and every default relay is in that list and among the subscription's
    relays.  If the memory cache holds, when the send looks the relays up,
    the list the subscription was served, the two relay lists are equal. *)
Theorem self_copy_goes_where_subscription_listens net0 defaultRelays myPubkey c
    signer net now dr ds recipientPubkey content privateKey replyToId w res w' :
  signer_getPublicKey signer = Ok myPubkey →
  wrapAndSendDM (Ok signer) net defaultRelays now dr ds recipientPubkey content
    privateKey replyToId w = (Ok res, w') →
  let relaysToUse := (subscriptionRelays net0 defaultRelays myPubkey c).1 in
  ∃ wrapR wrapS recipientRelays senderRelays,
    SendResult.retryWraps res = [(wrapR, recipientRelays); (wrapS, senderRelays)] ∧
    Event.kind wrapS = 1059%Z ∧ Event.tags wrapS = [["p"; myPubkey]] ∧
    (∀ relay, relay ∈ senderRelays → (relay, wrapS) ∈ published w') ∧
    (∀ relay, relay ∈ defaultRelays → relay ∈ senderRelays ∧ relay ∈ relaysToUse) ∧
    (inboxRelayCache (caches w) !! myPubkey
       = Some (fetchInboxRelays net0 myPubkey false c).1 →
     senderRelays = relaysToUse).
Proof.
  intros Hpk Hsend relaysToUse.
  assert (HrelaysToUse : relaysToUse
            = Js.array_from_set ((fetchInboxRelays net0 myPubkey false c).1 ++ defaultRelays)).
  { unfold relaysToUse, subscriptionRelays.
    by destruct (fetchInboxRelays net0 myPubkey false c). }
  apply wrapAndSendDM_inv in Hsend
    as (signer' & spk & wrapR & wrapS & [= <-] & Hpk' & _ & _ & HwS & Hwraps & _ & ->).
  cbn zeta in *. rewrite Hpk in Hpk'. injection Hpk' as <-.
  apply wrapFor_envelope in HwS as (Hkind & Htags & _).
  eexists wrapR, wrapS, _, _. split; [exact Hwraps |]. split; [done |]. split; [done |].
  split; [| split].
  - intros relay Hrelay. cbn [published]. rewrite publishWraps_ops, Hwraps. simpl.
    apply elem_of_app. right. apply elem_of_app. right. rewrite app_nil_r.
    unfold pool_publish. apply list_elem_of_fmap. eauto.
  - intros relay Hrelay. rewrite HrelaysToUse, !elem_of_array_from_set, !elem_of_app. tauto.
  - intros Hhit. rewrite HrelaysToUse. do 2 f_equal.
    unfold fetchInboxRelays at 1.
    by rewrite (fetchInboxRelays_keeps_cached net recipientPubkey false (caches w)
                  myPubkey _ Hhit).
Qed.

End Subscription.

Section SubscriptionWitness.
Import Mock Scenario.

(** Alice's subscription is served her inbox relay and the default one; her
    later send finds that list in memory and publishes the self-copy there. *)
Lemma self_copy_goes_where_subscription_listens_witness :
  ∃ res w' wrapR wrapS recipientRelays,
    wrapAndSendDM (Ok aliceSigner) relayLists [relayB] 1700000000 (draws "e1") (draws "e2")
      bobPub "hi" (Some aliceKey) None
      {| caches := (subscriptionRelays relayLists [relayB] alicePub (caches coldWorld)).2;
         published := [] |} = (Ok res, w') ∧
    SendResult.retryWraps res = [(wrapR, recipientRelays); (wrapS, [relayC; relayB])] ∧
    (relayC, wrapS) ∈ published w' ∧ (relayB, wrapS) ∈ published w'.
Proof.
  destruct (wrapAndSendDM (Ok aliceSigner) relayLists [relayB] 1700000000 (draws "e1")
              (draws "e2") bobPub "hi" (Some aliceKey) None
              {| caches := (subscriptionRelays relayLists [relayB] alicePub
                              (caches coldWorld)).2;
                 published := [] |}) as [[res | e] w'] eqn:H;
    [| exfalso; vm_compute in H; discriminate].
  destruct (@self_copy_goes_where_subscription_listens primitives relayLists [relayB] alicePub
              (caches coldWorld) aliceSigner relayLists 1700000000 (draws "e1") (draws "e2")
              bobPub "hi" (Some aliceKey) None
              {| caches := (subscriptionRelays relayLists [relayB] alicePub
                              (caches coldWorld)).2;
                 published := [] |} res w')
    as (wrapR & wrapS & rr & sr & Hwraps & _ & _ & Hpub & _ & Hsame);
    [reflexivity | exact H |].
  assert (Hsr : sr = [relayC; relayB]) by (rewrite Hsame; reflexivity).
  subst sr.
  exists res, w', wrapR, wrapS, rr. split; [reflexivity |]. split; [exact Hwraps |].
  split; apply Hpub; [apply list_elem_of_here | apply list_elem_of_further, list_elem_of_here].
Defined.

End SubscriptionWitness.

(** ** Conversations in reachable states *)

Section Shape.

Lemma byCreatedAt_olderFirst a b : byCreatedAt a b = true ↔ olderFirst a b.
Proof. unfold byCreatedAt, olderFirst. rewrite bool_decide_eq_true. lia. Qed.

Lemma byCreatedAt_total a b : byCreatedAt a b = true ∨ byCreatedAt b a = true.
Proof. rewrite !byCreatedAt_olderFirst. unfold olderFirst. lia. Qed.

Lemma sort_byCreatedAt_Sorted l : Sorted olderFirst (Js.sort byCreatedAt l).
Proof.
  induction (sort_Sorted byCreatedAt byCreatedAt_total l) as [| x k _ IH Hhd];
    constructor; [done |].
  destruct Hhd as [| y k Hxy]; constructor. by apply byCreatedAt_olderFirst.
Qed.

Lemma insert_sorted_first {A} (le : A → A → bool) x l :
  (∀ y, head l = Some y → le x y = true) → Js.insert_sorted le x l = x :: l.
Proof. destruct l as [| y l]; simpl; [done |]. intros H. by rewrite H. Qed.

Lemma filter_all {A} (Q : A → Prop) `{∀ x, Decision (Q x)} l :
  Forall Q l → filter Q l = l.
Proof.
  induction 1 as [| x l Hx _ IH]; [done |]. by rewrite filter_cons_True, IH.
Qed.

Lemma filter_none {A} (Q : A → Prop) `{∀ x, Decision (Q x)} l :
  Forall (λ x, ¬ Q x) l → filter Q l = [].
Proof.
  induction 1 as [| x l Hx _ IH]; [done |]. by rewrite filter_cons_False.
Qed.

Lemma olderFirst_transitive : Transitive olderFirst.
Proof. unfold olderFirst. intros a b c. lia. Qed.

(** A message appended to a sorted list and sorted in lands behind every
    message that is not younger, the rest keeps its order. *)
Lemma sort_snoc_sorted l x :
  Sorted olderFirst l →
  Js.sort byCreatedAt (l ++ [x])
  = filter (λ m, DMMessage.created_at m ≤ DMMessage.created_at x)%Z l
    ++ x :: filter (λ m, DMMessage.created_at x < DMMessage.created_at m)%Z l.
Proof.
  intros Hs. apply Sorted_StronglySorted in Hs; [| exact olderFirst_transitive].
  induction Hs as [| y l Hs IH Hall]; [done |].
  simpl. rewrite IH. destruct (decide (DMMessage.created_at y ≤ DMMessage.created_at x)%Z)
    as [Hle | Hgt].
  - rewrite filter_cons_True by done. rewrite filter_cons_False by lia.
    apply insert_sorted_first. intros z Hz. apply byCreatedAt_olderFirst.
    destruct (filter _ l) as [| z' k] eqn:Hf; simpl in Hz; injection Hz as <-; [done |].
    assert (z' ∈ filter (λ m, DMMessage.created_at m ≤ DMMessage.created_at x)%Z l) as Hin
      by (rewrite Hf; apply list_elem_of_here).
    apply list_elem_of_filter in Hin as [_ Hin]. by eapply Forall_forall in Hall.
  - rewrite filter_cons_False by done. rewrite filter_cons_True by lia.
    assert (Hnone : filter (λ m, DMMessage.created_at m ≤ DMMessage.created_at x)%Z l = []).
    { apply filter_none. eapply Forall_impl; [exact Hall |].
      unfold olderFirst. intros z Hz. lia. }
    rewrite Hnone. simpl.
    assert (Hall' : filter (λ m, DMMessage.created_at x < DMMessage.created_at m)%Z l = l).
    { apply filter_all. eapply Forall_impl; [exact Hall |].
      unfold olderFirst. intros z Hz. lia. }
    rewrite Hall'. unfold byCreatedAt at 1. rewrite bool_decide_eq_false_2 by lia.
    f_equal. apply insert_sorted_first. intros z Hz. apply byCreatedAt_olderFirst.
    destruct l as [| z' k]; simpl in Hz; [done |]. injection Hz as <-.
    by inversion Hall.
Qed.

End Shape.

Section ShapeInvariant.

Lemma shaped_withNoUnread cid conv :
  shapedConversation cid conv → shapedConversation cid (withNoUnread conv).
Proof. intros []. by constructor. Qed.

Lemma shaped_withReactions cid conv reactions :
  shapedConversation cid conv → shapedConversation cid (withReactions conv reactions).
Proof. intros []. by constructor. Qed.

Lemma shaped_insert cid conv st (convs : gmap string Conversation.t) :
  convs !! cid = Some conv →
  shaped st →
  (∀ other c, other ≠ cid → convs !! other = Some c → conversations st !! other = Some c) →
  shapedConversation cid conv →
  ∀ cid' conv', convs !! cid' = Some conv' → shapedConversation cid' conv'.
Proof.
  intros Hcid Hst Hother Hconv cid' conv' Hc.
  destruct (decide (cid' = cid)) as [-> | Hne].
  - rewrite Hcid in Hc. by injection Hc as <-.
  - eapply Hst, Hother; done.
Qed.

Lemma existsb_hasId_false id l :
  existsb (hasId id) l = false → id ∉ DMMessage.id <$> l.
Proof.
  intros Hex Hin. apply list_elem_of_fmap in Hin as (m & -> & Hm).
  assert (existsb (hasId (DMMessage.id m)) l = true); [| congruence].
  apply existsb_exists. exists m. split; [by apply list_elem_of_In |].
  unfold hasId. by apply bool_decide_eq_true.
Qed.

Lemma shaped_first rumor wrapId unread reactions :
  shapedConversation (conversationIdOf rumor)
    (Conversation.mk (conversationIdOf rumor) (Js.split "+" (conversationIdOf rumor))
       [messageOf rumor wrapId] (Rumor.created_at rumor) unread reactions).
Proof.
  constructor; simpl; try done.
  - repeat constructor.
  - repeat constructor. by intros ?%elem_of_nil.
  - intros m ->%list_elem_of_singleton. split; [done | simpl; lia].
  - exists (messageOf rumor wrapId). split; [apply list_elem_of_here | done].
Qed.

Lemma shaped_next rumor wrapId existing unread :
  shapedConversation (conversationIdOf rumor) existing →
  existsb (hasId (Rumor.id rumor)) (Conversation.messages existing) = false →
  shapedConversation (conversationIdOf rumor)
    (Conversation.mk (Conversation.id existing) (Conversation.participants existing)
       (Js.sort byCreatedAt (Conversation.messages existing ++ [messageOf rumor wrapId]))
       (Z.max (Conversation.lastMessageAt existing) (Rumor.created_at rumor))
       unread (Conversation.reactions existing)).
Proof.
  intros [Hid Hparts Hne Hsorted Hdistinct Hmembers (last & Hlast & Hat)] Hnew.
  assert (Hperm : Js.sort byCreatedAt (Conversation.messages existing ++ [messageOf rumor wrapId])
                  ≡ₚ Conversation.messages existing ++ [messageOf rumor wrapId])
    by apply sort_Permutation.
  constructor; simpl; try done.
  - intros Hnil. rewrite Hnil in Hperm. apply Permutation_nil_l in Hperm.
    by destruct (Conversation.messages existing).
  - apply sort_byCreatedAt_Sorted.
  - rewrite Hperm, fmap_app. apply NoDup_app. split; [done |]. split.
    + intros id Hin ->%list_elem_of_singleton. by eapply existsb_hasId_false.
    + repeat constructor. by intros ?%elem_of_nil.
  - intros m. rewrite Hperm, elem_of_app, list_elem_of_singleton. intros [Hm | ->].
    + destruct (Hmembers m Hm). split; [done | lia].
    + split; [done | simpl; lia].
  - destruct (Z.max_spec (Conversation.lastMessageAt existing) (Rumor.created_at rumor))
      as [[_ ->] | [_ ->]].
    + exists (messageOf rumor wrapId). rewrite Hperm, elem_of_app, list_elem_of_singleton. eauto.
    + exists last. rewrite Hperm, elem_of_app. eauto.
Qed.

Lemma addReactionToConversation_shaped rumor myPubkey st :
  shaped st → shaped (addReactionToConversation rumor myPubkey st).
Proof.
  intros Hst. destruct (Js.truthy (targetMessageIdOf rumor)) eqn:Ht;
    [| by rewrite addReactionToConversation_no_target].
  rewrite addReactionToConversation_target by done. unfold shaped. cbn zeta.
  cbn [conversations].
  destruct (conversations st !! conversationIdOf rumor) as [existing |] eqn:Hex; [| done].
  destruct (existsb _ _); [done |].
  eapply (shaped_insert (conversationIdOf rumor));
    [apply lookup_insert_eq | done | intros other c Hne; by rewrite lookup_insert_ne |].
  apply shaped_withReactions. by apply Hst.
Qed.

Lemma addMessage_shaped rumor wrapId myPubkey st :
  shaped st → shaped (addMessage rumor wrapId myPubkey st).
Proof.
  intros Hst.
  destruct (decide (Rumor.id rumor ∈ seenRumorIds st)); [by rewrite addMessage_seen |].
  destruct (decide (Rumor.kind rumor = 7%Z)).
  { rewrite addMessage_fresh_reaction by done. by apply addReactionToConversation_shaped. }
  rewrite addMessage_fresh_dm by done. unfold shaped. cbn zeta. cbn [conversations].
  destruct (conversations st !! conversationIdOf rumor) as [existing |] eqn:Hex.
  - destruct (existsb _ _) eqn:Hnew; [done |].
    eapply (shaped_insert (conversationIdOf rumor));
      [apply lookup_insert_eq | done | intros other c Hne; by rewrite lookup_insert_ne |].
    apply shaped_next; [by apply Hst | done].
  - eapply (shaped_insert (conversationIdOf rumor));
      [apply lookup_insert_eq | done | intros other c Hne; by rewrite lookup_insert_ne |].
    apply shaped_first.
Qed.

Lemma markAsRead_shaped now cid st : shaped st → shaped (markAsRead now cid st).
Proof.
  intros Hst. unfold shaped, markAsRead. cbn [conversations setConversations setLastSeen].
  destruct (conversations st !! cid) as [conv |] eqn:Hc; [| done].
  case_bool_decide; [| done].
  eapply (shaped_insert cid);
    [apply lookup_insert_eq | done | intros other c Hne; by rewrite lookup_insert_ne |].
  apply shaped_withNoUnread. by apply Hst.
Qed.

Lemma markAllAsRead_shaped now st : shaped st → shaped (markAllAsRead now st).
Proof.
  intros Hst cid conv'. unfold markAllAsRead. cbn [conversations].
  rewrite lookup_fmap. destruct (conversations st !! cid) as [conv |] eqn:Hc; [| done].
  simpl. intros [= <-]. case_bool_decide; [apply shaped_withNoUnread |]; by apply Hst.
Qed.

Lemma reachable_shaped st : reachable st → shaped st.
Proof.
  induction 1 as [cache lastseen reactions Hr | rumor wrapId myPubkey st _ IH
                 | now cid st _ IH | now st _ IH | st _ IH].
  - intros cid conv. simpl. by rewrite lookup_empty.
  - by apply addMessage_shaped.
  - by apply markAsRead_shaped.
  - by apply markAllAsRead_shaped.
  - intros cid conv. simpl. by rewrite lookup_empty.
Qed.

(** X17: as long as every rumor handed to [addMessage] is a rumor object
    with all its fields ([Rumor.t]: string id, pubkey and content, numeric
    kind and timestamp, tags that are lists of strings), in every state of a
    session ([reachable]: rumors added, conversations marked read, logout)
    each conversation is filed under its own id, its participants are the id
    split at ["+"], it holds at least one message, its messages are in
    non-decreasing [created_at] order with pairwise distinct rumor ids,
    [lastMessageAt] is the greatest [created_at] among them, and each message
    whose p-tags all carry a value belongs to this conversation by its author
    and p-tags. *)
Theorem reachable_conversations_shaped st cid conv :
  reachable st →
  conversations st !! cid = Some conv →
  Conversation.id conv = cid ∧
  Conversation.participants conv = Js.split "+" cid ∧
  Conversation.messages conv ≠ [] ∧
  Sorted olderFirst (Conversation.messages conv) ∧
  NoDup (DMMessage.id <$> Conversation.messages conv) ∧
  (∀ m, m ∈ Conversation.messages conv →
     ((∀ t, t ∈ tagsNamed "p" (DMMessage.tags m) → (2 ≤ length t)%nat) →
      conversationOfMessage m = cid) ∧
     (DMMessage.created_at m ≤ Conversation.lastMessageAt conv)%Z) ∧
  (∃ m, m ∈ Conversation.messages conv ∧
        DMMessage.created_at m = Conversation.lastMessageAt conv).
Proof.
  intros Hreach Hc.
  destruct (reachable_shaped st Hreach cid conv Hc) as [? ? ? ? ? Hm ?].
  do 5 (split; [done |]). split; [| done].
  intros m Hin. destruct (Hm m Hin) as [Hcid Hle]. by split.
Qed.

(** X18: a new message is placed by its timestamp: behind every message of
    the conversation that is not younger, also behind those of the same
    second, and before the younger ones; the messages already there keep their
    order. *)
Theorem addMessage_position rumor wrapId myPubkey st existing :
  reachable st →
  Rumor.id rumor ∉ seenRumorIds st →
  Rumor.kind rumor ≠ 7%Z →
  conversations st !! conversationIdOf rumor = Some existing →
  ∃ conv,
    conversations (addMessage rumor wrapId myPubkey st) !! conversationIdOf rumor
      = Some conv ∧
    Conversation.messages conv
    = filter (λ m, DMMessage.created_at m ≤ Rumor.created_at rumor)%Z
        (Conversation.messages existing)
      ++ messageOf rumor wrapId
      :: filter (λ m, Rumor.created_at rumor < DMMessage.created_at m)%Z
           (Conversation.messages existing).
Proof.
  intros Hreach Hnew Hkind Hex.
  pose proof (reachable_wellFormed st Hreach) as Hwf.
  pose proof (reachable_shaped st Hreach _ _ Hex) as Hshape.
  rewrite addMessage_fresh_dm by done. cbn zeta. cbn [conversations]. rewrite Hex.
  rewrite (unseen_not_in_messages st _ existing) by done.
  rewrite lookup_insert_eq. eexists. split; [reflexivity |].
  cbn [Conversation.messages]. by rewrite sort_snoc_sorted by apply Hshape.
Qed.

End ShapeInvariant.

(** ** Read markers *)

Section ReadMarkers.

Lemma foldl_unread_zero l acc :
  Forall (λ c, Conversation.unreadCount c = 0%Z) l →
  foldl (λ sum c, (sum + Conversation.unreadCount c)%Z) acc l = acc.
Proof.
  intros Hall. revert acc. induction Hall as [| c l Hc _ IH]; intros acc; simpl; [done |].
  rewrite IH. lia.
Qed.

Lemma markAllAsRead_unread now st cid :
  wellFormed st → unreadOf cid (markAllAsRead now st) = 0%Z.
Proof.
  intros Hwf. unfold unreadOf, markAllAsRead. cbn [conversations]. rewrite lookup_fmap.
  destruct (conversations st !! cid) as [conv |] eqn:Hc; [| done]. simpl.
  case_bool_decide as Hu; [done |].
  pose proof (wf_unread _ Hwf _ _ Hc). unfold hasUnread in Hu. lia.
Qed.

Lemma markAllAsRead_lastSeen now st cid :
  getLastSeen cid (markAllAsRead now st)
  = if decide (0 < unreadOf cid st)%Z then now else getLastSeen cid st.
Proof.
  unfold getLastSeen, markAllAsRead, unreadOf. cbn [dm_lastseen].
  destruct (conversations st !! cid) as [conv |] eqn:Hc; simpl.
  - destruct (decide (0 < Conversation.unreadCount conv)%Z) as [Hu | Hu].
    + erewrite lookup_union_Some_l; [done |].
      rewrite lookup_fmap. erewrite map_lookup_filter_Some_2; [done | done | done].
    + rewrite lookup_union_r; [done |].
      rewrite lookup_fmap. apply fmap_None, map_lookup_filter_None. right.
      intros conv' Hc'. rewrite Hc in Hc'. by injection Hc' as <-.
  - rewrite lookup_union_r; [done |].
    rewrite lookup_fmap. apply fmap_None, map_lookup_filter_None. by left.
Qed.

(** X19: [markAllAsRead] leaves no unread message behind: every counter
    and hence the total shown on the badge are 0 afterwards, the last-seen
    timestamp moves to now for exactly the conversations that had unread
    messages and stays as it was for the others, and no message list
    changes. *)
Theorem markAllAsRead_clears now st :
  reachable st →
  unreadTotal (markAllAsRead now st) = 0%Z ∧
  (∀ cid, unreadOf cid (markAllAsRead now st) = 0%Z) ∧
  (∀ cid, getLastSeen cid (markAllAsRead now st)
          = if decide (0 < unreadOf cid st)%Z then now else getLastSeen cid st) ∧
  (∀ cid, Conversation.messages <$> conversations (markAllAsRead now st) !! cid
          = Conversation.messages <$> conversations st !! cid).
Proof.
  intros Hreach. pose proof (reachable_wellFormed st Hreach) as Hwf.
  split; [| split; [| split]].
  - unfold unreadTotal. apply foldl_unread_zero, Forall_forall.
    intros c Hin. apply list_elem_of_fmap in Hin as ([cid c'] & -> & Hin).
    apply elem_of_map_to_list in Hin.
    pose proof (markAllAsRead_unread now st cid Hwf) as Hz.
    unfold unreadOf in Hz. by rewrite Hin in Hz.
  - intros cid. by apply markAllAsRead_unread.
  - apply markAllAsRead_lastSeen.
  - intros cid. unfold markAllAsRead. cbn [conversations]. rewrite lookup_fmap.
    destruct (conversations st !! cid) as [conv |]; [| done]. simpl.
    by case_bool_decide.
Qed.

(** X20: reading a conversation hides what is older.  After [markAsRead]
    at time [now], also of a conversation that is not in state yet, a new
    message of that conversation counts as unread exactly when somebody else
    wrote it and it is dated after [now]; a message that arrives late but is
    dated up to [now] leaves the counter at 0. *)
Theorem read_marker_hides_older now rumor wrapId myPubkey st :
  reachable st →
  Rumor.id rumor ∉ seenRumorIds st →
  Rumor.kind rumor ≠ 7%Z →
  let cid := conversationIdOf rumor in
  unreadOf cid (addMessage rumor wrapId myPubkey (markAsRead now cid st))
  = if decide (Rumor.pubkey rumor ≠ myPubkey ∧ (now < Rumor.created_at rumor)%Z)
    then 1%Z else 0%Z.
Proof.
  intros Hreach Hnew Hkind cid. subst cid.
  pose proof (reachable_wellFormed _
                (reachable_markAsRead now (conversationIdOf rumor) st Hreach)) as Hwf.
  rewrite addMessage_unread by done.
  rewrite markAsRead_lastSeen, markAsRead_unread by by apply reachable_wellFormed.
  unfold isUnread. case_decide as Hd.
  - destruct Hd. by rewrite !bool_decide_eq_true_2.
  - apply not_and_l in Hd as [Hd | Hd].
    + by rewrite (bool_decide_eq_false_2 (Rumor.pubkey rumor ≠ myPubkey)).
    + rewrite (bool_decide_eq_false_2 (now < _)%Z) by done. by rewrite andb_false_r.
Qed.

End ReadMarkers.

(** ** The decrypted-message cache across sessions *)

Section Replay.
Context `{P : Primitives}.

(** X21: a decrypted message survives a logout.  Once a message came in
    with a wire event, delivering that event again after the state was reset
    rebuilds the conversation from the cache alone, without any key or
    signer: the same message under the same conversation id, with the
    reactions persisted for that conversation and the unread flag taken
    against the persisted last-seen timestamp. *)
Theorem cached_message_replays_after_logout getSigner privateKey me me' event rumor st :
  Rumor.id rumor ∉ seenRumorIds st →
  Rumor.kind rumor ≠ 7%Z →
  let cid := conversationIdOf rumor in
  conversations
    (onEvent getSigner privateKey me' event
       (logout (addMessage rumor (Event.id event) me st))) !! cid
  = Some (Conversation.mk cid (Js.split "+" cid) [messageOf rumor (Event.id event)]
            (Rumor.created_at rumor)
            (if isUnread rumor me' (getLastSeen cid st) then 1 else 0)%Z
            (default ∅ (dm_reactions st !! cid))).
Proof.
  intros Hnew Hkind cid.
  rewrite (addMessage_fresh_dm rumor) by done. cbn zeta.
  unfold onEvent, getCachedRumor, logout. cbn [dm_cache]. rewrite lookup_insert_eq.
  rewrite addMessage_fresh_dm; [| by intros ?%elem_of_empty | done].
  cbn zeta. cbn [conversations]. rewrite lookup_empty, lookup_insert_eq.
  reflexivity.
Qed.

End Replay.

(** ** Reactions and messages *)

Section ReactionOrder.

(** X22: a reaction that arrives before the first message of its
    conversation, for a target whose id is no member name of
    [Object.prototype], is not lost: it creates no conversation, and when the
    conversation is created by a message later on, the reaction is in the
    live list of its target. *)
Theorem early_reaction_is_kept reaction msg wrapR wrapM myPubkey st :
  Rumor.kind reaction = 7%Z →
  Rumor.kind msg ≠ 7%Z →
  conversationIdOf msg = conversationIdOf reaction →
  conversations st !! conversationIdOf reaction = None →
  Rumor.id reaction ∉ seenRumorIds st →
  Rumor.id msg ∉ seenRumorIds st →
  Rumor.id msg ≠ Rumor.id reaction →
  Js.truthy (targetMessageIdOf reaction) = true →
  targetMessageIdOf reaction ∉ Js.objectPrototypeMembers →
  let cid := conversationIdOf reaction in
  let st1 := addMessage reaction wrapR myPubkey st in
  let st2 := addMessage msg wrapM myPubkey st1 in
  conversations st1 !! cid = None ∧
  ∃ l, liveReactions cid (targetMessageIdOf reaction) st2 = Some l ∧
       existsb (sameReaction (reactionOf reaction)) l = true.
Proof.
  intros Hk7 Hkm Hcid Hnone HnewR HnewM Hids Ht Hord cid st1 st2. subst cid.
  assert (Hst1 : st1 = addReactionToConversation reaction myPubkey
            {| conversations := conversations st;
               seenRumorIds := {[Rumor.id reaction]} ∪ seenRumorIds st;
               dm_cache := dm_cache st; dm_lastseen := dm_lastseen st;
               dm_reactions := dm_reactions st |})
    by (unfold st1; by rewrite addMessage_fresh_reaction).
  assert (Hconv1 : conversations st1 !! conversationIdOf reaction = None).
  { rewrite Hst1, addReactionToConversation_target by done. cbn zeta.
    cbn [conversations]. by rewrite Hnone. }
  split; [done |].
  assert (HnewM1 : Rumor.id msg ∉ seenRumorIds st1).
  { rewrite Hst1, addReactionToConversation_seen. simpl.
    apply not_elem_of_union. split; [by apply not_elem_of_singleton | done]. }
  unfold st2. rewrite addMessage_fresh_dm by done. cbn zeta.
  unfold liveReactions. cbn [conversations]. rewrite Hcid.
  rewrite Hconv1, lookup_insert_eq. cbn [mbind option_bind Conversation.reactions].
  eexists. split; [reflexivity |].
  pose proof (addReactionToConversation_persisted reaction myPubkey
    {| conversations := conversations st;
       seenRumorIds := {[Rumor.id reaction]} ∪ seenRumorIds st;
       dm_cache := dm_cache st; dm_lastseen := dm_lastseen st;
       dm_reactions := dm_reactions st |} Ht (readsInherited_ordinary _ _ _ Hord)) as Hp.
  rewrite <- Hst1 in Hp. unfold persistedReactions at 1 in Hp.
  rewrite Hp. apply absorb_present.
Qed.

(** X23: a reaction rumor changes reactions only: it never touches the
    message cache, the last-seen timestamps, or the id, participants,
    messages, timestamps and unread counter of any conversation, and it adds
    no conversation.  Without a target (no e-tag, or an empty one) it changes
    nothing but the seen-set. *)
Theorem reaction_changes_reactions_only rumor wrapId myPubkey st :
  Rumor.kind rumor = 7%Z →
  let st' := addMessage rumor wrapId myPubkey st in
  dm_cache st' = dm_cache st ∧
  dm_lastseen st' = dm_lastseen st ∧
  (∀ cid, (λ c, withReactions c ∅) <$> conversations st' !! cid
          = (λ c, withReactions c ∅) <$> conversations st !! cid) ∧
  (Js.truthy (targetMessageIdOf rumor) = false →
   conversations st' = conversations st ∧ dm_reactions st' = dm_reactions st).
Proof.
  intros Hkind st'. unfold st'.
  destruct (decide (Rumor.id rumor ∈ seenRumorIds st)); [by rewrite addMessage_seen |].
  rewrite addMessage_fresh_reaction by done.
  destruct (Js.truthy (targetMessageIdOf rumor)) eqn:Ht;
    [| by rewrite addReactionToConversation_no_target].
  rewrite addReactionToConversation_target by done. cbn zeta.
  split; [done |]. split; [done |]. split; [| done].
  intros cid. cbn [conversations].
  destruct (conversations st !! conversationIdOf rumor) as [existing |] eqn:Hex; [| done].
  destruct (existsb _ _); [done |].
  destruct (decide (cid = conversationIdOf rumor)) as [-> | Hne].
  - by rewrite lookup_insert_eq, Hex.
  - by rewrite lookup_insert_ne.
Qed.

End ReactionOrder.

Section EngineWitnesses.
Import Mock Scenario Scenario2.

Lemma reachable_afterHi : reachable afterHi.
Proof. apply reachable_addMessage, reachable_freshDM. Qed.

Lemma reachable_conversations_shaped_witness :
  ∃ conv, conversations afterHi !! conversationIdOf hi = Some conv ∧
          Conversation.id conv = conversationIdOf hi ∧
          Conversation.participants conv = Js.split "+" (conversationIdOf hi).
Proof.
  destruct (conversations afterHi !! conversationIdOf hi) as [conv |] eqn:H;
    [| exfalso; vm_compute in H; discriminate].
  exists conv. split; [reflexivity |].
  destruct (reachable_conversations_shaped afterHi (conversationIdOf hi) conv
              reachable_afterHi H) as (Hid & Hparts & _).
  exact (conj Hid Hparts).
Defined.

(** A message dated before [hi] that arrives after it is shown first. *)
Lemma addMessage_position_witness :
  ∃ existing conv,
    conversations afterHi !! conversationIdOf earlier = Some existing ∧
    conversations (addMessage earlier "w0" bobPub afterHi) !! conversationIdOf earlier
      = Some conv ∧
    Conversation.messages conv
    = filter (λ m, DMMessage.created_at m ≤ 1690000000)%Z (Conversation.messages existing)
      ++ messageOf earlier "w0"
      :: filter (λ m, 1690000000 < DMMessage.created_at m)%Z (Conversation.messages existing).
Proof.
  destruct (conversations afterHi !! conversationIdOf earlier) as [existing |] eqn:H;
    [| exfalso; vm_compute in H; discriminate].
  destruct (addMessage_position earlier "w0" bobPub afterHi existing) as (conv & Hc & Hm).
  - exact reachable_afterHi.
  - apply (bool_decide_unpack _). vm_compute. exact I.
  - discriminate.
  - exact H.
  - exists existing, conv. split; [reflexivity |]. split; [exact Hc | exact Hm].
Defined.

Lemma markAllAsRead_clears_witness :
  unreadTotal (markAllAsRead 1700000500 afterHi) = 0%Z.
Proof. exact (proj1 (markAllAsRead_clears 1700000500 afterHi reachable_afterHi)). Defined.

(** Bob has read the conversation at 1700000000; [earlier] then comes in
    and is not counted. *)
Lemma read_marker_hides_older_witness :
  unreadOf (conversationIdOf earlier)
    (addMessage earlier "w0" bobPub
       (markAsRead 1700000000 (conversationIdOf earlier) afterHi)) = 0%Z.
Proof.
  rewrite (read_marker_hides_older 1700000000 earlier "w0" bobPub afterHi).
  - reflexivity.
  - exact reachable_afterHi.
  - apply (bool_decide_unpack _). vm_compute. exact I.
  - discriminate.
Defined.

(** Bob logs out and in again as a user without any key: [hi] is back. *)
Lemma cached_message_replays_after_logout_witness :
  Conversation.messages
    <$> conversations
          (onEvent (Throw SignerFailure) None bobPub bobWrap
             (logout (addMessage hi (Event.id bobWrap) bobPub freshDM))) !! conversationIdOf hi
  = Some [messageOf hi (Event.id bobWrap)].
Proof.
  rewrite (@cached_message_replays_after_logout primitives (Throw SignerFailure) None
             bobPub bobPub bobWrap hi freshDM).
  - reflexivity.
  - apply not_elem_of_empty.
  - discriminate.
Defined.

(** Alice's thumbs-up reaches Bob before [hi] does. *)
Lemma early_reaction_is_kept_witness :
  ∃ l, liveReactions (conversationIdOf thumbsUp) (targetMessageIdOf thumbsUp)
         (addMessage hi "w1" bobPub (addMessage thumbsUp "w2" bobPub freshDM)) = Some l ∧
       existsb (sameReaction (reactionOf thumbsUp)) l = true.
Proof.
  refine (proj2 (early_reaction_is_kept thumbsUp hi "w2" "w1" bobPub freshDM
                   _ _ _ _ _ _ _ _ _)).
  - reflexivity.
  - discriminate.
  - vm_compute. reflexivity.
  - apply lookup_empty.
  - apply not_elem_of_empty.
  - apply not_elem_of_empty.
  - discriminate.
  - vm_compute. reflexivity.
  - apply (bool_decide_unpack _). vm_compute. exact I.
Defined.

Lemma reaction_changes_reactions_only_witness :
  dm_cache (addMessage thumbsUp "w2" bobPub afterHi) = dm_cache afterHi.
Proof.
  exact (proj1 (reaction_changes_reactions_only thumbsUp "w2" bobPub afterHi eq_refl)).
Defined.

End EngineWitnesses.

(** ** The local echo of a sent message *)

Section LocalEcho.
Context `{P : Primitives}.

Lemma sendMessage_inv user getSigner net defaultRelays now dr ds recipientPubkey content
    replyToId w st tracking w' st' :
  sendMessage user getSigner net defaultRelays now dr ds recipientPubkey content replyToId
    w st = (Ok tracking, w', st') →
  ∃ u signer senderPubkey wrapR recipientRelays wrapS senderRelays,
    let rumor := createRumor now senderPubkey recipientPubkey content replyToId 14 [] in
    user = Some u ∧ getSigner = Ok signer ∧ signer_getPublicKey signer = Ok senderPubkey ∧
    SendTracking.rumorId tracking = Rumor.id rumor ∧
    st' = addMessage rumor ("local_" +:+ Rumor.id rumor) (user_pubkey u) st ∧
    SendTracking.retryWraps tracking = [(wrapR, recipientRelays); (wrapS, senderRelays)] ∧
    published w' = published w ++ pool_publish recipientRelays wrapR
                               ++ pool_publish senderRelays wrapS.
Proof.
  unfold sendMessage. destruct user as [u |]; [| done].
  destruct (wrapAndSendDM getSigner net defaultRelays now dr ds recipientPubkey content
              (user_privateKey u) replyToId w) as [[res | e] w0] eqn:Hsend; [| done].
  intros [= <- <- <-].
  apply wrapAndSendDM_inv in Hsend
    as (signer & spk & wrapR & wrapS & -> & Hpk & Hrumor & _ & _ & Hwraps & _ & ->).
  cbn zeta in Hrumor, Hwraps. exists u, signer, spk. eexists wrapR, _, wrapS, _. cbn zeta.
  cbn [SendTracking.rumorId SendTracking.retryWraps published].
  rewrite Hrumor. do 5 (split; [done |]). split; [exact Hwraps |].
  rewrite publishWraps_ops, Hwraps. simpl. by rewrite app_nil_r, app_assoc.
Qed.

(** X24: the local echo.  A message sent by the logged-in user shows up in
    the conversation with the recipient at once, under a [local_] wrap id,
    and never counts as unread; when the self-copy, or any other wrap of
    that rumor, comes in from a relay later, nothing changes. *)
Theorem sendMessage_local_echo user signer net defaultRelays now dr ds recipientPubkey
    content replyToId w st tracking w' st' :
  reachable st →
  signer_getPublicKey signer = Ok (user_pubkey user) →
  sendMessage (Some user) (Ok signer) net defaultRelays now dr ds recipientPubkey content
    replyToId w st = (Ok tracking, w', st') →
  let rumor := createRumor now (user_pubkey user) recipientPubkey content replyToId 14 [] in
  let cid := getConversationId (user_pubkey user) [recipientPubkey] in
  SendTracking.rumorId tracking = Rumor.id rumor ∧
  (∀ other, unreadOf other st' = unreadOf other st) ∧
  (Rumor.id rumor ∉ seenRumorIds st →
   ∃ conv, conversations st' !! cid = Some conv ∧
           messageOf rumor ("local_" +:+ Rumor.id rumor) ∈ Conversation.messages conv) ∧
  (∀ getSigner' privateKey' event r,
     resolve getSigner' privateKey' event st' = Some r →
     Rumor.id r = Rumor.id rumor →
     onEvent getSigner' privateKey' (user_pubkey user) event st' = st').
Proof.
  intros Hreach Hpk Hsend rumor cid.
  pose proof (reachable_wellFormed st Hreach) as Hwf.
  apply sendMessage_inv in Hsend
    as (u & signer' & spk & wrapR & rr & wrapS & sr & [= <-] & [= <-] & Hpk' & Hid & -> & _).
  cbn zeta in *. rewrite Hpk in Hpk'. injection Hpk' as <-. fold rumor in Hid |- *.
  assert (Hkind : Rumor.kind rumor ≠ 7%Z) by done.
  assert (Hcid : conversationIdOf rumor = cid).
  { apply conversationIdOf_createRumor. done. }
  split; [done |]. split; [| split].
  - intros other.
    destruct (decide (Rumor.id rumor ∈ seenRumorIds st)) as [Hseen | Hnew];
      [by rewrite addMessage_seen |].
    destruct (decide (other = conversationIdOf rumor)) as [-> | Hne];
      [| by apply addMessage_unread_other].
    rewrite addMessage_unread by done. unfold isUnread.
    rewrite (bool_decide_eq_false_2 (Rumor.pubkey rumor ≠ user_pubkey user))
      by (by intros ?).
    simpl. lia.
  - intros Hnew. rewrite addMessage_fresh_dm by done. cbn zeta. cbn [conversations].
    rewrite Hcid.
    destruct (conversations st !! cid) as [existing |] eqn:Hex.
    + rewrite <- Hcid in Hex. rewrite (unseen_not_in_messages st _ existing) by done.
      rewrite lookup_insert_eq. eexists. split; [reflexivity |].
      cbn [Conversation.messages]. rewrite sort_Permutation, elem_of_app.
      right. apply list_elem_of_here.
    + rewrite lookup_insert_eq. eexists. split; [reflexivity |]. apply list_elem_of_here.
  - intros getSigner' privateKey' event r Hres Hr.
    rewrite onEvent_resolve, Hres. apply addMessage_seen. rewrite Hr.
    apply addMessage_marks_seen.
Qed.

(** X25: the rumor id is a function of sender, recipient, text, reply
    target and the second on the clock, so the same text sent again to the
    same recipient within the same second gets the id of the first message:
    the two wraps of the second send are handed to the pool like any other,
    but it adds no message to the conversation and is tracked under the
    first one's id. *)
Theorem sendMessage_twice_in_one_second user signer net1 net2 defaultRelays now dr1 ds1
    dr2 ds2 recipientPubkey content replyToId w st t1 w1 st1 t2 w2 st2 :
  sendMessage user (Ok signer) net1 defaultRelays now dr1 ds1 recipientPubkey content
    replyToId w st = (Ok t1, w1, st1) →
  sendMessage user (Ok signer) net2 defaultRelays now dr2 ds2 recipientPubkey content
    replyToId w1 st1 = (Ok t2, w2, st2) →
  SendTracking.rumorId t2 = SendTracking.rumorId t1 ∧ st2 = st1 ∧
  ∃ wrapR recipientRelays wrapS senderRelays,
    SendTracking.retryWraps t2 = [(wrapR, recipientRelays); (wrapS, senderRelays)] ∧
    published w2 = published w1 ++ pool_publish recipientRelays wrapR
                                ++ pool_publish senderRelays wrapS.
Proof.
  intros H1 H2.
  apply sendMessage_inv in H1
    as (u1 & s1 & spk1 & ? & ? & ? & ? & -> & [= <-] & Hpk1 & Hid1 & -> & _).
  apply sendMessage_inv in H2
    as (u2 & s2 & spk2 & wrapR & rr & wrapS & sr & [= <-] & [= <-] & Hpk2 & Hid2 & -> &
        Hwraps & Hpub).
  cbn zeta in *. rewrite Hpk1 in Hpk2. injection Hpk2 as <-.
  split; [congruence |]. split; [by apply addMessage_again |].
  by exists wrapR, rr, wrapS, sr.
Qed.

End LocalEcho.

(** ** What the sender sees: relay dots, "Not delivered", Retry *)

Section StatusView.

Lemma forallb_entries {A} (m : gmap string A) (f : A → bool) :
  forallb (λ e : string * A, f e.2) (map_to_list m) = true ↔
  ∀ k a, m !! k = Some a → f a = true.
Proof.
  rewrite forallb_forall. split.
  - intros H k a Hk. apply (H (k, a)). by apply list_elem_of_In, elem_of_map_to_list.
  - intros H [k a] Hin. apply list_elem_of_In, elem_of_map_to_list in Hin. by eapply H.
Qed.

Lemma entries_nonempty {A} (m : gmap string A) : 0 < length (map_to_list m) ↔ m ≠ ∅.
Proof.
  rewrite <- map_to_list_empty_iff. destruct (map_to_list m); simpl; [| split; [done | lia]].
  split; [lia | done].
Qed.

Lemma forallb_entries_false {A} (m : gmap string A) (f : A → bool) :
  forallb (λ e : string * A, f e.2) (map_to_list m) = false →
  ∃ k a, m !! k = Some a ∧ f a = false.
Proof.
  intros H.
  assert (∃ e, e ∈ map_to_list m ∧ f e.2 = false) as ([k a] & Hin & Hf).
  { induction (map_to_list m) as [| e l IH]; simpl in H; [done |].
    apply andb_false_iff in H as [H | H].
    - exists e. split; [apply list_elem_of_here | done].
    - destruct (IH H) as (e' & Hin & Hf). exists e'. split; [by apply list_elem_of_further | done]. }
  exists k, a. split; [by apply elem_of_map_to_list | done].
Qed.

Lemma sendStatusView_iff status onRetry :
  let relays := MsgSendStatus.relays status in
  (sendStatusView (Some status) onRetry = NoStatus ↔
     ∀ relay s, relays !! relay = Some s → s = RelayStatus.sent) ∧
  (sendStatusView (Some status) onRetry = NotDelivered onRetry ↔
     relays ≠ ∅ ∧
     ∀ relay s, relays !! relay = Some s → s = RelayStatus.failed ∨ s = RelayStatus.timeout) ∧
  (sendStatusView (Some status) onRetry = RelayDots (map_to_list relays) ↔
     (∃ relay s, relays !! relay = Some s ∧ s ≠ RelayStatus.sent) ∧
     (∃ relay s, relays !! relay = Some s ∧ s ≠ RelayStatus.failed ∧ s ≠ RelayStatus.timeout)).
Proof.
  intros relays. unfold sendStatusView. fold relays. cbn zeta.
  destruct (forallb (λ e, bool_decide (e.2 = RelayStatus.sent)) (map_to_list relays))
    eqn:Hall.
  { assert (Hsent : ∀ relay s, relays !! relay = Some s → s = RelayStatus.sent).
    { intros relay s Hk.
      pose proof (proj1 (forallb_entries relays (λ s, bool_decide (s = RelayStatus.sent)))
                    Hall relay s Hk) as Hb.
      by apply bool_decide_eq_true in Hb. }
    split; [done |]. split.
    - split; [done |]. intros [Hnonempty Hfail]. exfalso.
      apply map_choose in Hnonempty as (k & a & Hk).
      pose proof (Hsent k a Hk). destruct (Hfail k a Hk); congruence.
    - split; [done |]. intros [(relay & s & Hk & Hs') _]. exfalso.
      by apply Hs', (Hsent relay). }
  destruct (forallb_entries_false relays (λ s, bool_decide (s = RelayStatus.sent)) Hall)
    as (k1 & a1 & Hk1 & Ha1). clear Hall.
  apply bool_decide_eq_false in Ha1.
  assert (Hnot : ¬ ∀ relay s, relays !! relay = Some s → s = RelayStatus.sent)
    by (intros H; by apply Ha1, (H k1)).
  assert (Hlen : bool_decide (0 < length (map_to_list relays)) = true).
  { apply bool_decide_eq_true, entries_nonempty. intros Hempty.
    by rewrite Hempty, lookup_empty in Hk1. }
  rewrite Hlen. cbn [andb].
  destruct (forallb (λ e, bool_decide (e.2 = RelayStatus.failed ∨ e.2 = RelayStatus.timeout))
              (map_to_list relays)) eqn:Hfail.
  - assert (Hfailed : ∀ relay s, relays !! relay = Some s →
                                 s = RelayStatus.failed ∨ s = RelayStatus.timeout).
    { intros relay s Hk.
      pose proof (proj1 (forallb_entries relays
                           (λ s, bool_decide (s = RelayStatus.failed ∨ s = RelayStatus.timeout)))
                    Hfail relay s Hk) as Hb.
      by apply bool_decide_eq_true in Hb. }
    split; [done |]. split.
    + split; [| done]. intros _. split; [| done]. intros Hempty.
      by rewrite Hempty, lookup_empty in Hk1.
    + split; [done |]. intros [_ (relay & s & Hk & Hs1 & Hs2)].
      destruct (Hfailed relay s Hk); congruence.
  - destruct (forallb_entries_false relays
                (λ s, bool_decide (s = RelayStatus.failed ∨ s = RelayStatus.timeout)) Hfail)
      as (k2 & a2 & Hk2 & Ha2).
    apply bool_decide_eq_false in Ha2.
    split; [done |]. split.
    + split; [done |]. intros [_ H]. exfalso. by apply Ha2, (H k2).
    + split; [| done]. intros _. split; [by exists k1, a1 |].
      exists k2, a2. split; [done |]. split; intros ->; apply Ha2; eauto.
Qed.

(** X26: what is shown under a sent message.  Nothing when every relay of
    the record is [sent] (also when the record has no relay at all); "Not
    delivered" with the Retry link exactly when the record has a relay and
    every relay is [failed] or [timeout]; one dot per relay in all other
    cases, so a message that one relay accepted never offers Retry. *)
Theorem sendStatusView_cases status onRetry :
  let relays := MsgSendStatus.relays status in
  (sendStatusView (Some status) onRetry = NoStatus ↔
     ∀ relay s, relays !! relay = Some s → s = RelayStatus.sent) ∧
  (sendStatusView (Some status) onRetry = NotDelivered onRetry ↔
     relays ≠ ∅ ∧
     ∀ relay s, relays !! relay = Some s → s = RelayStatus.failed ∨ s = RelayStatus.timeout) ∧
  (sendStatusView (Some status) onRetry = RelayDots (map_to_list relays) ↔
     (∃ relay s, relays !! relay = Some s ∧ s ≠ RelayStatus.sent) ∧
     (∃ relay s, relays !! relay = Some s ∧ s ≠ RelayStatus.failed ∧ s ≠ RelayStatus.timeout)).
Proof. apply sendStatusView_iff. Qed.

(** X27: Retry is a one-shot.  When a message shows "Not delivered", a
    click on Retry puts every relay of its record back to [pending], so the
    row shows the dots of the same relays and the Retry link is gone. *)
Theorem retry_hides_retry rumorId st w status :
  sendStatuses st !! rumorId = Some status →
  sendStatusView (Some status) true = NotDelivered true →
  ∃ status',
    sendStatuses (handleRetry rumorId st w).1 !! rumorId = Some status' ∧
    dom (MsgSendStatus.relays status') = dom (MsgSendStatus.relays status) ∧
    sendStatusView (Some status') true = RelayDots (map_to_list (MsgSendStatus.relays status')) ∧
    ∀ relay s, MsgSendStatus.relays status' !! relay = Some s → s = RelayStatus.pending.
Proof.
  intros Hstatus Hview.
  apply (proj1 (proj2 (sendStatusView_iff status true))) in Hview as [Hne _].
  apply map_choose in Hne as (k & a & Hk).
  unfold handleRetry. rewrite Hstatus. cbn [fst sendStatuses]. rewrite lookup_insert_eq.
  set (status' := MsgSendStatus.mk ((λ _, RelayStatus.pending) <$> MsgSendStatus.relays status)
                    (MsgSendStatus.retryWraps status)).
  exists status'. split; [done |]. split; [apply dom_fmap_L |]. split.
  - apply (proj2 (proj2 (sendStatusView_iff status' true))).
    split; exists k, RelayStatus.pending; cbn [status' MsgSendStatus.relays];
      rewrite lookup_fmap, Hk; by repeat split.
  - intros relay s. cbn [status' MsgSendStatus.relays]. rewrite lookup_fmap.
    destruct (_ !! relay); simpl; congruence.
Qed.

Lemma settleAll_lookup outcome rumorId (rs : list Race) st status :
  (∀ r, r ∈ rs → race_rumorId r = rumorId) →
  sendStatuses st !! rumorId = Some status →
  ∃ status',
    sendStatuses (settleAll outcome rs st) !! rumorId = Some status' ∧
    MsgSendStatus.retryWraps status' = MsgSendStatus.retryWraps status ∧
    ∀ relay, MsgSendStatus.relays status' !! relay
             = if decide (relay ∈ race_relay <$> rs)
               then Some (settledStatus (outcome relay))
               else MsgSendStatus.relays status !! relay.
Proof.
  unfold settleAll. revert st status.
  induction rs as [| r rs IH]; intros st status Hrs Hstatus.
  - exists status. cbn [foldl]. split; [done |]. split; [done |]. intros relay.
    rewrite fmap_nil, decide_False; [done | apply not_elem_of_nil].
  - cbn [foldl].
    assert (Hr : race_rumorId r = rumorId) by apply Hrs, list_elem_of_here.
    edestruct (IH (settle r (outcome (race_relay r)) st)) as (status' & Hs' & Hw & Hl).
    + intros r' Hr'. by apply Hrs, list_elem_of_further.
    + unfold settle, updateRelayStatus. cbn [sendStatuses]. rewrite Hr, Hstatus.
      apply lookup_insert_eq.
    + exists status'. split; [done |]. split; [done |]. intros relay. rewrite Hl.
      cbn [MsgSendStatus.relays]. rewrite fmap_cons, lookup_insert.
      destruct (decide (relay ∈ race_relay <$> rs)) as [Hin | Hnin].
      * rewrite decide_True; [done | by apply list_elem_of_further].
      * destruct (decide (race_relay r = relay)) as [<- | Hne].
        -- rewrite decide_True; [done | apply list_elem_of_here].
        -- rewrite decide_False; [done |]. rewrite elem_of_cons. intros [? | ?]; congruence.
Qed.

(** X28: a send from start to finish.  [trackRelays] starts one race per
    tracked relay; once all of them have settled, the record holds for every
    tracked relay the status of its own outcome and nothing else, and the
    stored wraps are untouched.  The row under the message is then gone if
    every relay accepted, and reads "Not delivered" with Retry if there is a
    tracked relay and none accepted. *)
Theorem settled_send_view tracking outcome st :
  let tracked := RelayPublish.relay <$> SendTracking.publishes tracking in
  races (trackRelays tracking st) = races st ++ racesOf tracking ∧
  ∃ status,
    sendStatuses (settleAll outcome (racesOf tracking) (trackRelays tracking st))
      !! SendTracking.rumorId tracking = Some status ∧
    MsgSendStatus.retryWraps status = SendTracking.retryWraps tracking ∧
    (∀ relay, MsgSendStatus.relays status !! relay
              = if decide (relay ∈ tracked) then Some (settledStatus (outcome relay))
                else None) ∧
    ((∀ relay, relay ∈ tracked → outcome relay = Resolved) →
     sendStatusView (Some status) true = NoStatus) ∧
    (tracked ≠ [] → (∀ relay, relay ∈ tracked → outcome relay ≠ Resolved) →
     sendStatusView (Some status) true = NotDelivered true).
Proof.
  intros tracked. split; [done |].
  edestruct (settleAll_lookup outcome (SendTracking.rumorId tracking) (racesOf tracking)
               (trackRelays tracking st)) as (status & Hs & Hw & Hl).
  { unfold racesOf. intros r (p & -> & _)%list_elem_of_fmap. done. }
  { unfold trackRelays. cbn [sendStatuses]. apply lookup_insert_eq. }
  cbn [MsgSendStatus.relays MsgSendStatus.retryWraps] in Hw, Hl.
  assert (Hrelays : ∀ relay, MsgSendStatus.relays status !! relay
             = if decide (relay ∈ tracked) then Some (settledStatus (outcome relay))
               else None).
  { intros relay. rewrite Hl. unfold racesOf. rewrite <- list_fmap_compose.
    change (race_relay ∘ _) with RelayPublish.relay. fold tracked.
    destruct (decide (relay ∈ tracked)) as [Hin | Hnin]; [done |].
    rewrite initialRelays_lookup, lookup_empty. by rewrite decide_False. }
  exists status. split; [done |]. split; [done |]. split; [done |]. split.
  - intros Hall. apply (proj1 (sendStatusView_iff status true)).
    intros relay s. rewrite Hrelays. case_decide as Hin; [| done].
    rewrite (Hall relay Hin). by intros [= <-].
  - intros Hne Hall. apply (proj1 (proj2 (sendStatusView_iff status true))). split.
    + destruct tracked as [| relay rest] eqn:Ht; [done |]. intros Hempty.
      pose proof (Hrelays relay) as Hr. rewrite Hempty, lookup_empty in Hr.
      rewrite decide_True in Hr by apply list_elem_of_here. done.
    + intros relay s. rewrite Hrelays. case_decide as Hin; [| done].
      pose proof (Hall relay Hin). intros [= <-]. by destruct (outcome relay); [| left | right].
Qed.

End StatusView.

Section StatusViewWitness.
Import Mock Scenario.

(** "hi" went to two relays and both rejected it: after Retry the row shows
    dots again. *)
Lemma retry_hides_retry_witness :
  ∃ res w1 status',
    sendHi = (Ok res, w1) ∧
    sendStatuses
      (handleRetry (Rumor.id (SendResult.rumor res))
         (settleAll (λ _, Rejected) (racesOf (trackingOf res))
            (trackRelays (trackingOf res) noChat)) w1).1
      !! Rumor.id (SendResult.rumor res) = Some status' ∧
    sendStatusView (Some status') true = RelayDots (map_to_list (MsgSendStatus.relays status')).
Proof.
  destruct sendHi as [[res | e] w1] eqn:Hsend;
    [| exfalso; vm_compute in Hsend; discriminate].
  exists res, w1. vm_compute in Hsend. injection Hsend as <- <-.
  match goal with
  | |- context [sendStatuses (handleRetry ?rid ?st0 ?w0).1 !! _] =>
      set (st := st0); set (w1 := w0);
      destruct (sendStatuses st !! rid) as [status |] eqn:Hstatus;
        [| exfalso; vm_compute in Hstatus; discriminate];
      destruct (retry_hides_retry rid st w1 status Hstatus) as (status' & Hs' & _ & Hview & _)
  end.
  - vm_compute in Hstatus. injection Hstatus as <-. vm_compute. reflexivity.
  - exists status'. split; [reflexivity |]. split; [exact Hs' | exact Hview].
Defined.

End StatusViewWitness.

(** ** The composer *)

Section Composer.
Context `{P : Primitives}.

(** X29: a send from the composer either goes through or leaves no
    trace.  With text in the box and no send in flight, either the message
    is sent (the box is cleared, the reply target is dropped, the relays are
    tracked), or the trimmed draft is back in the box, nothing was handed to
    the pool, and conversations, send statuses and reply target are as
    before.  Blank input, or a send already in flight, does nothing at
    all. *)
Theorem composer_send_or_restore (trim : string → string) recipientPubkey user getSigner net
    defaultRelays now dr ds c w st ui :
  let onSend := handleSend recipientPubkey user getSigner net defaultRelays now dr ds in
  let out := MessageInput.handleSend trim onSend c (w, st, ui) in
  (Js.truthy (trim (MessageInput.input c)) = false ∨ MessageInput.sending c = true →
   out = (c, (w, st, ui))) ∧
  (Js.truthy (trim (MessageInput.input c)) = true → MessageInput.sending c = false →
   (∃ recipient tracking w' st',
      given recipientPubkey = Some recipient ∧
      sendMessage user getSigner net defaultRelays now dr ds recipient
        (trim (MessageInput.input c)) (DMMessage.id <$> replyTo ui) w st
      = (Ok tracking, w', st') ∧
      out = (MessageInput.mk "" false,
             (w', st', {| chat := trackRelays tracking (chat ui); replyTo := None |}))) ∨
   (∃ w',
      published w' = published w ∧
      out = (MessageInput.mk (trim (MessageInput.input c)) false, (w', st, ui)))).
Proof.
  intros onSend out. unfold out, MessageInput.handleSend. split.
  - intros [-> | ->]; [done | by rewrite orb_true_r].
  - intros -> ->. cbn [negb orb]. unfold onSend, handleSend.
    destruct (given recipientPubkey) as [recipient |] eqn:Hr; [| right; by exists w].
    destruct (sendMessage user getSigner net defaultRelays now dr ds recipient
                (trim (MessageInput.input c)) (DMMessage.id <$> replyTo ui) w st)
      as [[[tracking | e] w'] st'] eqn:Hsend.
    + left. by exists recipient, tracking, w', st'.
    + right. apply sendMessage_throws in Hsend as [Hpub ->]. by exists w'.
Qed.

End Composer.

Section ComposerWitness.
Import Mock Scenario Scenario2.

(** Alice's signer cannot encrypt: the draft " hi " comes back trimmed. *)
Lemma composer_send_or_restore_witness :
  (MessageInput.handleSend trimBlanks
     (handleSend (Some bobPub) (Some aliceDelegated) (Ok encryptlessSigner) noRelayLists
        someDefaultRelays 1700000000 (draws "e1") (draws "e2"))
     (MessageInput.mk " hi " false)
     (coldWorld, freshDM, {| chat := noChat; replyTo := None |})).1
  = MessageInput.mk "hi" false.
Proof.
  destruct (proj2 (@composer_send_or_restore primitives trimBlanks (Some bobPub)
                     (Some aliceDelegated) (Ok encryptlessSigner) noRelayLists
                     someDefaultRelays 1700000000 (draws "e1") (draws "e2")
                     (MessageInput.mk " hi " false) coldWorld freshDM
                     {| chat := noChat; replyTo := None |}) eq_refl eq_refl)
    as [(recipient & tracking & w' & st' & [= <-] & Hsend & _) | (w' & _ & ->)].
  - exfalso. vm_compute in Hsend. discriminate.
  - reflexivity.
Defined.

End ComposerWitness.

(** ** Poll responses *)

Section PollResponses.



End PollResponses.

Section LocalEchoWitness.
Import Mock Scenario.

(** Alice sends "hi" to Bob from a fresh session: the echo is there and
    nothing is unread. *)
Lemma sendMessage_local_echo_witness :
  ∃ tracking w' st',
    sendMessage (Some alice) (Ok aliceSigner) noRelayLists someDefaultRelays 1700000000
      (draws "e1") (draws "e2") bobPub "hi" None coldWorld freshDM = (Ok tracking, w', st') ∧
    SendTracking.rumorId tracking = Rumor.id hi ∧
    ∀ other, unreadOf other st' = unreadOf other freshDM.
Proof.
  destruct (sendMessage (Some alice) (Ok aliceSigner) noRelayLists someDefaultRelays
              1700000000 (draws "e1") (draws "e2") bobPub "hi" None coldWorld freshDM)
    as [[[tracking | e] w'] st'] eqn:H; [| exfalso; vm_compute in H; discriminate].
  exists tracking, w', st'. split; [reflexivity |].
  destruct (@sendMessage_local_echo primitives alice aliceSigner noRelayLists
              someDefaultRelays 1700000000 (draws "e1") (draws "e2") bobPub "hi" None
              coldWorld freshDM tracking w' st' reachable_freshDM eq_refl H)
    as (Hid & Hunread & _).
  split; [exact Hid | exact Hunread].
Defined.

(** The same "hi" sent twice within the second 1700000000. *)
Lemma sendMessage_twice_in_one_second_witness :
  ∃ t1 w1 st1 t2 w2 st2,
    sendMessage (Some alice) (Ok aliceSigner) noRelayLists someDefaultRelays 1700000000
      (draws "e1") (draws "e2") bobPub "hi" None coldWorld freshDM = (Ok t1, w1, st1) ∧
    sendMessage (Some alice) (Ok aliceSigner) noRelayLists someDefaultRelays 1700000000
      (draws "e3") (draws "e4") bobPub "hi" None w1 st1 = (Ok t2, w2, st2) ∧
    SendTracking.rumorId t2 = SendTracking.rumorId t1 ∧ st2 = st1.
Proof.
  destruct (sendMessage (Some alice) (Ok aliceSigner) noRelayLists someDefaultRelays
              1700000000 (draws "e1") (draws "e2") bobPub "hi" None coldWorld freshDM)
    as [[[t1 | e] w1] st1] eqn:H1; [| exfalso; vm_compute in H1; discriminate].
  destruct (sendMessage (Some alice) (Ok aliceSigner) noRelayLists someDefaultRelays
              1700000000 (draws "e3") (draws "e4") bobPub "hi" None w1 st1)
    as [[[t2 | e] w2] st2] eqn:H2.
  - exists t1, w1, st1, t2, w2, st2. split; [reflexivity |]. split; [exact H2 |].
    destruct (@sendMessage_twice_in_one_second primitives _ _ _ _ _ _ _ _ _ _ _ _ _ _ _
                _ _ _ _ _ _ H1 H2) as (Hid & Hst & _).
    exact (conj Hid Hst).
  - exfalso. vm_compute in H1. injection H1 as _ <- <-. vm_compute in H2. discriminate.
Defined.

End LocalEchoWitness.

Section PollWitness.


End PollWitness.
